(** * Bindexer: the historical backfill engine, embedded and verified

    A shallow embedding of the block-range batcher ([utils/seeder.ts]),
    the event store ([utils/dbClient.ts]) and the retry-and-split driver
    ([logs.ts]) of the bindexer event indexer, followed by the properties
    proved about them.

    Conventions of the embedding:
    - a JavaScript [bigint] is a [Z]; a [number] that holds an integer is a
      [Z] as well (no claim below depends on values beyond 2^53);
    - a JavaScript string is a [string] of bytes; every pattern the code
      searches for is ASCII, so byte-wise search agrees with the source;
    - an [async] function is run to completion: [await] is sequencing;
    - a loop or a recursion of the source takes a [fuel] argument and
      answers [None] when the fuel runs out; the theorems show how much
      fuel is enough;
    - a [throw] is a value: fallible steps return a [sum], with the thrown
      error on the left. *)

From Stdlib Require Import ZArith String Ascii List Lia Bool.
From Stdlib Require Import Numbers.DecimalString.
From Stdlib Require Numbers.DecimalPos.
From stdpp Require Import base option list gmap strings.

Import ListNotations.
Set Warnings "-register-all".
Local Open Scope string_scope.
Local Open Scope Z_scope.

(* ===================================================================== *)
(** * Part I: the program                                                 *)
(* ===================================================================== *)

(** ** JavaScript strings *)

Module Js.

(** [s.startsWith(p)] *)
Fixpoint startsWith (s p : string) : bool :=
  match p with
  | EmptyString => true
  | String c p' =>
      match s with
      | EmptyString => false
      | String d s' => if Ascii.eqb c d then startsWith s' p' else false
      end
  end.

(** [s.includes(p)] *)
Fixpoint includes (s p : string) : bool :=
  startsWith s p ||
  match s with
  | EmptyString => false
  | String _ s' => includes s' p
  end.

Definition lower_ascii (c : ascii) : ascii :=
  let n := nat_of_ascii c in
  if ((65 <=? n) && (n <=? 90))%nat then ascii_of_nat (n + 32) else c.

(** [s.toLowerCase()], on the ASCII letters *)
Fixpoint toLowerCase (s : string) : string :=
  match s with
  | EmptyString => EmptyString
  | String c s' => String (lower_ascii c) (toLowerCase s')
  end.

(** the decimal text of an integer: [String(n)], [n.toString()] and a
    template literal's rendering of a bigint *)
Definition string_of_Z (n : Z) : string :=
  NilZero.string_of_int (Z.to_int n).

Definition digit_of (c : ascii) : option Z :=
  let n := nat_of_ascii c in
  if ((48 <=? n) && (n <=? 57))%nat then Some (Z.of_nat n - 48) else None.

(** the value of the leading decimal digits of [s], after [acc], and
    whether anything follows them *)
Fixpoint digits (acc : Z) (s : string) : Z * string :=
  match s with
  | EmptyString => (acc, EmptyString)
  | String c s' =>
      match digit_of c with
      | Some d => digits (10 * acc + d) s'
      | None => (acc, s)
      end
  end.

Definition starts_with_digit (s : string) : bool :=
  match s with
  | String c _ => match digit_of c with Some _ => true | None => false end
  | EmptyString => false
  end.

Definition is_space (c : ascii) : bool :=
  let n := nat_of_ascii c in
  ((9 <=? n) && (n <=? 13))%nat || (n =? 32)%nat.

Fixpoint trimStart (s : string) : string :=
  match s with
  | String c s' => if is_space c then trimStart s' else s
  | EmptyString => EmptyString
  end.

(** [parseInt(s, 10)]: leading blanks, an optional sign, then the leading
    digits; [None] is [NaN] *)
Definition parseInt (s : string) : option Z :=
  let s := trimStart s in
  let '(neg, body) :=
    match s with
    | String "-" r => (true, r)
    | String "+" r => (false, r)
    | _ => (false, s)
    end in
  if starts_with_digit body then
    let n := fst (digits 0 body) in Some (if neg then - n else n)
  else None.

(** [s.substring(n)] *)
Fixpoint substring_from (n : nat) (s : string) : string :=
  match n, s with
  | O, _ => s
  | S n', String _ s' => substring_from n' s'
  | S _, EmptyString => EmptyString
  end.

(** [s.slice(0, n)] *)
Fixpoint slice0 (n : nat) (s : string) : string :=
  match n, s with
  | S n', String c s' => String c (slice0 n' s')
  | _, _ => EmptyString
  end.

(** [s.split(sep)] for a one-character separator: the first piece and the
    other pieces *)
Fixpoint split (sep : ascii) (s : string) : string * list string :=
  match s with
  | EmptyString => (EmptyString, [])
  | String c s' =>
      let '(first, others) := split sep s' in
      if Ascii.eqb c sep then (EmptyString, first :: others)
      else (String c first, others)
  end.

(** what [catch (error)] receives: an [Error] with its message, or some
      other thrown value *)
Inductive thrown : Type :=
  | ErrorObj (message : string)
  | NonError.

(** [error instanceof Error ? error.message : 'Unknown error'] *)
Definition message_of (e : thrown) : string :=
  match e with
  | ErrorObj m => m
  | NonError => "Unknown error"
  end.

End Js.

(** ** JavaScript values and JSON *)

Module Json.
Import Js.

(** the values that occur as decoded event arguments, as bound statement
    parameters and as cells of a query result; [VDouble] is a number that
    is not an integer of the model, named by a decimal literal *)
Inductive value : Type :=
| VUndefined
| VNull
| VBool (b : bool)
| VNumber (n : Z)
| VDouble (literal : string)
| VBigInt (n : Z)
| VString (s : string)
| VArray (items : list value)
| VObject (fields : list (string * value)).

Definition hex_digit (n : nat) : ascii :=
  ascii_of_nat (if (n <? 10)%nat then 48 + n else 87 + n).

(** the escape of one character inside a JSON string *)
Definition escape_char (c : ascii) : string :=
  let n := nat_of_ascii c in
  if (n =? 34)%nat then String "\" (String c EmptyString)
  else if (n =? 92)%nat then String "\" (String "\" EmptyString)
  else if (n =? 8)%nat then "\b"
  else if (n =? 9)%nat then "\t"
  else if (n =? 10)%nat then "\n"
  else if (n =? 12)%nat then "\f"
  else if (n =? 13)%nat then "\r"
  else if (n <? 32)%nat then
    "\u00" +:+ String (hex_digit (n / 16)) (String (hex_digit (n mod 16)) EmptyString)
  else String c EmptyString.

Fixpoint escape (s : string) : string :=
  match s with
  | EmptyString => EmptyString
  | String c s' => escape_char c +:+ escape s'
  end.

Definition dquote : string := String (ascii_of_nat 34) EmptyString.

Definition quote (s : string) : string := dquote +:+ escape s +:+ dquote.

(** [parts.join(sep)] *)
Fixpoint join (sep : string) (parts : list string) : string :=
  match parts with
  | [] => EmptyString
  | [p] => p
  | p :: ps => p +:+ sep +:+ join sep ps
  end.

Section Traversals.
Context {A : Type}.
Variable f : A -> thrown + string.

(** the texts of the elements of an array, or the first exception *)
Fixpoint elements (l : list A) : thrown + list string :=
  match l with
  | [] => inr []
  | x :: l' =>
      match f x with
      | inl e => inl e
      | inr sx =>
          match elements l' with
          | inl e => inl e
          | inr sl => inr (sx :: sl)
          end
      end
  end.

Variable is_undefined : A -> bool.

(** the [key:text] members of an object; a property that holds
    [undefined] is left out *)
Fixpoint members (l : list (string * A)) : thrown + list string :=
  match l with
  | [] => inr []
  | (k, x) :: l' =>
      if is_undefined x then members l'
      else
        match f x with
        | inl e => inl e
        | inr sx =>
            match members l' with
            | inl e => inl e
            | inr sl => inr ((quote k +:+ ":" +:+ sx) :: sl)
            end
        end
  end.

End Traversals.

Definition is_undefined (v : value) : bool :=
  match v with
  | VUndefined => true
  | _ => false
  end.

(** [JSON.stringify(v)] for a value that is not [undefined] at the top:
    [undefined] inside an array becomes [null], and a bigint anywhere
    throws a [TypeError] *)
Fixpoint JSON_stringify (v : value) : thrown + string :=
  match v with
  | VUndefined => inr "null"
  | VNull => inr "null"
  | VBool b => inr (if b then "true" else "false")
  | VNumber n => inr (string_of_Z n)
  | VDouble literal => inr literal
  | VBigInt _ => inl (ErrorObj "JSON.stringify cannot serialize BigInt.")
  | VString s => inr (quote s)
  | VArray items =>
      match elements JSON_stringify items with
      | inl e => inl e
      | inr parts => inr ("[" +:+ join "," parts +:+ "]")
      end
  | VObject fields =>
      match members JSON_stringify is_undefined fields with
      | inl e => inl e
      | inr parts => inr ("{" +:+ join "," parts +:+ "}")
      end
  end.

(** no bigint anywhere inside: what [JSON.stringify] can serialize *)
Fixpoint serializable (v : value) : bool :=
  match v with
  | VBigInt _ => false
  | VArray items => forallb serializable items
  | VObject fields => forallb (fun kv => serializable (snd kv)) fields
  | _ => true
  end.

End Json.

(** ** The range batcher ([utils/seeder.ts]) *)

Module Seeder.

(** what the loop keeps between iterations *)
Record loop_state : Type := mkLoop {
  currentBlock : Z;
  nextBlock : Z;
  processedBlocks : Z;
  batchCount : Z
}.

(** what a run leaves behind: the return value, the world after the
    callbacks, the ranges the callback was invoked with (in order), and
    the progress counter *)
Record run (W : Type) : Type := mkRun {
  returned : Z;
  world : W;
  ranges : list (Z * Z);
  processed : Z
}.
Arguments mkRun {W}.
Arguments returned {W}.
Arguments world {W}.
Arguments ranges {W}.
Arguments processed {W}.

Section Batcher.
Context {W : Type}.

(** the callback: it changes the world and may throw *)
Variable cb : Z -> Z -> W -> (Js.thrown + unit) * W.

(** [defaultBatchSize ? defaultBatchSize : 1000n]: an absent size and
    [0n] are both falsy *)
Definition batchSizeOf (defaultBatchSize : option Z) : Z :=
  match defaultBatchSize with
  | Some b => if b =? 0 then 1000 else b
  | None => 1000
  end.

(** [while (nextBlock < lastBlock) { ... }] *)
Fixpoint while_loop (fuel : nat) (lastBlock batchSize : Z)
    (st : loop_state) (w : W) : option (loop_state * W * list (Z * Z)) :=
  if nextBlock st <? lastBlock then
    match fuel with
    | O => None
    | S fuel' =>
        let next := currentBlock st + batchSize in
        let next := if next >=? lastBlock then lastBlock else next in
        let '(r, w') := cb (currentBlock st) next w in
        let done :=
          match r with
          | inr _ => processedBlocks st + (next - currentBlock st + 1)
          | inl _ => processedBlocks st   (* caught and logged *)
          end in
        let st' := mkLoop (next + 1) next done (batchCount st + 1) in
        match while_loop fuel' lastBlock batchSize st' w' with
        | Some (st'', w'', rs) => Some (st'', w'', (currentBlock st, next) :: rs)
        | None => None
        end
    end
  else Some (st, w, []).

Definition loopThroughBlocks (fuel : nat) (firstBlock lastBlock : Z)
    (defaultBatchSize : option Z) (w : W) : option (run W) :=
  let batchSize := batchSizeOf defaultBatchSize in
  match while_loop fuel lastBlock batchSize
          (mkLoop firstBlock firstBlock 0 0) w with
  | Some (st, w', rs) => Some (mkRun lastBlock w' rs (processedBlocks st))
  | None => None
  end.

End Batcher.

(** *** What it means to tile an interval *)

(** [chain a b rs]: the ranges of [rs] are non-empty, the first starts at
    [a], each next one starts right after the previous one ends, and the
    last ends at [b] *)
Fixpoint chain (a b : Z) (rs : list (Z * Z)) : Prop :=
  match rs with
  | [] => a = b + 1
  | (f, t) :: rs' => f = a /\ f <= t /\ t <= b /\ chain (t + 1) b rs'
  end.

Definition inside (x : Z) (r : Z * Z) : bool :=
  (fst r <=? x) && (x <=? snd r).

(** in how many of the ranges the block [x] lies *)
Definition hits (x : Z) (rs : list (Z * Z)) : nat :=
  List.length (List.filter (inside x) rs).

(** every block of [[a, b]] lies in exactly one range, every other block
    in none *)
Definition tiles (a b : Z) (rs : list (Z * Z)) : Prop :=
  forall x, hits x rs = if (a <=? x) && (x <=? b) then 1%nat else 0%nat.

(** the inclusive length [to - from + 1] of a range *)
Definition range_length (r : Z * Z) : Z := snd r - fst r + 1.

(** a callback that does nothing, for running the batcher on its own *)
Definition idle (_ _ : Z) (w : unit) : (Js.thrown + unit) * unit := (inr tt, w).

End Seeder.

(** ** The logger ([utils/logger.ts]): counters and the calls made *)

Module Logger.

(** one [LogStats] entry; [lastUpdate] is wall-clock time and is left out *)
Record LogStats : Type := mkStats {
  duplicates : Z;
  processed : Z;
  errors : Z
}.

Inductive StatType : Type := duplicate | processedStat | errorStat.

(** what the program tells the logger, one constructor per call site, with
    the values its message interpolates; and, in the same journal, the
    fetches and the sleeps of the driver *)
Inductive event : Type :=
| DuplicateSkipped (transactionHash : option string)        (* throttled, debug *)
| SavedEvent (transactionHash : option string) (eventName : string)   (* debug *)
| SaveFailed (errorMessage : string)                        (* throttled, error *)
| ProcessLogFailed (errorMessage : string)                  (* throttled, error *)
| InvalidLogReported (errorMessage : string)                (* console.error *)
| BatchSummary (batchId : string)                           (* info *)
| RateLimitRetry (delay retryCount maxRetries : Z)          (* warn *)
| SingleBlockSkipped (block : Z)                            (* warn *)
| SplittingRange (fromBlock toBlock : Z)                    (* info *)
| GaveUp (maxRetries : Z) (errorMessage : string)           (* error *)
| RetryAfterError (retryCount maxRetries : Z) (errorMessage : string) (* warn *)
| Fetched (contractAddress eventName : string) (fromBlock toBlock : Z)
| Slept (ms : Z).

Record logger : Type := mkLogger {
  stats : gmap string LogStats;
  journal : list event
}.

Definition fresh : logger := mkLogger ∅ [].

(** [trackStat(key, type)] *)
Definition trackStat (key : string) (type : StatType) (l : logger) : logger :=
  let stat := default (mkStats 0 0 0) (stats l !! key) in
  let stat' :=
    match type with
    | duplicate => mkStats (duplicates stat + 1) (processed stat) (errors stat)
    | processedStat => mkStats (duplicates stat) (processed stat + 1) (errors stat)
    | errorStat => mkStats (duplicates stat) (processed stat) (errors stat + 1)
    end in
  mkLogger (<[key := stat']> (stats l)) (journal l).

Definition record (e : event) (l : logger) : logger :=
  mkLogger (stats l) (journal l ++ [e]).

(** [getStats(key, true)] followed by the summary line of
    [logBatchSummary]: nothing is said when the key has no entry *)
Definition logBatchSummary (batchId : string) (l : logger) : logger :=
  match stats l !! batchId with
  | Some _ => mkLogger (delete batchId (stats l)) (journal l ++ [BatchSummary batchId])
  | None => l
  end.

(** [reset()] *)
Definition reset (l : logger) : logger := mkLogger ∅ (journal l).

(** the counter of one kind under one key, [0] when the key is absent *)
Definition count (key : string) (type : StatType) (l : logger) : Z :=
  let stat := default (mkStats 0 0 0) (stats l !! key) in
  match type with
  | duplicate => duplicates stat
  | processedStat => processed stat
  | errorStat => errors stat
  end.

End Logger.

(** ** The storage engine, as far as the event store uses it *)

Module Sqlite.
Import Js Json.

(** a stored cell. The code binds text, numbers, booleans, bigints and
    [null] only, so no blob is ever stored. [SReal] is a floating-point
    cell, named by the decimal literal it was converted from. *)
Inductive sqlval : Type :=
| SNull
| SInteger (n : Z)
| SReal (literal : string)
| SText (s : string).

Inductive affinity : Type := AffText | AffNumeric | AffInteger | AffReal | AffBlob.

(** the affinity of a declared column type, by the engine's substring rules *)
Definition affinity_of (decl : string) : affinity :=
  if includes decl "INT" then AffInteger
  else if includes decl "CHAR" || includes decl "CLOB" || includes decl "TEXT" then AffText
  else if includes decl "BLOB" || String.eqb decl "" then AffBlob
  else if includes decl "REAL" || includes decl "FLOA" || includes decl "DOUB" then AffReal
  else AffNumeric.

(** a text that is an integer literal: an optional sign and digits, nothing
    else. (Texts with a fraction or an exponent are numeric to the engine
    too; the code stores none in a numeric column.) *)
Definition integer_literal (s : string) : option Z :=
  let '(neg, body) :=
    match s with
    | String "-" r => (true, r)
    | String "+" r => (false, r)
    | _ => (false, s)
    end in
  if starts_with_digit body then
    match digits 0 body with
    | (n, EmptyString) => Some (if neg then - n else n)
    | _ => None
    end
  else None.

Definition int64_min : Z := - 2 ^ 63.
Definition int64_max : Z := 2 ^ 63 - 1.
Definition fits_int64 (n : Z) : bool := (int64_min <=? n) && (n <=? int64_max).

(** what a column of the given affinity makes of a value stored into it *)
Definition apply_affinity (a : affinity) (v : sqlval) : sqlval :=
  match a, v with
  | AffText, SInteger n => SText (string_of_Z n)
  | AffText, SReal literal => SText literal
  | (AffInteger | AffNumeric), SText s =>
      match integer_literal s with
      | Some n => if fits_int64 n then SInteger n else SReal s
      | None => v
      end
  | AffReal, SText s =>
      match integer_literal s with
      | Some _ => SReal s
      | None => v
      end
  | AffReal, SInteger n => SReal (string_of_Z n)
  | _, _ => v
  end.

(** binding a JavaScript value to a [?] of a statement. (A bigint beyond
    64 bits is refused here; a driver that wraps it to 64 bits instead
    stores another number.) *)
Definition bind (v : value) : thrown + sqlval :=
  match v with
  | VUndefined | VNull => inr SNull
  | VBool b => inr (SInteger (if b then 1 else 0))
  | VNumber n => inr (SInteger n)
  | VDouble literal => inr (SReal literal)
  | VBigInt n =>
      if fits_int64 n then inr (SInteger n)
      else inl (ErrorObj "BigInt value is out of range")
  | VString s => inr (SText s)
  | VArray _ | VObject _ =>
      inl (ErrorObj "Binding expected string, TypedArray, boolean, number, bigint or null")
  end.

Fixpoint bind_all (vs : list value) : thrown + list sqlval :=
  match vs with
  | [] => inr []
  | v :: vs' =>
      match bind v with
      | inl e => inl e
      | inr b =>
          match bind_all vs' with
          | inl e => inl e
          | inr bs => inr (b :: bs)
          end
      end
  end.

(** a cell as the driver hands it back to JavaScript *)
Definition to_js (v : sqlval) : value :=
  match v with
  | SNull => VNull
  | SInteger n => VNumber n
  | SReal literal => VDouble literal
  | SText s => VString s
  end.

Inductive column_default : Type := NoDefault | AutoIncrement | CurrentTimestamp.

Record column : Type := mkColumn {
  col_name : string;
  col_type : string;
  col_notnull : bool;
  col_default : column_default
}.

Record index : Type := mkIndex {
  idx_name : string;
  idx_columns : list string;
  idx_unique : bool
}.

(** a row: one cell per column, by column name, in column order *)
Definition row : Type := list (string * sqlval).

Record table : Type := mkTable {
  tbl_columns : list column;
  tbl_indexes : list index;
  tbl_rows : list row;
  tbl_next_id : Z
}.

(** the open database: its tables by name, and the text the engine's
    [CURRENT_TIMESTAMP] yields *)
Record database : Type := mkDatabase {
  tables : gmap string table;
  current_timestamp : string
}.

Definition empty (now : string) : database := mkDatabase ∅ now.

(** the cell of a row under a column name *)
Fixpoint cell (name : string) (r : row) : option sqlval :=
  match r with
  | [] => None
  | (k, v) :: r' => if String.eqb k name then Some v else cell name r'
  end.

Definition find_column (name : string) (t : table) : option column :=
  List.find (fun c => String.eqb (col_name c) name) (tbl_columns t).

(** the comparison [a = b] of a [WHERE] clause: never true on [NULL] *)
Definition sql_eq (a b : sqlval) : bool :=
  match a, b with
  | SInteger x, SInteger y => x =? y
  | SText x, SText y => String.eqb x y
  | SReal x, SReal y => String.eqb x y
  | _, _ => false
  end.

(** does the row satisfy [column = ?] for each of the conditions *)
Definition matches (t : table) (conds : list (string * sqlval)) (r : row) : bool :=
  forallb (fun kv =>
    match find_column (fst kv) t, cell (fst kv) r with
    | Some c, Some v => sql_eq v (apply_affinity (affinity_of (col_type c)) (snd kv))
    | _, _ => false
    end) conds.

(** is the name, byte for byte, the name of a column. (The engine itself
    ignores the case of a name and knows [rowid]; what it accepts beyond the
    columns' own spelling is not modelled.) *)
Definition has_column (t : table) (name : string) : bool :=
  match find_column name t with Some _ => true | None => false end.

(** [SELECT ... FROM t WHERE k1 = ? AND ...]: preparing the statement
    fails when a name is not a column of the table *)
Definition select_where (t : table) (conds : list (string * sqlval)) : thrown + list row :=
  match List.find (fun kv => negb (has_column t (fst kv))) conds with
  | Some kv => inl (ErrorObj ("no such column: " +:+ fst kv))
  | None => inr (List.filter (matches t conds) (tbl_rows t))
  end.

(** the order of [ORDER BY]: [NULL] first, then numbers, then text by bytes *)
Definition sql_rank (v : sqlval) : Z :=
  match v with
  | SNull => 0
  | SInteger _ | SReal _ => 1
  | SText _ => 2
  end.

Definition numeric_value (v : sqlval) : Z :=
  match v with
  | SInteger n => n
  | SReal literal => default 0 (integer_literal literal)
  | _ => 0
  end.

Definition sql_leb (a b : sqlval) : bool :=
  if sql_rank a <? sql_rank b then true
  else if sql_rank b <? sql_rank a then false
  else match a, b with
       | SText x, SText y => String.leb x y
       | _, _ => numeric_value a <=? numeric_value b
       end.

Inductive direction : Type := ASC | DESC.

Definition row_leb (by_column : string) (dir : direction) (r1 r2 : row) : bool :=
  let k1 := default SNull (cell by_column r1) in
  let k2 := default SNull (cell by_column r2) in
  match dir with
  | ASC => sql_leb k1 k2
  | DESC => sql_leb k2 k1
  end.

Fixpoint insert_sorted (leb : row -> row -> bool) (r : row) (l : list row) : list row :=
  match l with
  | [] => [r]
  | r' :: l' => if leb r r' then r :: l else r' :: insert_sorted leb r l'
  end.

(** [ORDER BY column direction], as a stable insertion sort. (Rows that
    compare equal keep the order of the table here; the engine promises no
    order among them.) *)
Definition order_by (by_column : string) (dir : direction) (l : list row) : list row :=
  List.fold_right (insert_sorted (row_leb by_column dir)) [] l.

(** [LIMIT ? OFFSET ?]: a negative limit is no limit, a negative offset none *)
Definition limit_offset (limit offset : Z) (l : list row) : list row :=
  let l := drop (Z.to_nat offset) l in
  if limit <? 0 then l else take (Z.to_nat limit) l.

(** the row an [INSERT INTO t (names) VALUES (?...)] builds: a named column
    takes the bound value under the column's affinity, any other column
    its default *)
Definition new_cell (now : string) (next_id : Z) (given : list (string * sqlval))
    (c : column) : string * sqlval :=
  (col_name c,
   match cell (col_name c) given with
   | Some v => apply_affinity (affinity_of (col_type c)) v
   | None =>
       match col_default c with
       | AutoIncrement => SInteger next_id
       | CurrentTimestamp => SText now
       | NoDefault => SNull
       end
   end).

Definition is_null (v : sqlval) : bool :=
  match v with SNull => true | _ => false end.

Definition violates_notnull (t : table) (r : row) : option column :=
  List.find (fun c => col_notnull c && is_null (default SNull (cell (col_name c) r)))
    (tbl_columns t).

(** two rows agree on every column of the index, none of them [NULL] *)
Definition same_key (columns : list string) (r1 r2 : row) : bool :=
  forallb (fun name =>
    match cell name r1, cell name r2 with
    | Some a, Some b => sql_eq a b
    | _, _ => false
    end) columns.

Definition violates_unique (t : table) (r : row) : option index :=
  List.find (fun i => idx_unique i && existsb (same_key (idx_columns i) r) (tbl_rows t))
    (tbl_indexes t).

(** the message of a violated unique index: its columns, each with the
    table's name *)
Definition unique_failed (tableName : string) (i : index) : string :=
  "UNIQUE constraint failed: "
  +:+ join ", " (List.map (fun name => tableName +:+ "." +:+ name) (idx_columns i)).

(** [db.prepare(INSERT ...).run(...values)] *)
Definition insert_into (tableName : string) (names : list string)
    (values : list value) (d : database) : thrown + database :=
  match tables d !! tableName with
  | None => inl (ErrorObj ("no such table: " +:+ tableName))
  | Some t =>
      match List.find (fun n => negb (has_column t n)) names with
      | Some n => inl (ErrorObj ("table " +:+ tableName +:+ " has no column named " +:+ n))
      | None =>
          match bind_all values with
          | inl e => inl e
          | inr bound =>
              let r := List.map (new_cell (current_timestamp d) (tbl_next_id t)
                                   (combine names bound)) (tbl_columns t) in
              match violates_notnull t r with
              | Some c =>
                  inl (ErrorObj ("NOT NULL constraint failed: " +:+ tableName +:+ "."
                                 +:+ col_name c))
              | None =>
                  match violates_unique t r with
                  | Some i => inl (ErrorObj (unique_failed tableName i))
                  | None =>
                      let t' := mkTable (tbl_columns t) (tbl_indexes t)
                                  (tbl_rows t ++ [r]) (tbl_next_id t + 1) in
                      inr (mkDatabase (<[tableName := t']> (tables d)) (current_timestamp d))
                  end
              end
          end
      end
  end.

(** [CREATE TABLE IF NOT EXISTS name (columns)] *)
Definition create_table (tableName : string) (columns : list column) (d : database) : database :=
  match tables d !! tableName with
  | Some _ => d
  | None => mkDatabase (<[tableName := mkTable columns [] [] 1]> (tables d))
              (current_timestamp d)
  end.

Definition has_index (t : table) (name : string) : bool :=
  existsb (fun i => String.eqb (idx_name i) name) (tbl_indexes t).

Fixpoint has_duplicate_key (columns : list string) (rows : list row) : bool :=
  match rows with
  | [] => false
  | r :: rows' => existsb (same_key columns r) rows' || has_duplicate_key columns rows'
  end.

(** [CREATE [UNIQUE] INDEX IF NOT EXISTS name ON table (columns)] *)
Definition create_index (tableName : string) (i : index) (d : database) : thrown + database :=
  match tables d !! tableName with
  | None => inl (ErrorObj ("no such table: main." +:+ tableName))
  | Some t =>
      if has_index t (idx_name i) then inr d
      else
        match List.find (fun n => negb (has_column t n)) (idx_columns i) with
        | Some n => inl (ErrorObj ("no such column: " +:+ n))
        | None =>
            if idx_unique i && has_duplicate_key (idx_columns i) (tbl_rows t)
            then inl (ErrorObj (unique_failed tableName i))
            else
              let t' := mkTable (tbl_columns t) (tbl_indexes t ++ [i])
                          (tbl_rows t) (tbl_next_id t) in
              inr (mkDatabase (<[tableName := t']> (tables d)) (current_timestamp d))
        end
  end.

End Sqlite.

(** ** The event store ([utils/dbClient.ts]) *)

Module DbClient.
Import Js Json Logger Sqlite.

(** one input of an event's ABI *)
Record AbiParameter : Type := mkParam {
  param_type : string;
  indexed : bool
}.

(** a parsed ABI item; [abi_type] is ['event'] for the items the store
    makes tables for *)
Record AbiItem : Type := mkAbi {
  abi_type : string;
  abi_name : string;
  abi_inputs : list AbiParameter
}.

(** a log as the chain client delivers it; a field that is absent reads as
    [undefined] *)
Record Log : Type := mkLog {
  address : option string;
  transactionHash : option string;
  blockNumber : option Z;
  logIndex : option Z;
  args : list value
}.

(** the module's mutable surroundings: the database handle and the logger *)
Record env : Type := mkEnv {
  db : database;
  logger : Logger.logger
}.

Definition tableNameOf (eventName : string) : string :=
  "event_" +:+ toLowerCase eventName.

(** *** [getSqlTypeFromEthType] *)

Definition getSqlTypeFromEthType (ethType : string) : string :=
  if startsWith ethType "uint" || startsWith ethType "int" then
    if includes ethType "256" || includes ethType "128" then "TEXT"
    else "INTEGER"
  else if String.eqb ethType "address" then "TEXT"
  else if String.eqb ethType "bool" then "BOOLEAN"
  else if startsWith ethType "bytes" then "BLOB"
  else if String.eqb ethType "string" then "TEXT"
  else if includes ethType "[]" then "TEXT"
  else "TEXT".

(** the type tag of an integer input: [uintN] or [intN] *)
Definition int_type (signed : bool) (width : Z) : string :=
  (if signed then "int" else "uint") +:+ string_of_Z width.

(** the bit-widths an integer type can have: 8, 16, ..., 256 *)
Definition int_widths : list Z := List.map (fun k => 8 * Z.of_nat k) (seq 1 32).

(** *** [formatValueForSql] *)

Definition formatValueForSql (v : value) : thrown + value :=
  match v with
  | VNull | VUndefined => inr VNull
  | VArray _ | VObject _ =>
      match JSON_stringify v with
      | inl e => inl e
      | inr text => inr (VString text)
      end
  | VBigInt n => inr (VString (string_of_Z n))
  | _ => inr v
  end.

(** *** [generateDatabaseSchemas] *)

(** the statements built for one event, kept in parsed form: the table
    with its columns, and the three indexes *)
Record schema : Type := mkSchema {
  sch_table : string;
  sch_columns : list column;
  sch_indexes : list index
}.

Definition fixed_columns : list column :=
  [ mkColumn "id" "INTEGER" false AutoIncrement;
    mkColumn "contract_address" "TEXT" true NoDefault;
    mkColumn "transaction_hash" "TEXT" true NoDefault;
    mkColumn "block_number" "INTEGER" true NoDefault;
    mkColumn "log_index" "INTEGER" true NoDefault;
    mkColumn "timestamp" "DATETIME" false CurrentTimestamp ].

(** [`param_${i}_${input.type}`]. (The name is kept as the code writes it
    into its statements; for an array type, whose tag ends in brackets, the
    engine does not read the brackets as part of the column's name.) *)
Definition columnName (i : nat) (input : AbiParameter) : string :=
  "param_" +:+ string_of_Z (Z.of_nat i) +:+ "_" +:+ param_type input.

Fixpoint param_columns (i : nat) (inputs : list AbiParameter) : list column :=
  match inputs with
  | [] => []
  | input :: rest =>
      mkColumn (columnName i input) (getSqlTypeFromEthType (param_type input))
        false NoDefault
      :: param_columns (S i) rest
  end.

Definition schema_of (abi : AbiItem) : schema :=
  let tableName := tableNameOf (abi_name abi) in
  mkSchema tableName
    (fixed_columns ++ param_columns 0 (abi_inputs abi))
    [ mkIndex ("idx_" +:+ tableName +:+ "_contract") ["contract_address"] false;
      mkIndex ("idx_" +:+ tableName +:+ "_block") ["block_number"] false;
      mkIndex ("idx_" +:+ tableName +:+ "_unique") ["transaction_hash"; "log_index"] true ].

(** [db.exec(schema)]: the statements run one after the other, and what
    ran before a failing one stays *)
Fixpoint create_indexes (tableName : string) (l : list index) (d : database)
    : option thrown * database :=
  match l with
  | [] => (None, d)
  | i :: l' =>
      match create_index tableName i d with
      | inl e => (Some e, d)
      | inr d' => create_indexes tableName l' d'
      end
  end.

Definition exec_schema (s : schema) (d : database) : option thrown * database :=
  create_indexes (sch_table s) (sch_indexes s)
    (create_table (sch_table s) (sch_columns s) d).

Definition generateDatabaseSchemas (abis : list AbiItem) (e : env) : list schema * env :=
  let tableSchemas :=
    List.map schema_of (List.filter (fun abi => String.eqb (abi_type abi) "event") abis) in
  let d := List.fold_left (fun d s => snd (exec_schema s d)) tableSchemas (db e) in
  (tableSchemas, mkEnv d (logger e)).

(** *** [saveLogToDatabase] *)

Definition js_string (o : option string) : value :=
  match o with
  | Some s => VString s
  | None => VUndefined
  end.

(** [log.logIndex || 0] *)
Definition logIndex_or_0 (l : Log) : Z :=
  match logIndex l with
  | Some n => n
  | None => 0
  end.

(** [logArgsArray[index]] *)
Definition arg_at (logArgsArray : list value) (index : option Z) : value :=
  match index with
  | Some i => if i <? 0 then VUndefined
              else default VUndefined (logArgsArray !! Z.to_nat i)
  | None => VUndefined
  end.

(** the value pushed for one insertable column *)
Definition value_for (l : Log) (column : string) : thrown + value :=
  if String.eqb column "contract_address" then inr (js_string (address l))
  else if String.eqb column "transaction_hash" then inr (js_string (transactionHash l))
  else if String.eqb column "block_number" then
    inr (match blockNumber l with Some n => VBigInt n | None => VUndefined end)
  else if String.eqb column "log_index" then inr (VNumber (logIndex_or_0 l))
  else if startsWith column "param_" then
    let parts := split "_" (substring_from 6 column) in
    let index := parseInt (fst parts) in
    match arg_at (args l) index with
    | VUndefined => inr VNull
    | arg => formatValueForSql arg
    end
  else inr VNull.

Fixpoint values_for (l : Log) (columns : list string) : thrown + list value :=
  match columns with
  | [] => inr []
  | c :: columns' =>
      match value_for l c with
      | inl e => inl e
      | inr v =>
          match values_for l columns' with
          | inl e => inl e
          | inr vs => inr (v :: vs)
          end
      end
  end.

Definition insertable (column : string) : bool :=
  negb (String.eqb column "id") && negb (String.eqb column "timestamp").

(** the parameters of the duplicate check *)
Definition duplicate_key (l : Log) : list (string * sqlval) :=
  [ ("transaction_hash",
     match transactionHash l with Some h => SText h | None => SNull end);
    ("log_index", SInteger (logIndex_or_0 l)) ].

(** the body of the [try] block *)
Definition saveLogToDatabase_try (l : Log) (eventName : string) (e : env) : thrown + env :=
  let tableName := tableNameOf eventName in
  match tables (db e) !! tableName with
  | None => inr e
  | Some t =>
      match select_where t (duplicate_key l) with
      | inl err => inl err
      | inr (_ :: _) =>
          inr (mkEnv (db e)
                 (record (DuplicateSkipped (option_map (slice0 10) (transactionHash l)))
                    (trackStat "current_batch" duplicate (logger e))))
      | inr [] =>
          let columns := List.map col_name (tbl_columns t) in
          let insertableColumns := List.filter insertable columns in
          match values_for l insertableColumns with
          | inl err => inl err
          | inr values =>
              match insert_into tableName insertableColumns values (db e) with
              | inl err => inl err
              | inr d' =>
                  inr (mkEnv d'
                         (record (SavedEvent (option_map (slice0 10) (transactionHash l))
                                    eventName)
                            (trackStat "current_batch" processedStat (logger e))))
              end
          end
      end
  end.

Definition saveLogToDatabase (l : Log) (eventName : string) (e : env) : env :=
  match saveLogToDatabase_try l eventName e with
  | inr e' => e'
  | inl err =>
      mkEnv (db e)
        (record (SaveFailed (message_of err))
           (trackStat "current_batch" errorStat (logger e)))
  end.

(** *** [getLogsFromDatabase] *)

Record options : Type := mkOptions {
  filters : option (list (string * value));
  limit : option Z;
  offset : option Z;
  orderBy : option string;
  orderDirection : option direction
}.

Definition no_options : options := mkOptions None None None None None.

Section Query.

(** [JSON.parse], with [None] for a [SyntaxError] *)
Variable JSON_parse : string -> option value.

Fixpoint format_filters (l : list (string * value)) : thrown + list (string * value) :=
  match l with
  | [] => inr []
  | (key, v) :: l' =>
      match formatValueForSql v with
      | inl e => inl e
      | inr v' =>
          match format_filters l' with
          | inl e => inl e
          | inr r => inr ((key, v') :: r)
          end
      end
  end.

(** the pass over one result row that parses the texts which look like JSON *)
Definition parse_cell (kv : string * sqlval) : string * value :=
  (fst kv,
   match to_js (snd kv) with
   | VString text =>
       if startsWith text "[" || startsWith text "{" then
         match JSON_parse text with
         | Some parsed => parsed
         | None => VString text
         end
       else VString text
   | v => v
   end).

Definition parse_row (r : row) : list (string * value) := List.map parse_cell r.

(** the body of the [try] block *)
Definition getLogsFromDatabase_try (eventName : string) (o : options) (e : env)
    : thrown + list (list (string * value)) :=
  let tableName := tableNameOf eventName in
  let filters := default [] (filters o) in
  let limit := default 100 (limit o) in
  let offset := default 0 (offset o) in
  let orderBy := default "timestamp" (orderBy o) in
  let orderDirection := default DESC (orderDirection o) in
  match tables (db e) !! tableName with
  | None => inr []
  | Some t =>
      match format_filters filters with
      | inl err => inl err
      | inr filterValues =>
          match List.find (fun n => negb (has_column t n))
                  (List.map fst filterValues ++ [orderBy]) with
          | Some n => inl (ErrorObj ("no such column: " +:+ n))   (* db.prepare *)
          | None =>
              match bind_all (List.map snd filterValues) with     (* stmt.all *)
              | inl err => inl err
              | inr bound =>
                  match select_where t (combine (List.map fst filterValues) bound) with
                  | inl err => inl err
                  | inr rows =>
                      inr (List.map parse_row
                             (limit_offset limit offset
                                (order_by orderBy orderDirection rows)))
                  end
              end
          end
      end
  end.

(** the whole function: an outcome on the left would be an exception that
    escapes to the caller *)
Definition getLogsFromDatabase (eventName : string) (o : options) (e : env)
    : thrown + list (list (string * value)) :=
  match getLogsFromDatabase_try eventName o e with
  | inr rows => inr rows
  | inl _ => inr []
  end.

End Query.

(** *** Vocabulary for the properties *)

(** an argument [formatValueForSql] can format: an array or an object must
    be serializable, anything else is *)
Definition formattable (v : value) : bool :=
  match v with
  | VArray _ | VObject _ => serializable v
  | _ => true
  end.

(** a log with all its fields, a block number the engine can hold, and
    arguments that can be formatted *)
Definition well_formed (l : Log) : bool :=
  match address l, transactionHash l, blockNumber l with
  | Some _, Some _, Some n => fits_int64 n && forallb formattable (args l)
  | _, _, _ => false
  end.

(** a value the engine accepts as a statement parameter *)
Definition bindable (v : value) : Prop := exists b, bind v = inr b.

(** the rows of a table stored under the log's
    [(transaction_hash, log_index)] *)
Definition stored_rows (t : table) (l : Log) : list row :=
  List.filter (matches t (duplicate_key l)) (tbl_rows t).

(** the table of an event in the store, if it exists *)
Definition table_of (eventName : string) (e : env) : option table :=
  tables (db e) !! tableNameOf eventName.

(** [Transfer(address,address,uint256)] and one of its logs, moving
    10^18 units *)
Definition transfer_event : AbiItem :=
  mkAbi "event" "Transfer"
    [mkParam "address" true; mkParam "address" true; mkParam "uint256" false].

Definition transfer_log : Log :=
  mkLog (Some "0x6b175474e89094c44da98b954eedeac495271d0f")
    (Some "0x8a1c5f0d2f6b0c7e35d0a4c6f1c2b7a9e4d3c2b1a0f9e8d7c6b5a4f3e2d1c0b9")
    (Some 100) (Some 0)
    [ VString "0x1111111111111111111111111111111111111111";
      VString "0x2222222222222222222222222222222222222222";
      VBigInt 1000000000000000000 ].


(** a fresh store in which the tables of the given events were created *)
Definition synthesized (abis : list AbiItem) (now : string) : env :=
  snd (generateDatabaseSchemas abis (mkEnv (Sqlite.empty now) Logger.fresh)).

End DbClient.

(** ** The backfill driver ([logs.ts]) *)

Module Logs.
Import Js Json Logger Sqlite DbClient.

(** the driver's surroundings: the chain client's state next to the store *)
Record world (C : Type) : Type := mkWorld {
  chain : C;
  env_of : env
}.
Arguments mkWorld {C}.
Arguments chain {C}.
Arguments env_of {C}.

(** one more entry in the journal *)
Definition note {C : Type} (ev : event) (w : world C) : world C :=
  mkWorld (chain w) (mkEnv (db (env_of w)) (record ev (logger (env_of w)))).

Definition journal_of {C : Type} (w : world C) : list event :=
  journal (logger (env_of w)).

(** the two tests [processContractEventRange] makes on an error message *)
Definition is_rate_limit (errorMessage : string) : bool :=
  includes errorMessage "rate limit" || includes errorMessage "429".

Definition is_too_many_logs (errorMessage : string) : bool :=
  includes errorMessage "Log response size exceeded"
  || includes errorMessage "too many logs".

(** [!log.transactionHash] and [!log.blockNumber] *)
Definition missing_string (o : option string) : bool :=
  match o with
  | Some s => String.eqb s ""
  | None => true
  end.

Definition missing_bigint (o : option Z) : bool :=
  match o with
  | Some n => n =? 0
  | None => true
  end.

(** the log as the object [JSON.stringify] is handed in the error report *)
Definition log_object (l : Log) : value :=
  VObject
    [ ("address", js_string (address l));
      ("transactionHash", js_string (transactionHash l));
      ("blockNumber", match blockNumber l with Some n => VBigInt n | None => VUndefined end);
      ("logIndex", match logIndex l with Some n => VNumber n | None => VUndefined end);
      ("args", VArray (args l)) ].

(** [processEventLog]: on the left what it throws *)
Definition processEventLog (l : Log) (abi : AbiItem) (e : env) : (thrown + bool) * env :=
  if missing_string (transactionHash l) || missing_bigint (blockNumber l) then
    let error := ErrorObj "Invalid log structure: missing required fields" in
    let e1 := mkEnv (db e) (record (InvalidLogReported (message_of error)) (logger e)) in
    match JSON_stringify (log_object l) with
    | inl typeError => (inl typeError, e1)    (* thrown while reporting *)
    | inr _ => (inl error, e1)                (* [throw error] *)
    end
  else (inr true, saveLogToDatabase l (abi_name abi) e).

(** [for (const log of logs) { try { await processEventLog(log, abi) } catch ... }] *)
Fixpoint process_logs (logs : list Log) (abi : AbiItem) (e : env) : env :=
  match logs with
  | [] => e
  | l :: rest =>
      let '(r, e1) := processEventLog l abi e in
      let e2 :=
        match r with
        | inl error =>
            mkEnv (db e1) (record (ProcessLogFailed (message_of error)) (logger e1))
        | inr _ => e1
        end in
      process_logs rest abi e2
  end.

Definition batchId (batchNumber : Z) (abi : AbiItem) (contractAddress : string) : string :=
  "batch_" +:+ string_of_Z batchNumber +:+ "_" +:+ abi_name abi +:+ "_"
  +:+ slice0 8 contractAddress.

Definition range_text (fromBlock toBlock : Z) : string :=
  string_of_Z fromBlock +:+ "-" +:+ string_of_Z toBlock.

Section Driver.
Context {C : Type}.

(** [viemClient.getLogs], the chain client: it answers with logs or throws,
    and moves on to its next state *)
Variable getLogs : string -> AbiItem -> Z -> Z -> C -> (thrown + list Log) * C.

(** [getContractLogs] *)
Definition getContractLogs (contractAddress : string) (abi : AbiItem)
    (fromBlock toBlock : Z) (c : C) : (thrown + list Log) * C :=
  let '(r, c') :=
    if fromBlock >? toBlock then
      (inl (ErrorObj ("Invalid block range: fromBlock (" +:+ string_of_Z fromBlock
                      +:+ ") > toBlock (" +:+ string_of_Z toBlock +:+ ")")), c)
    else getLogs contractAddress abi fromBlock toBlock c in
  match r with
  | inr logs => (inr logs, c')
  | inl error =>
      let generic :=
        ErrorObj ("Failed to fetch logs for " +:+ abi_name abi +:+ " on contract "
                  +:+ contractAddress +:+ ": " +:+ message_of error) in
      match error with
      | ErrorObj message =>
          if includes message "Log response size exceeded" then
            (inl (ErrorObj ("Too many logs for range " +:+ range_text fromBlock toBlock
                            +:+ ". Try smaller block range.")), c')
          else if includes message "rate limit" then
            (inl (ErrorObj ("Rate limit exceeded for range " +:+ range_text fromBlock toBlock
                            +:+ ". Retrying with delay...")), c')
          else (inl generic, c')
      | NonError => (inl generic, c')
      end
  end.

(** the [catch] block of [processContractEventRange]. [self] stands for the
    function run on a range with a fresh [retryCount], and [again] for the
    next iteration of the loop with the count given. On the left of an
    outcome: an exception that reaches the caller. *)
Definition catch_block
    (self : Z -> Z -> world C -> option ((thrown + unit) * world C))
    (again : Z -> world C -> option ((thrown + unit) * world C))
    (fromBlock toBlock maxRetries retryCount : Z) (error : thrown) (w : world C)
    : option ((thrown + unit) * world C) :=
  let retryCount := retryCount + 1 in
  let errorMessage := message_of error in
  if is_rate_limit errorMessage && (retryCount <=? maxRetries) then
    let delay := 2 ^ retryCount * 1000 in
    again retryCount
      (note (Slept delay) (note (RateLimitRetry delay retryCount maxRetries) w))
  else if is_too_many_logs errorMessage then
    if fromBlock =? toBlock then
      Some (inr tt, note (SingleBlockSkipped fromBlock) w)
    else
      let midBlock := fromBlock + Z.quot (toBlock - fromBlock) 2 in
      match self fromBlock midBlock (note (SplittingRange fromBlock toBlock) w) with
      | None => None
      | Some (inl escaped, w1) => Some (inl escaped, w1)
      | Some (inr _, w1) => self (midBlock + 1) toBlock w1
      end
  else if retryCount >? maxRetries then
    Some (inr tt, note (GaveUp maxRetries errorMessage) w)
  else
    again retryCount
      (note (Slept (1000 * retryCount))
         (note (RetryAfterError retryCount maxRetries errorMessage) w)).

(** the [try] block once the logs are there: store them, then the summary *)
Definition store_logs (contractAddress : string) (abi : AbiItem) (batchNumber : Z)
    (logs : list Log) (w : world C) : world C :=
  let e := process_logs logs abi (env_of w) in
  mkWorld (chain w)
    (mkEnv (db e) (logBatchSummary (batchId batchNumber abi contractAddress) (logger e))).

(** [processContractEventRange], entered with the loop's [retryCount]; the
    function itself starts it at [0] *)
Fixpoint retry_loop (fuel : nat) (contractAddress : string) (abi : AbiItem)
    (batchNumber maxRetries fromBlock toBlock retryCount : Z) (w : world C)
    : option ((thrown + unit) * world C) :=
  match fuel with
  | O => None
  | S fuel' =>
      if retryCount <=? maxRetries then
        let w := note (Fetched contractAddress (abi_name abi) fromBlock toBlock) w in
        let '(r, c') := getContractLogs contractAddress abi fromBlock toBlock (chain w) in
        let w := mkWorld c' (env_of w) in
        match r with
        | inr logs => Some (inr tt, store_logs contractAddress abi batchNumber logs w)
        | inl error =>
            catch_block
              (fun f t => retry_loop fuel' contractAddress abi batchNumber maxRetries f t 0)
              (retry_loop fuel' contractAddress abi batchNumber maxRetries fromBlock toBlock)
              fromBlock toBlock maxRetries retryCount error w
        end
      else Some (inr tt, w)
  end.

Definition processContractEventRange (fuel : nat) (contractAddress : string)
    (abi : AbiItem) (fromBlock toBlock batchNumber maxRetries : Z) (w : world C)
    : option ((thrown + unit) * world C) :=
  retry_loop fuel contractAddress abi batchNumber maxRetries fromBlock toBlock 0 w.

(** the per-batch callback of [processHistoricalEvents]: after the logger
    is reset, every event of every contract in turn, each with the default
    [maxRetries = 3]; an exception of a unit would end the batch *)
Fixpoint for_each_event (fuel : nat) (contractAddress : string) (abis : list AbiItem)
    (fromBlock toBlock batchNumber : Z) (w : world C)
    : option ((thrown + unit) * world C) :=
  match abis with
  | [] => Some (inr tt, w)
  | abi :: rest =>
      match processContractEventRange fuel contractAddress abi fromBlock toBlock
              batchNumber 3 w with
      | None => None
      | Some (inl escaped, w') => Some (inl escaped, w')
      | Some (inr _, w') =>
          for_each_event fuel contractAddress rest fromBlock toBlock batchNumber w'
      end
  end.

Fixpoint for_each_contract (fuel : nat) (contractAddresses : list string)
    (abis : list AbiItem) (fromBlock toBlock batchNumber : Z) (w : world C)
    : option ((thrown + unit) * world C) :=
  match contractAddresses with
  | [] => Some (inr tt, w)
  | contractAddress :: rest =>
      match for_each_event fuel contractAddress abis fromBlock toBlock batchNumber w with
      | None => None
      | Some (inl escaped, w') => Some (inl escaped, w')
      | Some (inr _, w') =>
          for_each_contract fuel rest abis fromBlock toBlock batchNumber w'
      end
  end.

Definition batch_callback (fuel : nat) (contractAddresses : list string)
    (abis : list AbiItem) (fromBlock toBlock batchNumber : Z) (w : world C)
    : option ((thrown + unit) * world C) :=
  for_each_contract fuel contractAddresses abis fromBlock toBlock batchNumber
    (mkWorld (chain w) (mkEnv (db (env_of w)) (Logger.reset (logger (env_of w))))).

End Driver.

(** the two ranges a range is split into *)
Definition split_range (fromBlock toBlock : Z) : (Z * Z) * (Z * Z) :=
  let midBlock := fromBlock + Z.quot (toBlock - fromBlock) 2 in
  ((fromBlock, midBlock), (midBlock + 1, toBlock)).

(** fuel that is enough for a range: every attempt and every split takes one *)
Definition enough (fromBlock toBlock maxRetries retryCount : Z) : nat :=
  (Z.to_nat (toBlock - fromBlock) * (Z.to_nat (maxRetries + 1) + 1)
   + Z.to_nat (maxRetries + 1 - retryCount) + 1)%nat.

(** what the journal says was slept, in order, and how often was fetched *)
Fixpoint sleeps (j : list event) : list Z :=
  match j with
  | [] => []
  | Slept ms :: j' => ms :: sleeps j'
  | _ :: j' => sleeps j'
  end.

Fixpoint fetches (j : list event) : list (Z * Z) :=
  match j with
  | [] => []
  | Fetched _ _ f t :: j' => (f, t) :: fetches j'
  | _ :: j' => fetches j'
  end.

Fixpoint failures (j : list event) : list Z :=
  match j with
  | [] => []
  | GaveUp maxRetries _ :: j' => maxRetries :: failures j'
  | _ :: j' => failures j'
  end.

(** chain clients for running the driver: one that fails every request
    with the same message, and one that replays a script of outcomes *)
Definition always_failing (message : string)
    (_ : string) (_ : AbiItem) (_ _ : Z) (c : unit) : (thrown + list Log) * unit :=
  (inl (ErrorObj message), c).

Definition scripted (_ : string) (_ : AbiItem) (_ _ : Z)
    (c : list (thrown + list Log)) : (thrown + list Log) * list (thrown + list Log) :=
  match c with
  | [] => (inr [], [])
  | outcome :: rest => (outcome, rest)
  end.

(** every fetch of the range fails, with a message that is taken for a rate
    limit and not for too many logs *)
Definition always_rate_limited {C : Type}
    (getLogs : string -> AbiItem -> Z -> Z -> C -> (thrown + list Log) * C)
    (contractAddress : string) (abi : AbiItem) (fromBlock toBlock : Z) : Prop :=
  forall c, exists error c',
    getContractLogs getLogs contractAddress abi fromBlock toBlock c = (inl error, c')
    /\ is_rate_limit (message_of error) = true
    /\ is_too_many_logs (message_of error) = false.

(** a world to start from: the given chain client state and a store with
    the [Transfer] table *)
Definition start {C : Type} (c : C) : world C :=
  mkWorld c (synthesized [transfer_event] "2024-01-01 00:00:00").

Definition dai : string := "0x6b175474e89094c44da98b954eedeac495271d0f".

(** a script with every kind of outcome *)
Definition mixed_script : list (thrown + list Log) :=
  [ inl (ErrorObj "HTTP request failed. Status: 429");
    inl (ErrorObj "query returned too many logs");
    inr [];
    inl (ErrorObj "connection reset");
    inl NonError;
    inr [transfer_log];
    inl (ErrorObj "Log response size exceeded") ].

End Logs.

(** ** The historical backfill ([logs.ts], [processHistoricalEvents]) *)

Module Historical.
Import Js Json Logger Sqlite DbClient Logs.

Section Backfill.
Context {C : Type}.

(** [viemClient.getBlockNumber], and the chain client of the driver *)
Variable getBlockNumber : C -> (thrown + Z) * C.
Variable getLogs : string -> AbiItem -> Z -> Z -> C -> (thrown + list Log) * C.

(** what the batches of a backfill work on: the [batchNumber] of the
    closure next to the world, or [None] once a unit ran out of fuel *)
Definition backfill : Type := option (Z * world C).

(** the callback [processHistoricalEvents] hands to [loopThroughBlocks] *)
Definition on_batch (fuel : nat) (contractAddresses : list string) (abis : list AbiItem)
    (fromBlock toBlock : Z) (s : backfill) : (thrown + unit) * backfill :=
  match s with
  | None => (inr tt, None)
  | Some (batchNumber, w) =>
      let batchNumber := batchNumber + 1 in
      match batch_callback getLogs fuel contractAddresses abis fromBlock toBlock
              batchNumber w with
      | None => (inr tt, None)
      | Some (r, w') => (r, Some (batchNumber, w'))
      end
  end.

(** [processHistoricalEvents]: on the left what it throws *)
Definition processHistoricalEvents (fuel : nat) (contractAddresses : list string)
    (abis : list AbiItem) (startBlock : Z) (w : world C)
    : option ((thrown + unit) * world C) :=
  if (List.length contractAddresses =? 0)%nat then
    Some (inl (ErrorObj "No contract addresses provided"), w)
  else if (List.length abis =? 0)%nat then
    Some (inl (ErrorObj "No event ABIs provided"), w)
  else
    let '(r, c') := getBlockNumber (chain w) in
    let w := mkWorld c' (env_of w) in
    match r with
    | inl error =>
        Some (inl (ErrorObj ("Failed to get current block number: " +:+ message_of error)), w)
    | inr currentBlock =>
        if startBlock >? currentBlock then
          Some (inl (ErrorObj ("Start block (" +:+ string_of_Z startBlock
                               +:+ ") cannot be greater than current block ("
                               +:+ string_of_Z currentBlock +:+ ")")), w)
        else
          match Seeder.loopThroughBlocks (on_batch fuel contractAddresses abis) fuel
                  startBlock currentBlock None (Some (0, w)) with
          | Some r =>
              match Seeder.world r with
              | Some (_, w') => Some (inr tt, w')
              | None => None
              end
          | None => None
          end
    end.

End Backfill.

(** the fetches of one batch when every one of them succeeds: every event
    of every contract in turn, on the range of the batch *)
Definition batch_fetches (contractAddresses : list string) (abis : list AbiItem)
    (r : Z * Z) : list event :=
  List.flat_map
    (fun a => List.map (fun abi => Fetched a (abi_name abi) (fst r) (snd r)) abis)
    contractAddresses.

End Historical.

(** ** Vocabulary for the properties of Part II *)

Module Vocabulary.
Import Js Json Logger Sqlite DbClient Logs.

(** does the character occur in the text *)
Fixpoint occurs (c : ascii) (s : string) : bool :=
  match s with
  | EmptyString => false
  | String d s' => Ascii.eqb c d || occurs c s'
  end.

(** the text holds decimal digits only *)
Fixpoint all_digits (s : string) : bool :=
  match s with
  | EmptyString => true
  | String c s' => match digit_of c with Some _ => all_digits s' | None => false end
  end.

(** the value of a decimal numeral read after [acc] *)
Fixpoint uint_value (acc : Z) (d : Decimal.uint) : Z :=
  match d with
  | Decimal.Nil => acc
  | Decimal.D0 d' => uint_value (10 * acc + 0) d'
  | Decimal.D1 d' => uint_value (10 * acc + 1) d'
  | Decimal.D2 d' => uint_value (10 * acc + 2) d'
  | Decimal.D3 d' => uint_value (10 * acc + 3) d'
  | Decimal.D4 d' => uint_value (10 * acc + 4) d'
  | Decimal.D5 d' => uint_value (10 * acc + 5) d'
  | Decimal.D6 d' => uint_value (10 * acc + 6) d'
  | Decimal.D7 d' => uint_value (10 * acc + 7) d'
  | Decimal.D8 d' => uint_value (10 * acc + 8) d'
  | Decimal.D9 d' => uint_value (10 * acc + 9) d'
  end.


(** what [CREATE INDEX IF NOT EXISTS] statements, run in order until one
    fails, make of a table *)
Fixpoint add_indexes (l : list index) (t : table) : table :=
  match l with
  | [] => t
  | i :: l' =>
      if has_index t (idx_name i) then add_indexes l' t
      else
        match List.find (fun n => negb (has_column t n)) (idx_columns i) with
        | Some _ => t
        | None =>
            if idx_unique i && has_duplicate_key (idx_columns i) (tbl_rows t) then t
            else add_indexes l' (mkTable (tbl_columns t) (tbl_indexes t ++ [i])
                                   (tbl_rows t) (tbl_next_id t))
        end
  end.

(** what the statements of a schema make of the table they name, which
    may not exist yet *)
Definition settle (s : schema) (o : option table) : table :=
  add_indexes (sch_indexes s)
    (match o with
     | Some t => t
     | None => mkTable (sch_columns s) [] [] 1
     end).

(** [t'] is [t] with more indexes, and nothing else changed *)
Definition extends (t t' : table) : Prop :=
  tbl_columns t' = tbl_columns t
  /\ tbl_rows t' = tbl_rows t
  /\ tbl_next_id t' = tbl_next_id t
  /\ exists added, tbl_indexes t' = (tbl_indexes t ++ added)%list.

(** the blocks the journal says were skipped, in order *)
Fixpoint skipped (j : list event) : list Z :=
  match j with
  | [] => []
  | SingleBlockSkipped block :: j' => block :: skipped j'
  | _ :: j' => skipped j'
  end.

(** the ranges the journal says were split, in order *)
Fixpoint splits (j : list event) : list (Z * Z) :=
  match j with
  | [] => []
  | SplittingRange fromBlock toBlock :: j' => (fromBlock, toBlock) :: splits j'
  | _ :: j' => splits j'
  end.

(** a chain client whose every answer for the range is an [Error] that
    says [Log response size exceeded] *)
Definition client_says_size_exceeded {C : Type}
    (getLogs : string -> AbiItem -> Z -> Z -> C -> (thrown + list Log) * C)
    (contractAddress : string) (abi : AbiItem) (fromBlock toBlock : Z) : Prop :=
  forall c, exists message c',
    getLogs contractAddress abi fromBlock toBlock c = (inl (ErrorObj message), c')
    /\ includes message "Log response size exceeded" = true.

(** a chain client whose every answer for the range is an [Error] that
    says [rate limit] (and nothing of the response size) *)
Definition client_says_rate_limit {C : Type}
    (getLogs : string -> AbiItem -> Z -> Z -> C -> (thrown + list Log) * C)
    (contractAddress : string) (abi : AbiItem) (fromBlock toBlock : Z) : Prop :=
  forall c, exists message c',
    getLogs contractAddress abi fromBlock toBlock c = (inl (ErrorObj message), c')
    /\ includes message "Log response size exceeded" = false
    /\ includes message "rate limit" = true.

(** a log that [processEventLog] takes on: it has a transaction hash and a
    block number that is not [0n] *)
Definition acceptable (l : Log) : bool :=
  negb (missing_string (transactionHash l) || missing_bigint (blockNumber l)).

(** how many logs the journal says could not be processed *)
Fixpoint rejections (j : list event) : nat :=
  match j with
  | [] => 0%nat
  | ProcessLogFailed _ :: j' => S (rejections j')
  | _ :: j' => rejections j'
  end.

(** the batch summaries of the journal *)
Fixpoint summaries (j : list event) : list string :=
  match j with
  | [] => []
  | BatchSummary batchId :: j' => batchId :: summaries j'
  | _ :: j' => summaries j'
  end.

(** the counters hold no key but the one of the current batch *)
Definition only_current_batch (l : Logger.logger) : Prop :=
  forall key, key <> "current_batch" -> stats l !! key = None.

End Vocabulary.

(* ===================================================================== *)
(** * Part II: the properties                                             *)
(* ===================================================================== *)

Module SeederFacts.
Import Seeder.

Example batches_1_10_3 :
  option_map ranges (loopThroughBlocks idle 10 1 10 (Some 3) tt)
  = Some [(1, 4); (5, 8); (9, 10)].
Proof. reflexivity. Qed.

(** A chain of ranges covers each block of the interval once. *)
Lemma chain_hits (rs : list (Z * Z)) :
  forall a b x, chain a b rs ->
    hits x rs = if (a <=? x) && (x <=? b) then 1%nat else 0%nat.
Proof.
  induction rs as [|[f t] rs IH]; intros a b x Hc; cbn [chain] in Hc.
  - unfold hits; cbn.
    destruct (Z.leb_spec a x), (Z.leb_spec x b); cbn; trivial; lia.
  - destruct Hc as (-> & Hft & Htb & Hrest).
    specialize (IH _ _ x Hrest).
    unfold hits in *; cbn [List.filter]; unfold inside at 1; cbn [fst snd].
    destruct (Z.leb_spec a x), (Z.leb_spec x t), (Z.leb_spec x b),
      (Z.leb_spec (t + 1) x); cbn in *; rewrite ?IH; trivial; lia.
Qed.

Lemma chain_tiles (a b : Z) (rs : list (Z * Z)) : chain a b rs -> tiles a b rs.
Proof. intros Hc x. now apply chain_hits. Qed.

(** The loop has nothing left to do once [nextBlock] has reached the end. *)
Lemma while_loop_done {W} (cb : Z -> Z -> W -> (Js.thrown + unit) * W)
    (fuel : nat) (lastBlock batchSize : Z) (st : loop_state) (w : W) :
  lastBlock <= nextBlock st ->
  while_loop cb fuel lastBlock batchSize st w = Some (st, w, []).
Proof.
  intros H. destruct fuel; cbn [while_loop];
    destruct (Z.ltb_spec (nextBlock st) lastBlock); trivial; lia.
Qed.

(** The loop invariant: from a state that still has blocks ahead, the loop
    stops within [lastBlock - currentBlock] further iterations and the
    ranges it emits chain from [currentBlock] to [lastBlock], each one
    spanning at most [batchSize] block-number steps. *)
Lemma while_loop_chain {W} (cb : Z -> Z -> W -> (Js.thrown + unit) * W)
    (lastBlock batchSize : Z) :
  1 <= batchSize ->
  forall (fuel : nat) (st : loop_state) (w : W),
    nextBlock st < lastBlock ->
    currentBlock st <= lastBlock ->
    (Z.to_nat (lastBlock - currentBlock st) <= fuel)%nat ->
    (currentBlock st < lastBlock \/ (0 < fuel)%nat) ->
    exists st' w' rs,
      while_loop cb fuel lastBlock batchSize st w = Some (st', w', rs)
      /\ chain (currentBlock st) lastBlock rs
      /\ Forall (fun r => snd r - fst r <= batchSize) rs.
Proof.
  intros Hbs fuel.
  induction fuel as [|fuel IH]; intros st w Hnext Hcur Hfuel Hpos.
  - exfalso. destruct Hpos as [Hlt|Hlt]; lia.
  - cbn [while_loop].
    destruct (Z.ltb_spec (nextBlock st) lastBlock) as [_|]; [|lia].
    set (next := if currentBlock st + batchSize >=? lastBlock
                 then lastBlock else currentBlock st + batchSize).
    assert (Hn : currentBlock st <= next <= lastBlock
                 /\ next - currentBlock st <= batchSize
                 /\ (next < lastBlock -> currentBlock st < next)).
    { subst next.
      destruct (Z.geb_spec (currentBlock st + batchSize) lastBlock); lia. }
    destruct Hn as (Hn1 & Hn2 & Hn3).
    destruct (cb (currentBlock st) next w) as [r w1].
    set (st1 := mkLoop (next + 1) next _ _).
    destruct (Z.lt_ge_cases next lastBlock) as [Hlt|Hge].
    + destruct (IH st1 w1) as (st' & w' & rs & Hrun & Hchain & Hall);
        subst st1; cbn [nextBlock currentBlock]; try lia.
      rewrite Hrun. exists st', w', ((currentBlock st, next) :: rs).
      split; [reflexivity|]. split.
      * cbn [chain]. cbn [currentBlock] in Hchain. repeat split; trivial; lia.
      * constructor; trivial.
    + rewrite while_loop_done by (subst st1; cbn; lia).
      exists st1, w1, [(currentBlock st, next)].
      split; [reflexivity|]. split.
      * cbn [chain]. repeat split; lia.
      * constructor; [cbn; lia | constructor].
Qed.

(** C1 (as amended): for [firstBlock < lastBlock] and [batchSize >= 1] the
    batcher returns, and the ranges it hands to the callback tile the
    interval [[firstBlock, lastBlock]]: they are contiguous and do not
    overlap, every block of the interval lies in exactly one of them and no
    other block in any, and each range spans at most [batchSize]
    block-number steps ([to - from <= batchSize], an inclusive length of at
    most [batchSize + 1]). *)
Theorem loopThroughBlocks_tiles {W} (cb : Z -> Z -> W -> (Js.thrown + unit) * W)
    (firstBlock lastBlock batchSize : Z) (w : W) (fuel : nat) :
  firstBlock < lastBlock ->
  1 <= batchSize ->
  (Z.to_nat (lastBlock - firstBlock) <= fuel)%nat ->
  exists r,
    loopThroughBlocks cb fuel firstBlock lastBlock (Some batchSize) w = Some r
    /\ returned r = lastBlock
    /\ chain firstBlock lastBlock (ranges r)
    /\ tiles firstBlock lastBlock (ranges r)
    /\ Forall (fun rg => snd rg - fst rg <= batchSize) (ranges r)
    /\ Forall (fun rg => range_length rg <= batchSize + 1) (ranges r).
Proof.
  intros Hlt Hbs Hfuel. unfold loopThroughBlocks, batchSizeOf.
  destruct (Z.eqb_spec batchSize 0) as [|_]; [lia|].
  destruct (while_loop_chain cb lastBlock batchSize Hbs fuel
              (mkLoop firstBlock firstBlock 0 0) w)
    as (st' & w' & rs & Hrun & Hchain & Hall); cbn; try lia.
  rewrite Hrun. eexists; split; [reflexivity|]; cbn.
  repeat split; trivial.
  - now apply chain_tiles.
  - eapply List.Forall_impl; [|exact Hall]. unfold range_length; cbn; intros; lia.
Qed.

Lemma loopThroughBlocks_tiles_witness :
  exists r,
    loopThroughBlocks idle 9 1 10 (Some 3) tt = Some r
    /\ returned r = 10
    /\ chain 1 10 (ranges r)
    /\ tiles 1 10 (ranges r)
    /\ Forall (fun rg => snd rg - fst rg <= 3) (ranges r)
    /\ Forall (fun rg => range_length rg <= 3 + 1) (ranges r).
Proof. apply (loopThroughBlocks_tiles idle 1 10 3 tt 9); [lia | lia | vm_compute; lia]. Defined.

(** The length bound of C1 as it was written fails: with [batchSize = 3]
    the first range handed to the callback over [[1, 10]] is [[1, 4]],
    four blocks long. *)
Lemma loopThroughBlocks_length_counterexample :
  exists r,
    loopThroughBlocks idle 9 1 10 (Some 3) tt = Some r
    /\ ranges r = [(1, 4); (5, 8); (9, 10)]
    /\ ~ Forall (fun rg => range_length rg <= 3) (ranges r).
Proof.
  eexists; split; [reflexivity|]; split; [reflexivity|].
  cbn. intros H. inversion H as [|? ? Hhd _]; subst.
  unfold range_length in Hhd; cbn in Hhd. lia.
Qed.

(** A one-block interval: the loop body never runs, whatever the fuel. *)
Lemma loopThroughBlocks_single_block {W}
    (cb : Z -> Z -> W -> (Js.thrown + unit) * W) (b : Z)
    (size : option Z) (w : W) (fuel : nat) :
  loopThroughBlocks cb fuel b b size w = Some (mkRun b w [] 0).
Proof.
  unfold loopThroughBlocks. now rewrite while_loop_done by (cbn; lia).
Qed.

(** C2 (as amended): over [[1, 10000]] with [batchSize = 4999] the callback
    is invoked exactly twice, with [[1, 5000]] and then [[5001, 10000]]. *)
Theorem loopThroughBlocks_scenario_B {W}
    (cb : Z -> Z -> W -> (Js.thrown + unit) * W) (w : W) (fuel : nat) :
  (2 <= fuel)%nat ->
  exists r,
    loopThroughBlocks cb fuel 1 10000 (Some 4999) w = Some r
    /\ ranges r = [(1, 5000); (5001, 10000)]
    /\ List.length (ranges r) = 2%nat.
Proof.
  intros Hfuel. destruct fuel as [|[|fuel]]; try lia.
  unfold loopThroughBlocks, batchSizeOf.
  cbn [while_loop nextBlock currentBlock]. lazy -[while_loop].
  destruct (cb 1 5000 w) as [r1 w1].
  destruct (cb 5001 10000 w1) as [r2 w2].
  rewrite while_loop_done by (cbn; lia).
  eexists; split; [reflexivity|]. split; reflexivity.
Qed.

Lemma loopThroughBlocks_scenario_B_witness :
  exists r,
    loopThroughBlocks idle 2 1 10000 (Some 4999) tt = Some r
    /\ ranges r = [(1, 5000); (5001, 10000)]
    /\ List.length (ranges r) = 2%nat.
Proof. apply (loopThroughBlocks_scenario_B idle tt 2). lia. Defined.

(** C2 as it was written fails: the run does not produce the three ranges
    [[1,4999], [5000,9998], [9999,10000]]. *)
Lemma loopThroughBlocks_scenario_B_counterexample :
  exists r,
    loopThroughBlocks idle 3 1 10000 (Some 4999) tt = Some r
    /\ ranges r <> [(1, 4999); (5000, 9998); (9999, 10000)]
    /\ List.length (ranges r) <> 3%nat.
Proof.
  eexists; split; [reflexivity|]. cbn. split; [discriminate | lia].
Qed.

End SeederFacts.

Module DbClientFacts.
Import Js Json Logger Sqlite DbClient.

(** *** Column types *)

(** Integers of at most 64 bits get a native integer column. *)
Lemma getSqlTypeFromEthType_narrow_integers :
  Forall (fun w => w <= 64 ->
            getSqlTypeFromEthType (int_type false w) = "INTEGER"
            /\ getSqlTypeFromEthType (int_type true w) = "INTEGER") int_widths.
Proof.
  unfold int_widths; cbn [List.map seq].
  repeat (constructor;
          [intros Hle; first [split; reflexivity | exfalso; lia]|]).
  constructor.
Qed.

(** C7, at the inputs where the code departs from it: [uint96] and [int96]
    (and every other width above 64 bits except 128 and 256) get the
    column type [INTEGER], not a text type; over all the widths an integer
    type can have, the column is [TEXT] exactly for 128 and 256 bits. *)
Theorem getSqlTypeFromEthType_wide_integers :
  getSqlTypeFromEthType "uint96" = "INTEGER"
  /\ getSqlTypeFromEthType "int96" = "INTEGER"
  /\ getSqlTypeFromEthType "uint160" = "INTEGER"
  /\ affinity_of (getSqlTypeFromEthType "uint96") = AffInteger
  /\ Forall (fun w =>
       forall signed,
         getSqlTypeFromEthType (int_type signed w)
         = if (w =? 128) || (w =? 256) then "TEXT" else "INTEGER") int_widths.
Proof.
  repeat split; try reflexivity.
  repeat constructor; intros [|]; reflexivity.
Qed.

(** what the column does to a 96-bit value that was stored as its decimal
    text: beyond 64 bits it becomes a floating-point cell *)
Example wide_integer_in_integer_column :
  apply_affinity (affinity_of (getSqlTypeFromEthType "uint96"))
    (SText "79228162514264337593543950335")
  = SReal "79228162514264337593543950335".
Proof. reflexivity. Qed.

(** C8, at the inputs where the code departs from it: an array of [uint8]
    gets the column type [INTEGER] and an array of [bytes32] the type
    [BLOB], because the prefix tests come before the array test; and an
    array that holds a bigint (what [uint256[]] decodes to) is not
    serialized at all: [formatValueForSql] throws. Arrays of addresses, of
    booleans and of strings do get [TEXT]. *)
Theorem getSqlTypeFromEthType_arrays :
  getSqlTypeFromEthType "uint8[]" = "INTEGER"
  /\ getSqlTypeFromEthType "int64[]" = "INTEGER"
  /\ getSqlTypeFromEthType "bytes32[]" = "BLOB"
  /\ getSqlTypeFromEthType "address[]" = "TEXT"
  /\ getSqlTypeFromEthType "bool[]" = "TEXT"
  /\ getSqlTypeFromEthType "string[]" = "TEXT"
  /\ formatValueForSql (VArray [VBigInt 1; VBigInt 2])
     = inl (ErrorObj "JSON.stringify cannot serialize BigInt.")
  /\ formatValueForSql (VArray [VNumber 1; VNumber 2]) = inr (VString "[1,2]").
Proof. repeat split; reflexivity. Qed.

(** *** Query *)

(** formatting the filter values keeps the filter names *)
Lemma format_filters_keys (l fv : list (string * value)) :
  format_filters l = inr fv -> List.map fst fv = List.map fst l.
Proof.
  revert fv. induction l as [|[k x] l IH]; intros fv Hfmt; cbn in Hfmt.
  - now injection Hfmt as <-.
  - destruct (formatValueForSql x); [discriminate|].
    destruct (format_filters l) as [|r]; [discriminate|].
    injection Hfmt as <-. cbn. f_equal. now apply IH.
Qed.

Section QueryFacts.
Variable JSON_parse : string -> option value.

(** C10: [getLogsFromDatabase] never lets an exception out. Whatever the
    event name, the options and the state of the store, it returns a
    sequence of rows. Whatever fails inside the [try] block (formatting a
    filter value, preparing the statement, as for a name that is no column,
    or running it) ends in the [catch], and the sequence is then empty; for
    a missing table the sequence is empty without any failure. *)
Theorem getLogsFromDatabase_never_throws (eventName : string) (o : options) (e : env) :
  (exists rows, getLogsFromDatabase JSON_parse eventName o e = inr rows)
  /\ (forall err, getLogsFromDatabase_try JSON_parse eventName o e = inl err ->
        getLogsFromDatabase JSON_parse eventName o e = inr [])
  /\ (table_of eventName e = None ->
        getLogsFromDatabase JSON_parse eventName o e = inr []).
Proof.
  unfold getLogsFromDatabase, table_of.
  split; [|split].
  - destruct (getLogsFromDatabase_try _ _ _ _); eauto.
  - intros err ->. reflexivity.
  - intros Hnone. unfold getLogsFromDatabase_try. now rewrite Hnone.
Qed.


End QueryFacts.

(** *** Saving a log *)

(** a traversal whose every step returns, returns *)
Lemma elements_ok {A} (f : A -> thrown + string) (l : list A) :
  Forall (fun x => exists s, f x = inr s) l -> exists parts, elements f l = inr parts.
Proof.
  induction 1 as [|x l [sx Hx] _ [sl Hl]]; cbn; [eauto|].
  rewrite Hx, Hl. eauto.
Qed.

Lemma members_ok {A} (f : A -> thrown + string) (u : A -> bool) (l : list (string * A)) :
  Forall (fun kv => exists s, f (snd kv) = inr s) l ->
  exists parts, members f u l = inr parts.
Proof.
  induction 1 as [|[k x] l [sx Hx] _ [sl Hl]]; cbn in *; [eauto|].
  destruct (u x); [eauto|]. rewrite Hx, Hl. eauto.
Qed.

(** [JSON.stringify] returns a text on a value without bigints *)
Lemma JSON_stringify_serializable :
  forall v, serializable v = true -> exists s, JSON_stringify v = inr s.
Proof.
  fix IH 1. intros [ | | b | n | lit | n | s | items | fields] H;
    cbn in *; try (eexists; reflexivity); try discriminate.
  - destruct (elements_ok JSON_stringify items) as [parts ->]; [|eauto].
    induction items as [|x items IHitems]; constructor.
    + apply IH. cbn in H. now apply andb_true_iff in H as [? _].
    + apply IHitems. cbn in H. now apply andb_true_iff in H as [_ ?].
  - destruct (members_ok JSON_stringify is_undefined fields) as [parts ->]; [|eauto].
    induction fields as [|[k x] fields IHfields]; constructor.
    + apply IH. cbn in H. now apply andb_true_iff in H as [? _].
    + apply IHfields. cbn in H. now apply andb_true_iff in H as [_ ?].
Qed.

(** what [formatValueForSql] makes of a formattable argument can be bound *)
Lemma formatValueForSql_ok (v : value) :
  formattable v = true ->
  exists v', formatValueForSql v = inr v' /\ bindable v'.
Proof.
  intros H. destruct v; cbn in *; try discriminate;
    try (eexists; split; [reflexivity|]; eexists; reflexivity).
  - destruct (JSON_stringify_serializable (VArray items) H) as [s Hs].
    cbn in Hs. rewrite Hs. eexists; split; [reflexivity|]; eexists; reflexivity.
  - destruct (JSON_stringify_serializable (VObject fields) H) as [s Hs].
    cbn in Hs. rewrite Hs. eexists; split; [reflexivity|]; eexists; reflexivity.
Qed.

(** the argument a column refers to is formattable, if all of them are *)
Lemma arg_at_formattable (l : list value) (index : option Z) :
  forallb formattable l = true -> formattable (arg_at l index) = true.
Proof.
  intros H. unfold arg_at. destruct index as [i|]; [|reflexivity].
  destruct (i <? 0); [reflexivity|].
  destruct (l !! Z.to_nat i) as [v|] eqn:Hv; [|reflexivity].
  cbn. rewrite forallb_forall in H. apply H.
  apply list_elem_of_In. eapply list_elem_of_lookup_2. exact Hv.
Qed.

(** for a well-formed log, the value pushed for any column can be bound *)
Lemma value_for_ok (l : Log) (column : string) :
  well_formed l = true ->
  exists v, value_for l column = inr v /\ bindable v.
Proof.
  unfold well_formed, value_for, bindable. intros H.
  destruct (address l) as [a|]; [|discriminate].
  destruct (transactionHash l) as [h|]; [|discriminate].
  destruct (blockNumber l) as [n|]; [|discriminate].
  apply andb_true_iff in H as [Hn Hargs].
  repeat match goal with
         | |- context [if String.eqb ?x ?y then _ else _] =>
             destruct (String.eqb x y);
             [eexists; split; [reflexivity|]; cbn; rewrite ?Hn; eexists; reflexivity|]
         end.
  destruct (startsWith column "param_");
    [|eexists; split; [reflexivity|]; eexists; reflexivity].
  match goal with
  | |- context [arg_at ?a ?i] => pose proof (arg_at_formattable a i Hargs) as Hs
  end.
  destruct (arg_at _ _) eqn:Harg;
    try (eexists; split; [reflexivity|]; eexists; reflexivity);
    try discriminate;
    destruct (formatValueForSql_ok _ Hs) as (v' & Hv' & Hb); eauto.
Qed.

Lemma values_for_ok (l : Log) (columns : list string) :
  well_formed l = true ->
  exists vs bs, values_for l columns = inr vs /\ bind_all vs = inr bs.
Proof.
  intros H. induction columns as [|c columns (vs & bs & Hvs & Hbs)]; cbn.
  - eauto.
  - destruct (value_for_ok l c H) as (v & Hv & b & Hb).
    rewrite Hv, Hvs. exists (v :: vs), (b :: bs). cbn. now rewrite Hb, Hbs.
Qed.

(** a column of the table is found by its name *)
Lemma has_column_in (t : table) (c : column) :
  In c (tbl_columns t) -> has_column t (col_name c) = true.
Proof.
  intros Hin. unfold has_column, find_column.
  destruct (List.find _ _) eqn:Hfind; [reflexivity|].
  eapply List.find_none in Hfind; [|exact Hin].
  cbn in Hfind. now rewrite String.eqb_refl in Hfind.
Qed.

(** the statement names columns of the table only *)
Lemma insertable_columns_exist (t : table) :
  List.find (fun n => negb (has_column t n))
    (List.filter insertable (List.map col_name (tbl_columns t))) = None.
Proof.
  destruct (List.find _ _) as [n|] eqn:Hfind; [|reflexivity].
  apply List.find_some in Hfind as [Hin Hn].
  apply List.filter_In in Hin as [Hin _].
  apply List.in_map_iff in Hin as (c & <- & Hc).
  now rewrite (has_column_in t c Hc) in Hn.
Qed.

(** the parameter columns carry no [NOT NULL] *)
Lemma param_columns_nullable (i : nat) (inputs : list AbiParameter) :
  Forall (fun c => col_notnull c = false) (param_columns i inputs).
Proof.
  revert i. induction inputs as [|input inputs IH]; intros i; cbn; constructor; auto.
Qed.

Lemma find_none_Forall {A} (f : A -> bool) (l : list A) :
  Forall (fun x => f x = false) l -> List.find f l = None.
Proof. induction 1 as [|x l Hx _ IH]; cbn; [reflexivity|]. now rewrite Hx. Qed.

Lemma existsb_filter_nil {A} (f : A -> bool) (l : list A) :
  List.filter f l = [] -> existsb f l = false.
Proof.
  induction l as [|x l IH]; cbn; [reflexivity|].
  destruct (f x); [discriminate|]. exact IH.
Qed.

Lemma sql_eq_sym (a b : sqlval) : sql_eq a b = sql_eq b a.
Proof.
  destruct a, b; cbn; trivial; try apply Z.eqb_sym; apply String.eqb_sym.
Qed.

(** [trackStat] adds one to the counter of its kind, and to no other *)
Lemma count_trackStat (key : string) (type type' : StatType) (l : Logger.logger) :
  count key type' (trackStat key type l)
  = count key type' l + match type, type' with
                        | duplicate, duplicate
                        | processedStat, processedStat
                        | errorStat, errorStat => 1
                        | _, _ => 0
                        end.
Proof.
  unfold count, trackStat; cbn. rewrite lookup_insert_eq; cbn.
  destruct type, type'; cbn; lia.
Qed.

Lemma count_record (key : string) (type : StatType) (ev : event) (l : Logger.logger) :
  count key type (record ev l) = count key type l.
Proof. reflexivity. Qed.

Section Synthesized.
Variables (abi : AbiItem) (t : table).
Hypothesis Hcolumns : tbl_columns t = sch_columns (schema_of abi).
Hypothesis Hindexes : tbl_indexes t = sch_indexes (schema_of abi).

(** the duplicate check names columns of the table *)
Lemma key_columns_exist (l : Log) :
  List.find (fun kv => negb (has_column t (fst kv))) (duplicate_key l) = None.
Proof. unfold has_column, find_column. rewrite Hcolumns. reflexivity. Qed.

(** the duplicate check returns the rows stored under the log's key *)
Lemma select_duplicates (l : Log) :
  select_where t (duplicate_key l) = inr (stored_rows t l).
Proof. unfold select_where. now rewrite key_columns_exist. Qed.

(** a row is under a log's key when its two key cells equal the log's *)
Lemma matches_key (h : string) (i : Z) (l : Log) (r : row) :
  transactionHash l = Some h -> logIndex_or_0 l = i ->
  matches t (duplicate_key l) r
  = match cell "transaction_hash" r, cell "log_index" r with
    | Some a, Some b => sql_eq a (SText h) && sql_eq b (SInteger i)
    | _, _ => false
    end.
Proof.
  intros Hh Hi. unfold matches, duplicate_key, find_column.
  rewrite Hcolumns, Hh, Hi. cbn.
  destruct (cell "transaction_hash" r), (cell "log_index" r); cbn;
    rewrite ?andb_true_r, ?andb_false_r; reflexivity.
Qed.

End Synthesized.

Lemma find_app_none {A} (f : A -> bool) (l1 l2 : list A) :
  List.find f l1 = None -> List.find f l2 = None -> List.find f (l1 ++ l2) = None.
Proof. induction l1 as [|x l1 IH]; cbn; [auto|]. destruct (f x); [discriminate|auto]. Qed.

Lemma existsb_pointwise {A} (f g : A -> bool) (l : list A) :
  (forall x, f x = g x) -> existsb f l = existsb g l.
Proof. intros H. induction l as [|x l IH]; cbn; [reflexivity|]. now rewrite H, IH. Qed.

(** the insertable columns of a synthesized table *)
Lemma insertable_schema_columns (ps : list column) :
  List.filter insertable (List.map col_name (fixed_columns ++ ps))
  = "contract_address" :: "transaction_hash" :: "block_number" :: "log_index"
    :: List.filter insertable (List.map col_name ps).
Proof. rewrite List.map_app, List.filter_app. reflexivity. Qed.

Section NewRow.
Variables (now : string) (id : Z) (a h : string) (n i : Z).
Variables (pnames : list string) (bs : list sqlval) (ps : list column).

Let given : list (string * sqlval) :=
  combine ("contract_address" :: "transaction_hash" :: "block_number" :: "log_index" :: pnames)
    (SText a :: SText h :: SInteger n :: SInteger i :: bs).

Let r : row := List.map (new_cell now id given) (fixed_columns ++ ps).

(** the key cells of the row an insert builds *)
Lemma new_row_key :
  cell "transaction_hash" r = Some (SText h) /\ cell "log_index" r = Some (SInteger i).
Proof. split; reflexivity. Qed.

(** the row has a value in every [NOT NULL] column *)
Lemma new_row_notnull :
  Forall (fun c => col_notnull c = false) ps ->
  List.find (fun c => col_notnull c && is_null (default SNull (cell (col_name c) r)))
    (fixed_columns ++ ps) = None.
Proof.
  intros Hnull. apply find_app_none; [reflexivity|].
  apply find_none_Forall. eapply List.Forall_impl; [|exact Hnull].
  intros c Hc. cbn beta. now rewrite Hc.
Qed.

(** the unique index compares the new row as the duplicate check does *)
Lemma new_row_same_key (r' : row) :
  same_key ["transaction_hash"; "log_index"] r r'
  = match cell "transaction_hash" r', cell "log_index" r' with
    | Some x, Some y => sql_eq x (SText h) && sql_eq y (SInteger i)
    | _, _ => false
    end.
Proof.
  unfold same_key. cbn [forallb].
  destruct new_row_key as [-> ->].
  destruct (cell "transaction_hash" r') as [x|], (cell "log_index" r') as [y|];
    rewrite ?andb_true_r, ?andb_false_r; trivial.
  now rewrite (sql_eq_sym (SText h)), (sql_eq_sym (SInteger i)).
Qed.

End NewRow.

Section SynthesizedTable.
Variables (abi : AbiItem) (t : table).
Hypothesis Hcolumns : tbl_columns t = sch_columns (schema_of abi).
Hypothesis Hindexes : tbl_indexes t = sch_indexes (schema_of abi).

(** the insert of a well-formed log that is not stored yet goes through,
    and the row it appends is under the log's key *)
Lemma first_insert (l : Log) (d : database) :
  tables d !! tableNameOf (abi_name abi) = Some t ->
  well_formed l = true ->
  stored_rows t l = [] ->
  exists values r,
    values_for l (List.filter insertable (List.map col_name (tbl_columns t))) = inr values
    /\ insert_into (tableNameOf (abi_name abi))
         (List.filter insertable (List.map col_name (tbl_columns t))) values d
       = inr (mkDatabase
                (<[tableNameOf (abi_name abi) :=
                     mkTable (tbl_columns t) (tbl_indexes t) (tbl_rows t ++ [r])
                       (tbl_next_id t + 1)]> (tables d))
                (current_timestamp d))
    /\ matches t (duplicate_key l) r = true.
Proof.
  intros Ht Hwf Hfresh.
  pose proof (matches_key abi t Hcolumns) as Hkey.
  unfold stored_rows in Hfresh. apply existsb_filter_nil in Hfresh.
  pose proof Hcolumns as Hc. pose proof Hindexes as Hi.
  unfold schema_of in Hc, Hi. cbn [sch_columns sch_indexes] in Hc, Hi.
  set (ps := param_columns 0 (abi_inputs abi)) in *.
  pose proof (param_columns_nullable 0 (abi_inputs abi)) as Hnull. fold ps in Hnull.
  set (pnames := List.filter insertable (List.map col_name ps)).
  destruct (values_for_ok l pnames Hwf) as (vs & bs & Hvs & Hbs).
  destruct l as [[a|] [h|] [n|] i args]; try discriminate Hwf.
  cbn in Hwf. apply andb_true_iff in Hwf as [Hn Hargs].
  set (l := mkLog (Some a) (Some h) (Some n) i args) in *.
  set (names := List.filter insertable (List.map col_name (tbl_columns t))).
  assert (Hnames : names = "contract_address" :: "transaction_hash" :: "block_number"
                           :: "log_index" :: pnames).
  { subst names. rewrite Hc. apply insertable_schema_columns. }
  set (values := VString a :: VString h :: VBigInt n :: VNumber (logIndex_or_0 l) :: vs).
  set (bound := SText a :: SText h :: SInteger n :: SInteger (logIndex_or_0 l) :: bs).
  assert (Hvalues : values_for l names = inr values).
  { rewrite Hnames. cbn. now rewrite Hvs. }
  assert (Hbound : bind_all values = inr bound).
  { subst values. cbn. now rewrite Hn, Hbs. }
  exists values,
    (List.map (new_cell (current_timestamp d) (tbl_next_id t) (combine names bound))
       (tbl_columns t)).
  split; [exact Hvalues|].
  destruct (new_row_key (current_timestamp d) (tbl_next_id t) a h n
              (logIndex_or_0 l) pnames bs ps) as [Hk1 Hk2].
  cbv zeta in Hk1, Hk2. split.
  - unfold insert_into. subst names.
    rewrite Ht, insertable_columns_exist, Hbound.
    unfold violates_notnull, violates_unique. rewrite Hi, Hnames, Hc.
    subst bound. rewrite new_row_notnull by exact Hnull.
    cbn [List.find idx_unique idx_columns andb].
    rewrite (existsb_pointwise _ (matches t (duplicate_key l))).
    + now rewrite Hfresh.
    + intros r'. rewrite new_row_same_key. symmetry. now apply Hkey.
  - rewrite (Hkey h (logIndex_or_0 l) l _ eq_refl eq_refl), Hnames, Hc.
    subst bound. rewrite Hk1, Hk2. cbn.
    now rewrite String.eqb_refl, Z.eqb_refl.
Qed.

(** once a row is stored under a log's key, saving a log with that key
    again writes nothing and counts one duplicate *)
Lemma second_save (l : Log) (e : env) (r : row) (rows : list row) :
  table_of (abi_name abi) e = Some t ->
  stored_rows t l = r :: rows ->
  saveLogToDatabase l (abi_name abi) e
  = mkEnv (db e)
      (record (DuplicateSkipped (option_map (slice0 10) (transactionHash l)))
         (trackStat "current_batch" duplicate (logger e))).
Proof.
  unfold table_of. intros Ht Hrows.
  unfold saveLogToDatabase, saveLogToDatabase_try.
  now rewrite Ht, (select_duplicates abi t Hcolumns), Hrows.
Qed.

End SynthesizedTable.

(** C4: in a store whose table for the event was synthesized, saving a
    well-formed log that is not stored yet and then saving a log with the
    same [(transaction_hash, log_index)] leaves exactly one row under that
    key. The first call appends the row and counts it as processed; the
    second call finds it, counts one duplicate, and returns without
    writing: the database after it is the database before it. *)
Theorem saveLogToDatabase_idempotent (abi : AbiItem) (l1 l2 : Log) (e : env) (t : table) :
  table_of (abi_name abi) e = Some t ->
  tbl_columns t = sch_columns (schema_of abi) ->
  tbl_indexes t = sch_indexes (schema_of abi) ->
  well_formed l1 = true ->
  stored_rows t l1 = [] ->
  transactionHash l2 = transactionHash l1 ->
  logIndex_or_0 l2 = logIndex_or_0 l1 ->
  let e1 := saveLogToDatabase l1 (abi_name abi) e in
  let e2 := saveLogToDatabase l2 (abi_name abi) e1 in
  exists r,
    let t1 := mkTable (tbl_columns t) (tbl_indexes t) (tbl_rows t ++ [r])
                (tbl_next_id t + 1) in
    db e1 = mkDatabase (<[tableNameOf (abi_name abi) := t1]> (tables (db e)))
              (current_timestamp (db e))
    /\ table_of (abi_name abi) e1 = Some t1
    /\ stored_rows t1 l1 = [r]
    /\ stored_rows t1 l2 = [r]
    /\ db e2 = db e1
    /\ count "current_batch" processedStat (logger e1)
       = count "current_batch" processedStat (logger e) + 1
    /\ count "current_batch" duplicate (logger e1)
       = count "current_batch" duplicate (logger e)
    /\ count "current_batch" duplicate (logger e2)
       = count "current_batch" duplicate (logger e1) + 1
    /\ count "current_batch" processedStat (logger e2)
       = count "current_batch" processedStat (logger e1)
    /\ count "current_batch" errorStat (logger e2)
       = count "current_batch" errorStat (logger e).
Proof.
  intros Ht Hcolumns Hindexes Hwf Hfresh Hhash Hindex e1 e2.
  destruct (first_insert abi t Hcolumns Hindexes l1 (db e) Ht Hwf Hfresh)
    as (values & r & Hvalues & Hinsert & Hmatch).
  exists r. intros t1.
  assert (He1 : e1 = mkEnv (mkDatabase (<[tableNameOf (abi_name abi) := t1]> (tables (db e)))
                              (current_timestamp (db e)))
                       (record (SavedEvent (option_map (slice0 10) (transactionHash l1))
                                  (abi_name abi))
                          (trackStat "current_batch" processedStat (logger e)))).
  { subst e1. unfold saveLogToDatabase, saveLogToDatabase_try.
    unfold table_of in Ht.
    now rewrite Ht, (select_duplicates abi t Hcolumns), Hfresh, Hvalues, Hinsert. }
  assert (Ht1 : table_of (abi_name abi) e1 = Some t1).
  { rewrite He1. unfold table_of. cbn. apply lookup_insert_eq. }
  assert (Hrows1 : stored_rows t1 l1 = [r]).
  { unfold stored_rows in *. subst t1. cbn [tbl_rows].
    rewrite List.filter_app.
    change (List.filter (matches t (duplicate_key l1)) (tbl_rows t)
            ++ List.filter (matches t (duplicate_key l1)) [r] = [r])%list.
    rewrite Hfresh. cbn [List.filter app]. now rewrite Hmatch. }
  assert (Hrows2 : stored_rows t1 l2 = [r]).
  { unfold stored_rows, duplicate_key in *. now rewrite Hhash, Hindex. }
  assert (He2 : e2 = mkEnv (db e1)
                       (record (DuplicateSkipped (option_map (slice0 10) (transactionHash l2)))
                          (trackStat "current_batch" duplicate (logger e1)))).
  { subst e2. eapply (second_save abi t1); [exact Hcolumns | exact Ht1 | exact Hrows2]. }
  repeat split; trivial.
  - now rewrite He1.
  - now rewrite He2.
  - rewrite He1. cbn [logger]. rewrite count_record, count_trackStat. reflexivity.
  - rewrite He1. cbn [logger]. rewrite count_record, count_trackStat. lia.
  - rewrite He2. cbn [logger]. rewrite count_record, count_trackStat. reflexivity.
  - rewrite He2. cbn [logger]. rewrite count_record, count_trackStat. lia.
  - rewrite He2. cbn [logger]. rewrite count_record, count_trackStat.
    rewrite He1. cbn [logger]. rewrite count_record, count_trackStat. lia.
Qed.

Lemma saveLogToDatabase_idempotent_witness :
  let e := synthesized [transfer_event] "2024-01-01 00:00:00" in
  let t := mkTable (sch_columns (schema_of transfer_event))
             (sch_indexes (schema_of transfer_event)) [] 1 in
  let e1 := saveLogToDatabase transfer_log "Transfer" e in
  let e2 := saveLogToDatabase transfer_log "Transfer" e1 in
  exists r,
    let t1 := mkTable (tbl_columns t) (tbl_indexes t) (tbl_rows t ++ [r])
                (tbl_next_id t + 1) in
    db e1 = mkDatabase (<[tableNameOf "Transfer" := t1]> (tables (db e)))
              (current_timestamp (db e))
    /\ table_of "Transfer" e1 = Some t1
    /\ stored_rows t1 transfer_log = [r]
    /\ stored_rows t1 transfer_log = [r]
    /\ db e2 = db e1
    /\ count "current_batch" processedStat (logger e1)
       = count "current_batch" processedStat (logger e) + 1
    /\ count "current_batch" duplicate (logger e1)
       = count "current_batch" duplicate (logger e)
    /\ count "current_batch" duplicate (logger e2)
       = count "current_batch" duplicate (logger e1) + 1
    /\ count "current_batch" processedStat (logger e2)
       = count "current_batch" processedStat (logger e1)
    /\ count "current_batch" errorStat (logger e2)
       = count "current_batch" errorStat (logger e).
Proof.
  intros e t.
  apply (saveLogToDatabase_idempotent transfer_event transfer_log transfer_log e t);
    vm_compute; reflexivity.
Defined.

(** *** Synthesis, and what the column types do to stored values *)

Lemma eqb_append_prefix (p s1 s2 : string) :
  String.eqb (p +:+ s1) (p +:+ s2) = String.eqb s1 s2.
Proof.
  destruct (String.eqb_spec s1 s2) as [->|Hne]; [apply String.eqb_refl|].
  apply String.eqb_neq. intros H. apply Hne.
  induction p as [|c p IH]; [exact H|]. injection H as H. now apply IH.
Qed.

(** creating an index that is not there yet, over columns that exist and
    rows that do not clash, adds it to the table *)
Lemma create_index_new (tableName : string) (i : index) (d : database) (t : table) :
  tables d !! tableName = Some t ->
  has_index t (idx_name i) = false ->
  forallb (has_column t) (idx_columns i) = true ->
  idx_unique i && has_duplicate_key (idx_columns i) (tbl_rows t) = false ->
  create_index tableName i d
  = inr (mkDatabase
           (<[tableName := mkTable (tbl_columns t) (tbl_indexes t ++ [i])
                             (tbl_rows t) (tbl_next_id t)]> (tables d))
           (current_timestamp d)).
Proof.
  intros Ht Hnew Hcols Hrows. unfold create_index. rewrite Ht, Hnew, Hrows.
  destruct (List.find _ _) as [n|] eqn:Hfind; [|reflexivity].
  apply List.find_some in Hfind as [Hin Hn].
  rewrite forallb_forall in Hcols. now rewrite (Hcols n Hin) in Hn.
Qed.

(** synthesis into an empty store creates, for an event, the table that
    [schema_of] describes: its columns, its three indexes, no rows *)
Lemma synthesized_table (abi : AbiItem) (now : string) :
  abi_type abi = "event" ->
  table_of (abi_name abi) (synthesized [abi] now)
  = Some (mkTable (sch_columns (schema_of abi)) (sch_indexes (schema_of abi)) [] 1).
Proof.
  intros Hevent.
  unfold synthesized, generateDatabaseSchemas, table_of.
  cbn [List.filter List.map]. rewrite Hevent. cbn [String.eqb Ascii.eqb Bool.eqb].
  cbn [List.map List.fold_left snd db].
  unfold exec_schema, schema_of. cbn [sch_table sch_columns sch_indexes].
  set (T := tableNameOf (abi_name abi)).
  set (ps := param_columns 0 (abi_inputs abi)).
  unfold create_table, Sqlite.empty. cbn [tables current_timestamp].
  rewrite lookup_empty. cbn [create_indexes].
  erewrite create_index_new;
    [|apply lookup_insert_eq|reflexivity|reflexivity|reflexivity].
  cbn [tables current_timestamp tbl_columns tbl_indexes tbl_rows tbl_next_id app].
  rewrite insert_insert_eq.
  erewrite create_index_new;
    [|apply lookup_insert_eq| |reflexivity|reflexivity].
  2:{ cbn [has_index existsb tbl_indexes idx_name].
      now rewrite !eqb_append_prefix. }
  cbn [tables current_timestamp tbl_columns tbl_indexes tbl_rows tbl_next_id app].
  rewrite insert_insert_eq.
  erewrite create_index_new;
    [|apply lookup_insert_eq| |reflexivity|reflexivity].
  2:{ cbn [has_index existsb tbl_indexes idx_name].
      now rewrite !eqb_append_prefix. }
  cbn [tables current_timestamp tbl_columns tbl_indexes tbl_rows tbl_next_id app snd].
  rewrite insert_insert_eq. apply lookup_insert_eq.
Qed.

(** a log whose array argument holds bigints (a decoded [uint256[]]) is
    not stored: the serialization throws, the error is counted *)
Example bigint_array_not_stored :
  let abi := mkAbi "event" "Batch" [mkParam "uint256[]" false] in
  let l := mkLog (Some "0x6b175474e89094c44da98b954eedeac495271d0f") (Some "0xabc") (Some 100) (Some 0)
             [VArray [VBigInt 1; VBigInt 2]] in
  let e := saveLogToDatabase l "Batch" (synthesized [abi] "now") in
  option_map tbl_rows (table_of "Batch" e) = Some []
  /\ count "current_batch" errorStat (logger e) = 1
  /\ journal (logger e) = [SaveFailed "JSON.stringify cannot serialize BigInt."].
Proof. vm_compute. repeat split. Qed.

(** a [uint160] value beyond 64 bits, stored through the insert path and
    read back: the [INTEGER] column keeps a floating-point cell, and the
    query returns a number, not the decimal text *)
Example wide_integer_round_trip (JSON_parse : string -> option value) :
  let abi := mkAbi "event" "Price" [mkParam "uint160" false] in
  let l := mkLog (Some "0x6b175474e89094c44da98b954eedeac495271d0f") (Some "0xabc") (Some 100) (Some 0)
             [VBigInt 1461501637330902918203684832716283019655932542975] in
  let e := saveLogToDatabase l "Price" (synthesized [abi] "now") in
  List.map (cell "param_0_uint160") (tbl_rows (default (mkTable [] [] [] 0) (table_of "Price" e)))
  = [Some (SReal "1461501637330902918203684832716283019655932542975")]
  /\ List.map (List.filter (fun kv => String.eqb (fst kv) "param_0_uint160"))
       (match getLogsFromDatabase JSON_parse "Price" no_options e with
        | inr rows => rows
        | inl _ => []
        end)
     = [[("param_0_uint160", VDouble "1461501637330902918203684832716283019655932542975")]].
Proof. vm_compute. repeat split. Qed.

End DbClientFacts.

Module LogsFacts.
Import Js Json Logger Sqlite DbClient Logs.

Section DriverFacts.
Context {C : Type}.
Variable getLogs : string -> AbiItem -> Z -> Z -> C -> (thrown + list Log) * C.
Variables (contractAddress : string) (abi : AbiItem) (batchNumber maxRetries : Z).

Local Abbreviation run := (retry_loop getLogs).
Local Abbreviation fetch := (getContractLogs getLogs contractAddress abi).
Local Abbreviation fetched f t := (Fetched contractAddress (abi_name abi) f t).

(** one iteration of the loop *)
Lemma retry_loop_S (fuel : nat) (fromBlock toBlock retryCount : Z) (w : world C) :
  run (S fuel) contractAddress abi batchNumber maxRetries fromBlock toBlock retryCount w
  = if retryCount <=? maxRetries then
      let w0 := note (fetched fromBlock toBlock) w in
      match fetch fromBlock toBlock (chain w0) with
      | (inr logs, c') =>
          Some (inr tt, store_logs contractAddress abi batchNumber logs
                          (mkWorld c' (env_of w0)))
      | (inl error, c') =>
          catch_block
            (fun f t => run fuel contractAddress abi batchNumber maxRetries f t 0)
            (run fuel contractAddress abi batchNumber maxRetries fromBlock toBlock)
            fromBlock toBlock maxRetries retryCount error (mkWorld c' (env_of w0))
      end
    else Some (inr tt, w).
Proof.
  cbn [retry_loop]. destruct (retryCount <=? maxRetries); [|reflexivity].
  cbv zeta. now destruct (fetch _ _ _) as [[error|logs] c'].
Qed.

(** whatever the fuel, an outcome is a normal return *)
Lemma retry_loop_no_escape (fuel : nat) :
  forall fromBlock toBlock retryCount (w : world C) outcome w',
    run fuel contractAddress abi batchNumber maxRetries fromBlock toBlock retryCount w
    = Some (outcome, w') ->
    outcome = inr tt.
Proof.
  induction fuel as [|fuel IH]; intros f t rc w outcome w' Hrun; [discriminate|].
  rewrite retry_loop_S in Hrun.
  destruct (rc <=? maxRetries); [|now injection Hrun as <- _].
  cbv zeta in Hrun. destruct (fetch _ _ _) as [[error|logs] c'];
    [|now injection Hrun as <- _].
  unfold catch_block in Hrun.
  destruct (_ && _); [now apply IH in Hrun|].
  destruct (is_too_many_logs _).
  - destruct (f =? t); [now injection Hrun as <- _|].
    destruct (run fuel _ _ _ _ f _ 0 _) as [[[escaped|[]] w1]|] eqn:Hfirst;
      [|now apply IH in Hrun|discriminate].
    now apply IH in Hfirst.
  - destruct (_ >? _); [now injection Hrun as <- _|now apply IH in Hrun].
Qed.

(** the two halves of a range of more than one block *)
Lemma split_range_halves (a b : Z) :
  a < b ->
  let mid := a + (b - a) / 2 in
  a + Z.quot (b - a) 2 = mid
  /\ a <= mid /\ mid + 1 <= b
  /\ mid - a < b - a /\ b - (mid + 1) < b - a.
Proof.
  intros Hab mid. subst mid.
  rewrite Z.quot_div_nonneg by lia.
  pose proof (Z.div_mod (b - a) 2 ltac:(lia)).
  pose proof (Z.mod_pos_bound (b - a) 2 ltac:(lia)). lia.
Qed.

(** with enough fuel the loop returns, on every range that is not empty and
    whatever the chain client answers *)
Lemma retry_loop_returns (fuel : nat) :
  forall fromBlock toBlock retryCount (w : world C),
    fromBlock <= toBlock ->
    (enough fromBlock toBlock maxRetries retryCount <= fuel)%nat ->
    exists w',
      run fuel contractAddress abi batchNumber maxRetries fromBlock toBlock retryCount w
      = Some (inr tt, w').
Proof.
  induction fuel as [|fuel IH]; intros f t rc w Hft Hfuel.
  { unfold enough in Hfuel. lia. }
  rewrite retry_loop_S.
  destruct (Z.leb_spec rc maxRetries) as [Hrc|Hrc]; [|eauto].
  cbv zeta. destruct (fetch _ _ _) as [[error|logs] c']; [|eauto].
  assert (Hagain : (enough f t maxRetries (rc + 1) <= fuel)%nat).
  { unfold enough in *. lia. }
  unfold catch_block.
  destruct (_ && _); [now apply IH|].
  destruct (is_too_many_logs _).
  - destruct (Z.eqb_spec f t) as [|Hne]; [eauto|].
    destruct (split_range_halves f t ltac:(lia)) as (Hmid & H1 & H2 & H3 & H4).
    cbv zeta in *. rewrite Hmid.
    assert (Hhalf : forall f' t', f' <= t' -> t' - f' < t - f ->
              (enough f' t' maxRetries 0 <= fuel)%nat).
    { intros f' t' Hle Hlt. unfold enough in *.
      assert (Z.to_nat (t' - f') + 1 <= Z.to_nat (t - f))%nat by lia.
      nia. }
    destruct (IH f (f + (t - f) / 2) 0
                (note (SplittingRange f t) (mkWorld c' (env_of (note (fetched f t) w)))))
      as [w1 ->]; [lia | apply Hhalf; lia |].
    apply IH; [lia | apply Hhalf; lia].
  - destruct (_ >? _); [eauto | now apply IH].
Qed.


(** the split, for a failure that reaches the [catch] block with a message
    that passes its too-many-logs test (and to which the rate-limit retry
    does not apply): the driver splits [[a, b]] with [a < b] at
    [mid = a + floor((b - a) / 2)] and runs itself on [[a, mid]] and then on
    [[mid + 1, b]], each with a fresh retry count. The two halves cover
    [[a, b]] exactly once, each is strictly shorter than [[a, b]], and the
    run returns once it is given the fuel [enough] names. On a single block
    the same failure is not split: the block is skipped with a warning and
    the run returns. Which failures of the chain client reach the test with
    such a message is another matter. *)
Theorem too_many_logs_splits_range (fuel : nat) (a b retryCount : Z)
    (w : world C) (error : thrown) (c' : C) :
  a < b ->
  retryCount <= maxRetries ->
  fetch a b (chain w) = (inl error, c') ->
  is_too_many_logs (message_of error) = true ->
  is_rate_limit (message_of error) && (retryCount + 1 <=? maxRetries) = false ->
  let mid := a + (b - a) / 2 in
  let w0 := note (SplittingRange a b) (mkWorld c' (env_of (note (fetched a b) w))) in
  split_range a b = ((a, mid), (mid + 1, b))
  /\ run (S fuel) contractAddress abi batchNumber maxRetries a b retryCount w
     = match run fuel contractAddress abi batchNumber maxRetries a mid 0 w0 with
       | Some (inr _, w1) =>
           run fuel contractAddress abi batchNumber maxRetries (mid + 1) b 0 w1
       | Some (inl escaped, w1) => Some (inl escaped, w1)
       | None => None
       end
  /\ (a <= mid /\ mid + 1 <= b)
  /\ Seeder.chain a b [(a, mid); (mid + 1, b)]
  /\ Seeder.tiles a b [(a, mid); (mid + 1, b)]
  /\ Seeder.range_length (a, mid) < Seeder.range_length (a, b)
  /\ Seeder.range_length (mid + 1, b) < Seeder.range_length (a, b)
  /\ (forall fuel',
        (enough a b maxRetries retryCount <= fuel')%nat ->
        exists w',
          run fuel' contractAddress abi batchNumber maxRetries a b retryCount w
          = Some (inr tt, w'))
  /\ (forall fuel' x retryCount' (wx : world C) errorx cx,
        retryCount' <= maxRetries ->
        fetch x x (chain wx) = (inl errorx, cx) ->
        is_too_many_logs (message_of errorx) = true ->
        is_rate_limit (message_of errorx) && (retryCount' + 1 <=? maxRetries) = false ->
        run (S fuel') contractAddress abi batchNumber maxRetries x x retryCount' wx
        = Some (inr tt,
                note (SingleBlockSkipped x)
                  (mkWorld cx (env_of (note (fetched x x) wx))))).
Proof.
  intros Hab Hrc Hfetch Hmany Hrate mid w0.
  destruct (split_range_halves a b Hab) as (Hmid & H1 & H2 & H3 & H4).
  fold mid in Hmid, H1, H2, H3, H4.
  assert (Hchain : Seeder.chain a b [(a, mid); (mid + 1, b)]).
  { cbn. repeat split; lia. }
  split; [|split; [|split; [|split; [|split; [|split; [|split; [|split]]]]]]].
  - unfold split_range. now rewrite Hmid.
  - rewrite retry_loop_S.
    destruct (Z.leb_spec retryCount maxRetries); [|lia].
    cbv zeta. change (chain (note (fetched a b) w)) with (chain w). rewrite Hfetch.
    unfold catch_block. rewrite Hrate, Hmany.
    destruct (Z.eqb_spec a b); [lia|]. cbv zeta. rewrite Hmid. fold w0.
    now destruct (run fuel _ _ _ _ a mid 0 w0) as [[[escaped|[]] w1]|].
  - lia.
  - exact Hchain.
  - now apply SeederFacts.chain_tiles.
  - unfold Seeder.range_length; cbn; lia.
  - unfold Seeder.range_length; cbn; lia.
  - intros fuel' Hfuel. apply retry_loop_returns; [lia | exact Hfuel].
  - intros fuel' x rc wx ex cx Hrcx Hfx Hmx Hrx.
    rewrite retry_loop_S.
    destruct (Z.leb_spec rc maxRetries); [|lia].
    cbv zeta. change (chain (note (fetched x x) wx)) with (chain wx). rewrite Hfx.
    unfold catch_block. rewrite Hrx, Hmx. now rewrite Z.eqb_refl.
Qed.

(** C6: [processContractEventRange] never lets an exception out. On a
    range [[fromBlock, toBlock]] and for every chain client, whatever it
    answers and in whatever order, the run returns normally once it has the
    fuel [enough] names; and no run, on any input and with any fuel, ends
    in an exception. *)
Theorem processContractEventRange_never_throws (fuel : nat)
    (fromBlock toBlock : Z) (w : world C) :
  fromBlock <= toBlock ->
  (enough fromBlock toBlock maxRetries 0 <= fuel)%nat ->
  (exists w',
     processContractEventRange getLogs fuel contractAddress abi fromBlock toBlock
       batchNumber maxRetries w = Some (inr tt, w'))
  /\ (forall fuel' f t (w1 : world C) outcome w',
        processContractEventRange getLogs fuel' contractAddress abi f t
          batchNumber maxRetries w1 = Some (outcome, w') ->
        outcome = inr tt).
Proof.
  intros Hrange Hfuel. split.
  - now apply retry_loop_returns.
  - intros fuel' f t w1 outcome w' Hrun. now apply retry_loop_no_escape in Hrun.
Qed.

End DriverFacts.

Lemma sleeps_app (j1 j2 : list event) : sleeps (j1 ++ j2) = (sleeps j1 ++ sleeps j2)%list.
Proof. induction j1 as [|[] j1 IH]; cbn; rewrite ?IH; reflexivity. Qed.

Lemma fetches_app (j1 j2 : list event) : fetches (j1 ++ j2) = (fetches j1 ++ fetches j2)%list.
Proof. induction j1 as [|[] j1 IH]; cbn; rewrite ?IH; reflexivity. Qed.

Lemma failures_app (j1 j2 : list event) : failures (j1 ++ j2) = (failures j1 ++ failures j2)%list.
Proof. induction j1 as [|[] j1 IH]; cbn; rewrite ?IH; reflexivity. Qed.

Section RateLimit.
Context {C : Type}.
Variable getLogs : string -> AbiItem -> Z -> Z -> C -> (thrown + list Log) * C.
Variables (contractAddress : string) (abi : AbiItem) (batchNumber : Z).
Variables (fromBlock toBlock : Z).

Local Abbreviation fetched := (Fetched contractAddress (abi_name abi) fromBlock toBlock).

Hypothesis Hlimited :
  always_rate_limited getLogs contractAddress abi fromBlock toBlock.

(** a failed attempt that has retries left: warn, sleep [2^attempt]
    seconds, and go round the loop again *)
Lemma rate_limit_retry (fuel : nat) (maxRetries retryCount : Z) (w : world C) :
  retryCount + 1 <= maxRetries ->
  exists c',
    retry_loop getLogs (S fuel) contractAddress abi batchNumber maxRetries
      fromBlock toBlock retryCount w
    = retry_loop getLogs fuel contractAddress abi batchNumber maxRetries
        fromBlock toBlock (retryCount + 1)
        (note (Slept (2 ^ (retryCount + 1) * 1000))
           (note (RateLimitRetry (2 ^ (retryCount + 1) * 1000) (retryCount + 1) maxRetries)
              (mkWorld c' (env_of (note fetched w))))).
Proof.
  intros Hleft. rewrite retry_loop_S.
  destruct (Z.leb_spec retryCount maxRetries); [|lia].
  cbv zeta. destruct (Hlimited (chain (note fetched w))) as (error & c' & -> & Hrate & _).
  exists c'. unfold catch_block. rewrite Hrate.
  destruct (Z.leb_spec (retryCount + 1) maxRetries); [|lia]. reflexivity.
Qed.

(** the failed attempt after the last retry: log the failure and return *)
Lemma rate_limit_exhausted (fuel : nat) (maxRetries : Z) (w : world C) :
  exists c' message,
    retry_loop getLogs (S fuel) contractAddress abi batchNumber maxRetries
      fromBlock toBlock maxRetries w
    = Some (inr tt, note (GaveUp maxRetries message)
                      (mkWorld c' (env_of (note fetched w))))
    /\ is_rate_limit message = true.
Proof.
  rewrite retry_loop_S. rewrite Z.leb_refl.
  cbv zeta. destruct (Hlimited (chain (note fetched w))) as (error & c' & -> & Hrate & Hmany).
  exists c', (message_of error). unfold catch_block. rewrite Hmany.
  destruct (Z.leb_spec (maxRetries + 1) maxRetries); [lia|].
  rewrite andb_false_r.
  destruct (Z.gtb_spec (maxRetries + 1) maxRetries); [|lia]. now split.
Qed.

(** the exponential backoff, for failures that reach the [catch] block
    with a message that passes its rate-limit test: with [maxRetries = 3],
    the range is fetched four times in all: after each of the first three
    failures the driver warns and sleeps 2, 4 and 8 seconds, and after the
    fourth it logs the failure and returns normally, having written nothing
    to the store; the batch then goes on with the next event, from the
    world this unit left. Which failures of the chain client reach the test
    with such a message is another matter. *)
Theorem rate_limited_unit_gives_up (fuel : nat) (w : world C) :
  (4 <= fuel)%nat ->
  exists w' message,
    processContractEventRange getLogs fuel contractAddress abi fromBlock toBlock
      batchNumber 3 w = Some (inr tt, w')
    /\ journal_of w'
       = (journal_of w ++
          [ fetched; RateLimitRetry 2000 1 3; Slept 2000;
            fetched; RateLimitRetry 4000 2 3; Slept 4000;
            fetched; RateLimitRetry 8000 3 3; Slept 8000;
            fetched; GaveUp 3 message ])%list
    /\ sleeps (journal_of w') = (sleeps (journal_of w) ++ [2000; 4000; 8000])%list
    /\ List.length (fetches (journal_of w')) = (List.length (fetches (journal_of w)) + 4)%nat
    /\ failures (journal_of w') = (failures (journal_of w) ++ [3])%list
    /\ db (env_of w') = db (env_of w)
    /\ stats (logger (env_of w')) = stats (logger (env_of w))
    /\ (forall nextEvents,
          for_each_event getLogs fuel contractAddress (abi :: nextEvents)
            fromBlock toBlock batchNumber w
          = for_each_event getLogs fuel contractAddress nextEvents
              fromBlock toBlock batchNumber w').
Proof.
  intros Hfuel.
  enough (Hrun : exists w' message,
    processContractEventRange getLogs fuel contractAddress abi fromBlock toBlock
      batchNumber 3 w = Some (inr tt, w')
    /\ journal_of w'
       = (journal_of w ++
          [ fetched; RateLimitRetry 2000 1 3; Slept 2000;
            fetched; RateLimitRetry 4000 2 3; Slept 4000;
            fetched; RateLimitRetry 8000 3 3; Slept 8000;
            fetched; GaveUp 3 message ])%list
    /\ db (env_of w') = db (env_of w)
    /\ stats (logger (env_of w')) = stats (logger (env_of w))).
  { destruct Hrun as (w' & message & Hrun & Hjournal & Hdb & Hstats).
    exists w', message. split; [exact Hrun|]. split; [exact Hjournal|].
    rewrite Hjournal, sleeps_app, fetches_app, failures_app, List.length_app.
    repeat split; trivial.
    intros nextEvents. cbn [for_each_event]. now rewrite Hrun. }
  destruct fuel as [|[|[|[|fuel]]]]; try lia.
  unfold processContractEventRange.
  do 3 match goal with
       | |- context [retry_loop getLogs (S ?f) _ _ _ ?M _ _ ?rc ?w0] =>
           let c := fresh "c" in
           let Hc := fresh "Hc" in
           destruct (rate_limit_retry f M rc w0) as [c Hc]; [lia|];
           rewrite Hc; clear Hc
       end.
  change (2 ^ (0 + 1) * 1000) with 2000.
  change (2 ^ (0 + 1 + 1) * 1000) with 4000.
  change (2 ^ (0 + 1 + 1 + 1) * 1000) with 8000.
  change (0 + 1 + 1 + 1) with 3. change (0 + 1 + 1) with 2. change (0 + 1) with 1.
  match goal with
  | |- context [retry_loop getLogs (S ?f) _ _ _ ?M _ _ _ ?w0] =>
      destruct (rate_limit_exhausted f M w0) as (c4 & message & -> & _)
  end.
  eexists; exists message. split; [reflexivity|].
  unfold journal_of, note; cbn [env_of logger journal record db stats chain].
  repeat rewrite <- app_assoc. cbn [app].
  repeat split; reflexivity.
Qed.
End RateLimit.

Lemma too_many_logs_splits_range_witness :
  split_range 1 4 = ((1, 2), (3, 4))
  /\ Seeder.tiles 1 4 [(1, 2); (3, 4)]
  /\ exists w',
       retry_loop (always_failing "query returned too many logs") 20 dai
         transfer_event 1 3 1 4 0 (start tt) = Some (inr tt, w').
Proof.
  pose proof (too_many_logs_splits_range
                (always_failing "query returned too many logs") dai transfer_event 1 3
                0 1 4 0 (start tt)
                (ErrorObj ("Failed to fetch logs for Transfer on contract "
                           +:+ dai +:+ ": query returned too many logs")) tt
                ltac:(lia) ltac:(lia) eq_refl eq_refl eq_refl) as H.
  cbv zeta in H.
  destruct H as (Hsplit & _ & _ & _ & Htiles & _ & _ & Hreturns & _).
  split; [exact Hsplit|]. split; [exact Htiles|].
  apply Hreturns. vm_compute. lia.
Defined.

Lemma processContractEventRange_never_throws_witness :
  (exists w',
     processContractEventRange scripted 20 dai transfer_event 1 4 1 3
       (start mixed_script) = Some (inr tt, w'))
  /\ (forall fuel' f t (w1 : world (list (thrown + list Log))) outcome w',
        processContractEventRange scripted fuel' dai transfer_event f t 1 3 w1
        = Some (outcome, w') ->
        outcome = inr tt).
Proof.
  apply (processContractEventRange_never_throws scripted dai transfer_event 1 3
           20 1 4 (start mixed_script)); [lia | vm_compute; lia].
Defined.

Lemma rate_limited_unit_gives_up_witness :
  exists w' message,
    processContractEventRange (always_failing "HTTP request failed. Status: 429") 4
      dai transfer_event 1 100 1 3 (start tt) = Some (inr tt, w')
    /\ journal_of w'
       = (journal_of (start tt) ++
          [ Fetched dai "Transfer" 1 100; RateLimitRetry 2000 1 3; Slept 2000;
            Fetched dai "Transfer" 1 100; RateLimitRetry 4000 2 3; Slept 4000;
            Fetched dai "Transfer" 1 100; RateLimitRetry 8000 3 3; Slept 8000;
            Fetched dai "Transfer" 1 100; GaveUp 3 message ])%list
    /\ sleeps (journal_of w') = (sleeps (journal_of (start tt)) ++ [2000; 4000; 8000])%list
    /\ List.length (fetches (journal_of w'))
       = (List.length (fetches (journal_of (start tt))) + 4)%nat
    /\ failures (journal_of w') = (failures (journal_of (start tt)) ++ [3])%list
    /\ db (env_of w') = db (env_of (start tt))
    /\ stats (logger (env_of w')) = stats (logger (env_of (start tt)))
    /\ (forall nextEvents,
          for_each_event (always_failing "HTTP request failed. Status: 429") 4 dai
            (transfer_event :: nextEvents) 1 100 1 (start tt)
          = for_each_event (always_failing "HTTP request failed. Status: 429") 4 dai
              nextEvents 1 100 1 w').
Proof.
  apply (rate_limited_unit_gives_up (always_failing "HTTP request failed. Status: 429")
           dai transfer_event 1 1 100).
  - intros c. eexists _, _. vm_compute. repeat split.
  - lia.
Defined.

(** what the chain client's own wording of the two failures turns into:
    [getContractLogs] rewrites both messages, and the rewritten texts match
    neither test of the driver, which looks for the lower-case words *)
Remark rewritten_messages_not_recognised :
  fst (getContractLogs (always_failing "Log response size exceeded") dai
         transfer_event 1 100 tt)
  = inl (ErrorObj "Too many logs for range 1-100. Try smaller block range.")
  /\ is_too_many_logs "Too many logs for range 1-100. Try smaller block range." = false
  /\ fst (getContractLogs (always_failing "request exceeds the rate limit") dai
            transfer_event 1 100 tt)
     = inl (ErrorObj "Rate limit exceeded for range 1-100. Retrying with delay...")
  /\ is_rate_limit "Rate limit exceeded for range 1-100. Retrying with delay..." = false.
Proof. repeat split. Qed.

End LogsFacts.

(** ** Texts: search, digits, decimal numerals *)

Module StringFacts.
Import Js Vocabulary.

Lemma append_String (d : ascii) (s1 s2 : string) :
  String d s1 +:+ s2 = String d (s1 +:+ s2).
Proof. reflexivity. Qed.

Lemma append_Empty (s : string) : EmptyString +:+ s = s.
Proof. reflexivity. Qed.

Lemma append_Empty_r (s : string) : s +:+ EmptyString = s.
Proof. induction s as [|c s IH]; [reflexivity|]. now rewrite append_String, IH. Qed.

Lemma startsWith_occurs (c : ascii) (p s : string) :
  occurs c s = false -> startsWith s (String c p) = false.
Proof.
  destruct s as [|d s]; cbn; [reflexivity|].
  intros H. apply orb_false_iff in H as [-> _]. reflexivity.
Qed.

Lemma includes_occurs (c : ascii) (p s : string) :
  occurs c s = false -> includes s (String c p) = false.
Proof.
  induction s as [|d s IH]; intros H.
  - reflexivity.
  - cbn [includes]. rewrite (startsWith_occurs c p _ H).
    cbn in H. apply orb_false_iff in H as [_ H]. now apply IH.
Qed.

Lemma occurs_app (c : ascii) (s1 s2 : string) :
  occurs c (s1 +:+ s2) = occurs c s1 || occurs c s2.
Proof.
  induction s1 as [|d s1 IH]; [reflexivity|].
  rewrite append_String. cbn [occurs]. now rewrite IH, orb_assoc.
Qed.

Lemma all_digits_app (s1 s2 : string) :
  all_digits (s1 +:+ s2) = all_digits s1 && all_digits s2.
Proof.
  induction s1 as [|d s1 IH]; [reflexivity|].
  rewrite append_String. cbn [all_digits]. destruct (digit_of d); [exact IH|reflexivity].
Qed.

Lemma all_digits_occurs (c : ascii) (s : string) :
  digit_of c = None -> all_digits s = true -> occurs c s = false.
Proof.
  intros Hc. induction s as [|d s IH]; cbn; [reflexivity|].
  destruct (digit_of d) eqn:Hd; [|discriminate].
  intros H. rewrite (IH H), orb_false_r.
  destruct (Ascii.eqb_spec c d) as [->|]; [congruence|reflexivity].
Qed.


Lemma string_of_uint_digits (d : Decimal.uint) :
  all_digits (NilEmpty.string_of_uint d) = true.
Proof. induction d; cbn; auto. Qed.

Lemma digits_string_of_uint (d : Decimal.uint) :
  forall acc rest,
    digits acc (NilEmpty.string_of_uint d +:+ rest) = digits (uint_value acc d) rest.
Proof.
  induction d; intros acc rest; cbn [NilEmpty.string_of_uint uint_value];
    rewrite ?append_String, ?append_Empty; [reflexivity|..];
    cbn [digits]; (change (digit_of _) with (Some 0) || change (digit_of _) with (Some 1)
     || change (digit_of _) with (Some 2) || change (digit_of _) with (Some 3)
     || change (digit_of _) with (Some 4) || change (digit_of _) with (Some 5)
     || change (digit_of _) with (Some 6) || change (digit_of _) with (Some 7)
     || change (digit_of _) with (Some 8) || change (digit_of _) with (Some 9));
    apply IHd.
Qed.

Lemma uint_value_acc (d : Decimal.uint) :
  forall acc, uint_value (Z.pos acc) d = Z.pos (Pos.of_uint_acc d acc).
Proof.
  induction d; intros acc; cbn [uint_value Pos.of_uint_acc]; try reflexivity;
    (etransitivity; [|apply IHd]); f_equal; lia.
Qed.

Lemma uint_value_of_uint (d : Decimal.uint) :
  uint_value 0 d = Z.of_N (Pos.of_uint d).
Proof.
  induction d; cbn [uint_value Pos.of_uint]; try reflexivity; try exact IHd;
    cbn [Z.of_N]; rewrite <- uint_value_acc; reflexivity.
Qed.

Lemma uint_value_to_uint (p : positive) : uint_value 0 (Pos.to_uint p) = Z.pos p.
Proof. now rewrite uint_value_of_uint, DecimalPos.Unsigned.of_to. Qed.

(** the decimal text of a natural number: digits only, at least one, and
    read back by [digits] *)
Lemma string_of_Z_nonneg (n : Z) :
  0 <= n ->
  all_digits (string_of_Z n) = true
  /\ starts_with_digit (string_of_Z n) = true
  /\ forall rest, digits 0 (string_of_Z n +:+ rest) = digits n rest.
Proof.
  intros Hn. destruct n as [|p|p]; [| |lia].
  - repeat split.
  - unfold string_of_Z. cbn [Z.to_int NilZero.string_of_int].
    pose proof (DecimalPos.Unsigned.to_uint_nonnil p) as Hnil.
    pose proof (uint_value_to_uint p) as Hval.
    pose proof (string_of_uint_digits (Pos.to_uint p)) as Hdig.
    pose proof (digits_string_of_uint (Pos.to_uint p) 0) as Hread.
    destruct (Pos.to_uint p) eqn:Hd; try congruence;
      cbn [NilZero.string_of_uint];
      (split; [exact Hdig|]; split; [reflexivity|]);
      intros rest; rewrite Hread, Hval; reflexivity.
Qed.

(** the decimal text of any integer holds digits and at most a sign *)
Lemma string_of_Z_chars (c : ascii) (n : Z) :
  digit_of c = None -> c <> "-"%char -> occurs c (string_of_Z n) = false.
Proof.
  intros Hc Hm. destruct n as [|p|p].
  - apply all_digits_occurs; [exact Hc|reflexivity].
  - apply all_digits_occurs; [exact Hc|]. apply (string_of_Z_nonneg (Z.pos p)). lia.
  - unfold string_of_Z. cbn [Z.to_int NilZero.string_of_int].
    cbn [occurs]. destruct (Ascii.eqb_spec c "-"); [contradiction|]. cbn [orb].
    apply all_digits_occurs; [exact Hc|].
    pose proof (DecimalPos.Unsigned.to_uint_nonnil p) as Hnil.
    pose proof (string_of_uint_digits (Pos.to_uint p)) as Hdig.
    destruct (Pos.to_uint p); try congruence; exact Hdig.
Qed.

(** the first piece of a split is what stands before the separator *)
Lemma split_first (sep : ascii) (s rest : string) :
  occurs sep s = false ->
  fst (split sep (s +:+ String sep rest)) = s.
Proof.
  induction s as [|c s IH]; rewrite ?append_String, ?append_Empty;
    cbn [occurs split]; intros H.
  - destruct (split sep rest). now rewrite Ascii.eqb_refl.
  - apply orb_false_iff in H as [Hc H]. specialize (IH H).
    destruct (split sep (s +:+ String sep rest)) as [first others]. cbn in IH. subst first.
    rewrite Ascii.eqb_sym, Hc. reflexivity.
Qed.

Lemma trimStart_digit (s : string) : starts_with_digit s = true -> trimStart s = s.
Proof.
  destruct s as [|c s]; [discriminate|]. cbn. unfold digit_of, is_space.
  destruct ((48 <=? nat_of_ascii c)%nat && (nat_of_ascii c <=? 57)%nat) eqn:H; [|discriminate].
  intros _. apply andb_true_iff in H as [H1 H2].
  apply Nat.leb_le in H1, H2.
  destruct (Nat.leb_spec (nat_of_ascii c) 13); [lia|]. rewrite andb_false_r. cbn [orb].
  destruct (Nat.eqb_spec (nat_of_ascii c) 32); [lia|]. reflexivity.
Qed.

(** [parseInt] reads back the decimal text of a natural number *)
Lemma parseInt_string_of_Z (n : Z) : 0 <= n -> parseInt (string_of_Z n) = Some n.
Proof.
  intros Hn. destruct (string_of_Z_nonneg n Hn) as (Hdig & Hstart & Hread).
  unfold parseInt. rewrite (trimStart_digit _ Hstart).
  specialize (Hread EmptyString).
  rewrite append_Empty_r in Hread.
  destruct (string_of_Z n) as [|c s] eqn:Hs; [discriminate|].
  assert (Hc : exists k, digit_of c = Some k).
  { cbn in Hstart. destruct (digit_of c); [eauto|discriminate]. }
  destruct Hc as [k Hk].
  assert (c <> "-"%char /\ c <> "+"%char) as [Hm Hp].
  { split; intros ->; discriminate. }
  assert (Hbody : (let '(neg, body) :=
             match String c s with
             | String "-" r => (true, r)
             | String "+" r => (false, r)
             | _ => (false, String c s)
             end in
           if starts_with_digit body
           then Some (if neg then - fst (digits 0 body) else fst (digits 0 body))
           else None) = Some n).
  { destruct (Ascii.eqb_spec c "-") as [|_]; [contradiction|].
    destruct (Ascii.eqb_spec c "+") as [|_]; [contradiction|].
    destruct c as [[] [] [] [] [] [] [] []]; try contradiction;
      rewrite ?Hstart, ?Hread; try reflexivity; cbn in Hk; try discriminate. }
  exact Hbody.
Qed.

(** a search skips a prefix that lacks the first character sought *)
Lemma includes_skip (c : ascii) (p r s : string) :
  occurs c r = false -> includes (r +:+ s) (String c p) = includes s (String c p).
Proof.
  induction r as [|a r IH]; [reflexivity|].
  rewrite append_String. cbn [occurs]. intros H. apply orb_false_iff in H as [Hc H].
  cbn [includes startsWith]. rewrite Hc. cbn [orb]. now apply IH.
Qed.

(** what follows a text does not matter to a search for characters it
    does not start with *)
Lemma startsWith_app_other (d : ascii) (s' : string) (p : string) :
  occurs d p = false ->
  forall x, startsWith (x +:+ String d s') p = startsWith x p.
Proof.
  induction p as [|e p IH]; intros Hd x.
  - now destruct x.
  - cbn [occurs] in Hd. apply orb_false_iff in Hd as [He Hd].
    destruct x as [|a x].
    + rewrite append_Empty. cbn [startsWith]. rewrite Ascii.eqb_sym, He. reflexivity.
    + rewrite append_String. cbn [startsWith]. destruct (Ascii.eqb e a); [now apply IH|reflexivity].
Qed.

Lemma includes_app_other (d e : ascii) (s' p x : string) :
  occurs d (String e p) = false ->
  includes (String d s') (String e p) = false ->
  includes (x +:+ String d s') (String e p) = includes x (String e p).
Proof.
  intros Hd Hs. induction x as [|a x IH].
  - rewrite append_Empty, Hs. reflexivity.
  - rewrite append_String. cbn [includes]. rewrite IH.
    rewrite <- append_String, (startsWith_app_other d s' _ Hd). reflexivity.
Qed.

End StringFacts.

(** ** More on the range batcher *)

Module SeederMore.
Import Seeder SeederFacts.

(** X1: [loopThroughBlocks] on an interval with [lastBlock <= firstBlock]
    (a single block included) never invokes the callback: whatever the
    batch size and the fuel, it returns [lastBlock] at once, with the world
    untouched and no block counted as processed. *)
Theorem loopThroughBlocks_nothing_to_do {W}
    (cb : Z -> Z -> W -> (Js.thrown + unit) * W)
    (firstBlock lastBlock : Z) (size : option Z) (w : W) (fuel : nat) :
  lastBlock <= firstBlock ->
  loopThroughBlocks cb fuel firstBlock lastBlock size w = Some (mkRun lastBlock w [] 0).
Proof.
  intros Hle. unfold loopThroughBlocks. now rewrite while_loop_done by (cbn; lia).
Qed.

Lemma loopThroughBlocks_nothing_to_do_witness :
  loopThroughBlocks idle 5 100 100 (Some 10) tt = Some (mkRun 100 tt [] 0).
Proof. apply (loopThroughBlocks_nothing_to_do idle 100 100 (Some 10) tt 5). lia. Defined.

(** the loop, for the count of ranges and the progress counter *)
Lemma while_loop_progress {W} (cb : Z -> Z -> W -> (Js.thrown + unit) * W)
    (lastBlock batchSize : Z) :
  1 <= batchSize ->
  forall (fuel : nat) (st : loop_state) (w : W),
    nextBlock st < lastBlock ->
    currentBlock st <= lastBlock ->
    (Z.to_nat (lastBlock - currentBlock st) <= fuel)%nat ->
    (currentBlock st < lastBlock \/ (0 < fuel)%nat) ->
    exists st' w' rs,
      while_loop cb fuel lastBlock batchSize st w = Some (st', w', rs)
      /\ Z.of_nat (List.length rs) = (lastBlock - currentBlock st) / (batchSize + 1) + 1
      /\ processedBlocks st <= processedBlocks st'
         <= processedBlocks st + (lastBlock - currentBlock st + 1)
      /\ ((forall f t x, exists x', cb f t x = (inr tt, x')) ->
          processedBlocks st' = processedBlocks st + (lastBlock - currentBlock st + 1))
      /\ ((forall f t x, exists e x', cb f t x = (inl e, x')) ->
          processedBlocks st' = processedBlocks st).
Proof.
  intros Hbs fuel.
  induction fuel as [|fuel IH]; intros st w Hnext Hcur Hfuel Hpos.
  - exfalso. destruct Hpos as [Hlt|Hlt]; lia.
  - cbn [while_loop].
    destruct (Z.ltb_spec (nextBlock st) lastBlock) as [_|]; [|lia].
    set (next := if currentBlock st + batchSize >=? lastBlock
                 then lastBlock else currentBlock st + batchSize).
    destruct (cb (currentBlock st) next w) as [r w1] eqn:Hcb.
    set (done := match r with
                 | inl _ => processedBlocks st
                 | inr _ => processedBlocks st + (next - currentBlock st + 1)
                 end).
    set (st1 := mkLoop (next + 1) next done (batchCount st + 1)).
    assert (Hdone : processedBlocks st <= done
                    <= processedBlocks st + (next - currentBlock st + 1)
                    /\ ((forall f t x, exists x', cb f t x = (inr tt, x')) ->
                        done = processedBlocks st + (next - currentBlock st + 1))
                    /\ ((forall f t x, exists e x', cb f t x = (inl e, x')) ->
                        done = processedBlocks st)).
    { assert (currentBlock st <= next).
      { subst next. destruct (Z.geb_spec (currentBlock st + batchSize) lastBlock); lia. }
      subst done. split; [destruct r; lia|]. split.
      - intros Hok. destruct (Hok (currentBlock st) next w) as [x' Hx'].
        rewrite Hx' in Hcb. now injection Hcb as <- _.
      - intros Hko. destruct (Hko (currentBlock st) next w) as (e & x' & Hx').
        rewrite Hx' in Hcb. now injection Hcb as <- _. }
    destruct Hdone as (Hd1 & Hd2 & Hd3).
    destruct (Z.geb_spec (currentBlock st + batchSize) lastBlock) as [Hge|Hlt].
    + (* the last range *)
      subst next. rewrite while_loop_done by (subst st1; cbn; lia).
      exists st1, w1, [(currentBlock st, lastBlock)].
      split; [reflexivity|]. cbn [List.length processedBlocks st1].
      split; [|split; [lia|split; [intros H; rewrite (Hd2 H); lia|exact Hd3]]].
      rewrite Z.div_small by lia. reflexivity.
    + subst next.
      destruct (IH st1 w1) as (st' & w' & rs & Hrun & Hlen & Hp & Hok & Hko);
        subst st1; cbn [nextBlock currentBlock processedBlocks] in *; try lia.
      rewrite Hrun. exists st', w', ((currentBlock st, currentBlock st + batchSize) :: rs).
      split; [reflexivity|]. cbn [List.length].
      split; [|split; [lia|split]].
      * rewrite Nat2Z.inj_succ, Hlen.
        replace (lastBlock - currentBlock st)
          with (lastBlock - (currentBlock st + batchSize + 1) + 1 * (batchSize + 1)) by lia.
        rewrite Z.div_add by lia. lia.
      * intros H. rewrite (Hok H), (Hd2 H). lia.
      * intros H. rewrite (Hko H). exact (Hd3 H).
Qed.

(** X2: [loopThroughBlocks] on [firstBlock < lastBlock] with a batch
    size of at least [1] invokes the callback exactly
    [(lastBlock - firstBlock) / (batchSize + 1) + 1] times, whatever the
    callback does: a batch takes [batchSize + 1] blocks, and a throwing
    callback does not end the loop. *)
Theorem loopThroughBlocks_batch_count {W}
    (cb : Z -> Z -> W -> (Js.thrown + unit) * W)
    (firstBlock lastBlock batchSize : Z) (w : W) (fuel : nat) :
  firstBlock < lastBlock ->
  1 <= batchSize ->
  (Z.to_nat (lastBlock - firstBlock) <= fuel)%nat ->
  exists r,
    loopThroughBlocks cb fuel firstBlock lastBlock (Some batchSize) w = Some r
    /\ Z.of_nat (List.length (ranges r))
       = (lastBlock - firstBlock) / (batchSize + 1) + 1.
Proof.
  intros Hlt Hbs Hfuel. unfold loopThroughBlocks, batchSizeOf.
  destruct (Z.eqb_spec batchSize 0) as [|_]; [lia|].
  destruct (while_loop_progress cb lastBlock batchSize Hbs fuel
              (mkLoop firstBlock firstBlock 0 0) w)
    as (st' & w' & rs & Hrun & Hlen & _); cbn; try lia.
  rewrite Hrun. eexists; split; [reflexivity|]. exact Hlen.
Qed.

Lemma loopThroughBlocks_batch_count_witness :
  exists r,
    loopThroughBlocks idle 9 1 10 (Some 3) tt = Some r
    /\ Z.of_nat (List.length (ranges r)) = (10 - 1) / (3 + 1) + 1.
Proof. apply (loopThroughBlocks_batch_count idle 1 10 3 tt 9); [lia | lia | vm_compute; lia]. Defined.

(** X3: on an interval with [firstBlock < lastBlock] and with a batch
    size of at least [1], the progress counter [processedBlocks] of
    [loopThroughBlocks] ends between [0] and the number of blocks of the
    interval, [lastBlock - firstBlock + 1]; it ends at that number when the
    callback never throws, and at [0] when it always throws (a failed batch
    is not counted). *)
Theorem loopThroughBlocks_progress {W}
    (cb : Z -> Z -> W -> (Js.thrown + unit) * W)
    (firstBlock lastBlock batchSize : Z) (w : W) (fuel : nat) :
  firstBlock < lastBlock ->
  1 <= batchSize ->
  (Z.to_nat (lastBlock - firstBlock) <= fuel)%nat ->
  exists r,
    loopThroughBlocks cb fuel firstBlock lastBlock (Some batchSize) w = Some r
    /\ 0 <= processed r <= lastBlock - firstBlock + 1
    /\ ((forall f t x, exists x', cb f t x = (inr tt, x')) ->
        processed r = lastBlock - firstBlock + 1)
    /\ ((forall f t x, exists e x', cb f t x = (inl e, x')) ->
        processed r = 0).
Proof.
  intros Hlt Hbs Hfuel. unfold loopThroughBlocks, batchSizeOf.
  destruct (Z.eqb_spec batchSize 0) as [|_]; [lia|].
  destruct (while_loop_progress cb lastBlock batchSize Hbs fuel
              (mkLoop firstBlock firstBlock 0 0) w)
    as (st' & w' & rs & Hrun & _ & Hp & Hok & Hko); cbn; try lia.
  rewrite Hrun. eexists; split; [reflexivity|]. cbn in *.
  split; [lia|]. split; [intros H; rewrite (Hok H); lia | exact Hko].
Qed.

Lemma loopThroughBlocks_progress_witness :
  exists r,
    loopThroughBlocks idle 9 1 10 (Some 3) tt = Some r
    /\ 0 <= processed r <= 10 - 1 + 1
    /\ ((forall f t x, exists x', idle f t x = (inr tt, x')) ->
        processed r = 10 - 1 + 1)
    /\ ((forall f t x, exists e x', idle f t x = (inl e, x')) ->
        processed r = 0).
Proof. apply (loopThroughBlocks_progress idle 1 10 3 tt 9); [lia | lia | vm_compute; lia]. Defined.

(** with a negative batch size the loop condition stays true *)
Lemma while_loop_negative_size {W} (cb : Z -> Z -> W -> (Js.thrown + unit) * W)
    (firstBlock lastBlock batchSize : Z) :
  batchSize < 0 -> firstBlock < lastBlock ->
  forall (fuel : nat) (st : loop_state) (w : W),
    nextBlock st < lastBlock ->
    currentBlock st <= firstBlock ->
    while_loop cb fuel lastBlock batchSize st w = None.
Proof.
  intros Hbs Hlt fuel.
  induction fuel as [|fuel IH]; intros st w Hnext Hcur; cbn [while_loop];
    destruct (Z.ltb_spec (nextBlock st) lastBlock) as [_|]; try lia; [reflexivity|].
  destruct (Z.geb_spec (currentBlock st + batchSize) lastBlock); [lia|].
  destruct (cb _ _ w) as [r w1].
  now rewrite IH by (cbn; lia).
Qed.

(** X4: with a negative batch size (a bigint that is truthy, so it
    is taken as given) and [firstBlock < lastBlock], the loop of
    [loopThroughBlocks] never ends: [nextBlock] stays below [lastBlock], so no
    amount of fuel yields a result. *)
Theorem loopThroughBlocks_negative_size_diverges {W}
    (cb : Z -> Z -> W -> (Js.thrown + unit) * W)
    (firstBlock lastBlock batchSize : Z) (w : W) (fuel : nat) :
  batchSize < 0 ->
  firstBlock < lastBlock ->
  loopThroughBlocks cb fuel firstBlock lastBlock (Some batchSize) w = None.
Proof.
  intros Hbs Hlt. unfold loopThroughBlocks, batchSizeOf.
  destruct (Z.eqb_spec batchSize 0) as [|_]; [lia|].
  now rewrite (while_loop_negative_size cb firstBlock) by (cbn; lia).
Qed.

Lemma loopThroughBlocks_negative_size_diverges_witness :
  loopThroughBlocks idle 1000 1 10 (Some (-3)) tt = None.
Proof. apply (loopThroughBlocks_negative_size_diverges idle 1 10 (-3) tt 1000); lia. Defined.

End SeederMore.

(** ** More on the event store *)

Module DbClientMore.
Import Js Json Logger Sqlite DbClient Logs DbClientFacts Vocabulary StringFacts.

(** *** Formatting a value *)

(** a traversal that returns made every step return *)
Lemma elements_inr {A} (f : A -> thrown + string) (l : list A) (parts : list string) :
  elements f l = inr parts -> Forall (fun x => exists s, f x = inr s) l.
Proof.
  revert parts. induction l as [|x l IH]; intros parts H; constructor; cbn in H;
    destruct (f x) as [|sx]; try discriminate;
    destruct (elements f l) as [|sl]; try discriminate; eauto.
Qed.

Lemma members_inr {A} (f : A -> thrown + string) (u : A -> bool)
    (l : list (string * A)) (parts : list string) :
  members f u l = inr parts ->
  Forall (fun kv => u (snd kv) = true \/ exists s, f (snd kv) = inr s) l.
Proof.
  revert parts. induction l as [|[k x] l IH]; intros parts H; constructor; cbn in *;
    destruct (u x); eauto;
    destruct (f x) as [|sx]; try discriminate;
    destruct (members f u l) as [|sl]; try discriminate; eauto.
Qed.

(** [JSON.stringify] returns a text only on a value without bigints *)
Lemma JSON_stringify_inr :
  forall v s, JSON_stringify v = inr s -> serializable v = true.
Proof.
  fix IH 1. intros [ | | b | n | lit | n | s0 | items | fields] s H;
    cbn in *; try reflexivity; try discriminate.
  - destruct (elements JSON_stringify items) as [|parts] eqn:He; [discriminate|].
    apply elements_inr in He. clear H.
    induction items as [|x items IHitems]; [reflexivity|].
    cbn. apply Forall_cons_1 in He as [[sx Hx] He].
    rewrite (IH x sx Hx). now apply IHitems.
  - destruct (members JSON_stringify is_undefined fields) as [|parts] eqn:He; [discriminate|].
    apply members_inr in He. clear H.
    induction fields as [|[k x] fields IHfields]; [reflexivity|].
    cbn. apply Forall_cons_1 in He as [Hx He]. cbn in Hx.
    rewrite (IHfields He), andb_true_r.
    destruct Hx as [Hu|[sx Hx]]; [now destruct x|exact (IH x sx Hx)].
Qed.

Lemma elements_inl {A} (f : A -> thrown + string) (l : list A) (e : thrown) :
  elements f l = inl e -> Exists (fun x => f x = inl e) l.
Proof.
  induction l as [|x l IH]; cbn; [discriminate|].
  destruct (f x) as [e'|sx] eqn:Hx.
  - intros [= ->]. now constructor.
  - destruct (elements f l) as [e'|sl]; [|discriminate].
    intros [= ->]. constructor 2. now apply IH.
Qed.

Lemma members_inl {A} (f : A -> thrown + string) (u : A -> bool)
    (l : list (string * A)) (e : thrown) :
  members f u l = inl e -> Exists (fun kv => f (snd kv) = inl e) l.
Proof.
  induction l as [|[k x] l IH]; cbn; [discriminate|].
  destruct (u x); [intros H; constructor 2; now apply IH|].
  destruct (f x) as [e'|sx] eqn:Hx.
  - intros [= ->]. now constructor.
  - destruct (members f u l) as [e'|sl]; [|discriminate].
    intros [= ->]. constructor 2. now apply IH.
Qed.

(** the one exception [JSON.stringify] throws on these values *)
Lemma JSON_stringify_inl :
  forall v e, JSON_stringify v = inl e ->
    e = ErrorObj "JSON.stringify cannot serialize BigInt.".
Proof.
  fix IH 1. intros [ | | b | n | lit | n | s0 | items | fields] e H;
    cbn in *; try discriminate.
  - congruence.
  - destruct (elements JSON_stringify items) as [e'|parts] eqn:He; [|discriminate].
    injection H as ->. apply elements_inl in He.
    induction items as [|x items IHitems]; [inversion He|].
    apply Exists_cons in He as [Hx|He]; [exact (IH x e Hx)|now apply IHitems].
  - destruct (members JSON_stringify is_undefined fields) as [e'|parts] eqn:He; [|discriminate].
    injection H as ->. apply members_inl in He.
    induction fields as [|[k x] fields IHfields]; [inversion He|].
    apply Exists_cons in He as [Hx|He]; [exact (IH x e Hx)|now apply IHfields].
Qed.

(** [formatValueForSql] returns only on a formattable value *)
Lemma formatValueForSql_inr (v v' : value) :
  formatValueForSql v = inr v' -> formattable v = true.
Proof.
  destruct v; try reflexivity; intros H.
  - destruct (JSON_stringify (VArray items)) as [e|s] eqn:Hs.
    + unfold formatValueForSql in H. rewrite Hs in H. discriminate.
    + exact (JSON_stringify_inr _ _ Hs).
  - destruct (JSON_stringify (VObject fields)) as [e|s] eqn:Hs.
    + unfold formatValueForSql in H. rewrite Hs in H. discriminate.
    + exact (JSON_stringify_inr _ _ Hs).
Qed.

Lemma formatValueForSql_inl (v : value) (e : thrown) :
  formatValueForSql v = inl e -> e = ErrorObj "JSON.stringify cannot serialize BigInt.".
Proof.
  destruct v; try discriminate; intros H.
  - destruct (JSON_stringify (VArray items)) as [e'|s] eqn:Hs;
      unfold formatValueForSql in H; rewrite Hs in H; [|discriminate].
    injection H as ->. exact (JSON_stringify_inl _ _ Hs).
  - destruct (JSON_stringify (VObject fields)) as [e'|s] eqn:Hs;
      unfold formatValueForSql in H; rewrite Hs in H; [|discriminate].
    injection H as ->. exact (JSON_stringify_inl _ _ Hs).
Qed.

Lemma formatValueForSql_primitive (v v' : value) :
  formatValueForSql v = inr v' ->
  match v' with
  | VNull | VBool _ | VNumber _ | VDouble _ | VString _ => True
  | _ => False
  end.
Proof.
  destruct v; intros H;
    try (injection H as <-; exact I).
  - destruct (JSON_stringify (VArray items)) as [e'|s] eqn:Hs;
      unfold formatValueForSql in H; rewrite Hs in H; [discriminate|].
    now injection H as <-.
  - destruct (JSON_stringify (VObject fields)) as [e'|s] eqn:Hs;
      unfold formatValueForSql in H; rewrite Hs in H; [discriminate|].
    now injection H as <-.
Qed.

(** X5: [formatValueForSql] returns exactly on the formattable values
    (anything but an array or an object that holds a bigint); on the others
    it throws the [TypeError] of [JSON.stringify]; and what it returns is
    [null], a boolean, a number or a string, which the engine binds. *)
Theorem formatValueForSql_formattable (v : value) :
  ((exists v', formatValueForSql v = inr v') <-> formattable v = true)
  /\ (formattable v = false ->
      formatValueForSql v = inl (ErrorObj "JSON.stringify cannot serialize BigInt."))
  /\ (forall v', formatValueForSql v = inr v' ->
        (exists b, bind v' = inr b)
        /\ match v' with
           | VNull | VBool _ | VNumber _ | VDouble _ | VString _ => True
           | _ => False
           end).
Proof.
  split; [split|split].
  - intros [v' Hv']. exact (formatValueForSql_inr _ _ Hv').
  - intros Hf. destruct (formatValueForSql_ok v Hf) as (v' & Hv' & _). eauto.
  - intros Hf. destruct (formatValueForSql v) as [e|v'] eqn:H.
    + now rewrite (formatValueForSql_inl _ _ H).
    + rewrite (formatValueForSql_inr _ _ H) in Hf. discriminate.
  - intros v' H. pose proof (formatValueForSql_primitive _ _ H) as Hp.
    split; [|exact Hp]. destruct v'; try contradiction; eexists; reflexivity.
Qed.

(** X6: the value [saveLogToDatabase] pushes for the column
    [param_i_type] that [generateDatabaseSchemas] names for the [i]-th input
    is the [i]-th argument of the log, formatted by [formatValueForSql], and
    [null] when the log has no such argument: the index is read back from
    the column's name, whatever the type's text. *)
Theorem value_for_param_column (l : Log) (i : nat) (input : AbiParameter) :
  value_for l (columnName i input)
  = match args l !! i with
    | None | Some VUndefined => inr VNull
    | Some arg => formatValueForSql arg
    end.
Proof.
  unfold value_for, columnName.
  rewrite !append_String, !append_Empty.
  cbn [String.eqb Ascii.eqb Bool.eqb startsWith substring_from].
  replace (startsWith _ EmptyString) with true by (now destruct (string_of_Z (Z.of_nat i) +:+ _)).
  destruct (string_of_Z_nonneg (Z.of_nat i)) as (Hdig & _); [lia|].
  rewrite split_first by (apply all_digits_occurs; [reflexivity|exact Hdig]).
  rewrite parseInt_string_of_Z by lia.
  unfold arg_at. destruct (Z.ltb_spec (Z.of_nat i) 0) as [|_]; [lia|].
  rewrite Nat2Z.id. destruct (args l !! i) as [[]|]; reflexivity.
Qed.

(** *** Saving a log *)

(** the three ways a save into an existing table ends *)
Lemma saveLogToDatabase_cases (l : Log) (eventName : string) (e : env) (t : table) :
  table_of eventName e = Some t ->
  saveLogToDatabase l eventName e
  = mkEnv (db e)
      (record (DuplicateSkipped (option_map (slice0 10) (transactionHash l)))
         (trackStat "current_batch" duplicate (logger e)))
  \/ (exists message,
        saveLogToDatabase l eventName e
        = mkEnv (db e)
            (record (SaveFailed message) (trackStat "current_batch" errorStat (logger e))))
  \/ (exists values bound,
        let names := List.filter insertable (List.map col_name (tbl_columns t)) in
        let r := List.map (new_cell (current_timestamp (db e)) (tbl_next_id t)
                             (combine names bound)) (tbl_columns t) in
        select_where t (duplicate_key l) = inr []
        /\ values_for l names = inr values
        /\ bind_all values = inr bound
        /\ violates_notnull t r = None
        /\ violates_unique t r = None
        /\ saveLogToDatabase l eventName e
           = mkEnv (mkDatabase
                      (<[tableNameOf eventName :=
                           mkTable (tbl_columns t) (tbl_indexes t) (tbl_rows t ++ [r])
                             (tbl_next_id t + 1)]> (tables (db e)))
                      (current_timestamp (db e)))
               (record (SavedEvent (option_map (slice0 10) (transactionHash l)) eventName)
                  (trackStat "current_batch" processedStat (logger e)))).
Proof.
  unfold table_of. intros Ht. unfold saveLogToDatabase, saveLogToDatabase_try.
  rewrite Ht.
  destruct (select_where t (duplicate_key l)) as [err|[|r0 rows]] eqn:Hsel;
    [right; left; eauto | | left; eauto].
  destruct (values_for l _) as [err|values] eqn:Hvalues; [right; left; eauto|].
  unfold insert_into. rewrite Ht.
  destruct (List.find _ (List.filter insertable _)); [right; left; eauto|].
  destruct (bind_all values) as [err|bound] eqn:Hbound; [right; left; eauto|].
  destruct (violates_notnull t _) eqn:Hnn; [right; left; eauto|].
  destruct (violates_unique t _) eqn:Hun; [right; left; eauto|].
  right; right. do 2 eexists. cbv zeta. repeat (split; [eassumption || reflexivity|]).
  reflexivity.
Qed.

Lemma same_key_sym (columns : list string) (r1 r2 : row) :
  same_key columns r1 r2 = same_key columns r2 r1.
Proof.
  unfold same_key. induction columns as [|c columns IH]; cbn; [reflexivity|].
  rewrite IH. destruct (cell c r1), (cell c r2); try reflexivity.
  now rewrite sql_eq_sym.
Qed.

Lemma has_duplicate_key_snoc (columns : list string) (rows : list row) (r : row) :
  has_duplicate_key columns (rows ++ [r])
  = has_duplicate_key columns rows || existsb (same_key columns r) rows.
Proof.
  induction rows as [|r' rows IH]; cbn; [reflexivity|].
  rewrite IH, existsb_app. cbn. rewrite (same_key_sym columns r' r).
  destruct (existsb (same_key columns r') rows), (same_key columns r r'),
    (has_duplicate_key columns rows), (existsb (same_key columns r) rows); reflexivity.
Qed.

(** appending a row that the unique indexes accept keeps the keys apart *)
Lemma unique_index_snoc (t : table) (r : row) (i : index) :
  In i (tbl_indexes t) ->
  idx_unique i = true ->
  violates_unique t r = None ->
  has_duplicate_key (idx_columns i) (tbl_rows t) = false ->
  has_duplicate_key (idx_columns i) (tbl_rows t ++ [r]) = false.
Proof.
  intros Hin Hu Hv Hd. rewrite has_duplicate_key_snoc, Hd.
  pose proof (List.find_none _ _ Hv i Hin) as Hi. cbn beta in Hi.
  now rewrite Hu in Hi.
Qed.

Lemma lookup_table_insert (d : gmap string table) (name : string) (t : table) :
  <[name := t]> d !! name = Some t.
Proof. apply lookup_insert_eq. Qed.

(** X7: a save into a table that does not exist does nothing at all
    (no counter, no journal entry). A save into an existing table raises
    exactly one of the three counters of the current batch by one, keeps the
    table's columns and indexes, touches no other table, and appends exactly
    one row when, and only when, it counts the log as processed. *)
Theorem saveLogToDatabase_accounting (l : Log) (eventName : string) (e : env) :
  let e' := saveLogToDatabase l eventName e in
  let total x :=
    count "current_batch" duplicate (logger x)
    + count "current_batch" processedStat (logger x)
    + count "current_batch" errorStat (logger x) in
  (table_of eventName e = None -> e' = e)
  /\ (forall t, table_of eventName e = Some t ->
        total e' = total e + 1
        /\ exists t',
             table_of eventName e' = Some t'
             /\ tbl_columns t' = tbl_columns t
             /\ tbl_indexes t' = tbl_indexes t
             /\ ((tbl_rows t' = tbl_rows t
                  /\ count "current_batch" processedStat (logger e')
                     = count "current_batch" processedStat (logger e))
                 \/ (exists r, tbl_rows t' = (tbl_rows t ++ [r])%list
                     /\ count "current_batch" processedStat (logger e')
                        = count "current_batch" processedStat (logger e) + 1)))
  /\ (forall name, name <> tableNameOf eventName ->
        tables (db e') !! name = tables (db e) !! name)
  /\ current_timestamp (db e') = current_timestamp (db e).
Proof.
  cbv zeta. split; [|split; [|split]].
  - unfold table_of, saveLogToDatabase, saveLogToDatabase_try. now intros ->.
  - intros t Ht.
    destruct (saveLogToDatabase_cases l eventName e t Ht)
      as [->|[[ev ->]|(values & bound & _ & _ & _ & _ & _ & ->)]];
      cbn [logger db]; rewrite !count_record, !count_trackStat.
    + split; [lia|]. exists t. repeat split; try assumption. left. split; [reflexivity|lia].
    + split; [lia|]. exists t. repeat split; try assumption. left. split; [reflexivity|lia].
    + split; [lia|]. eexists. unfold table_of. cbn [db tables].
      rewrite lookup_table_insert. split; [reflexivity|]. cbn [tbl_columns tbl_indexes tbl_rows].
      repeat split. right. eexists. split; [reflexivity|lia].
  - intros name Hname.
    destruct (table_of eventName e) as [t|] eqn:Ht.
    + destruct (saveLogToDatabase_cases l eventName e t Ht)
        as [->|[[ev ->]|(values & bound & _ & _ & _ & _ & _ & ->)]];
        cbn [logger db tables]; try reflexivity.
      now rewrite lookup_insert_ne.
    + unfold table_of in Ht. unfold saveLogToDatabase, saveLogToDatabase_try.
      now rewrite Ht.
  - destruct (table_of eventName e) as [t|] eqn:Ht.
    + destruct (saveLogToDatabase_cases l eventName e t Ht)
        as [->|[[ev ->]|(values & bound & _ & _ & _ & _ & _ & ->)]];
        reflexivity.
    + unfold table_of in Ht. unfold saveLogToDatabase, saveLogToDatabase_try.
      now rewrite Ht.
Qed.

(** what the loop over the logs of a batch keeps, it keeps one log at a
    time: a property of the store that every save keeps, and the two
    reports of a rejected log, holds after the loop *)
Lemma process_logs_invariant (P : env -> Prop) (abi : AbiItem) :
  (forall l e, P e -> P (saveLogToDatabase l (abi_name abi) e)) ->
  (forall m e, P e -> P (mkEnv (db e) (record (InvalidLogReported m) (logger e)))) ->
  (forall m e, P e -> P (mkEnv (db e) (record (ProcessLogFailed m) (logger e)))) ->
  forall logs e, P e -> P (process_logs logs abi e).
Proof.
  intros Hsave Hinvalid Hfailed logs.
  induction logs as [|l logs IH]; intros e He; [exact He|].
  cbn [process_logs]. unfold processEventLog.
  destruct (missing_string _ || missing_bigint _).
  - destruct (JSON_stringify (log_object l)); apply IH;
      apply (Hfailed _ (mkEnv _ _)); apply Hinvalid; exact He.
  - apply IH. now apply Hsave.
Qed.

(** X8: the rows of a table with a unique index stay apart on the
    columns of that index, whatever logs [processEventLog] is given, in any
    order and any number of times: the store never holds two rows with the
    same [(transaction_hash, log_index)]. *)
Theorem stored_keys_stay_unique (logs : list Log) (abi : AbiItem) (e : env)
    (t : table) (i : index) :
  table_of (abi_name abi) e = Some t ->
  In i (tbl_indexes t) ->
  idx_unique i = true ->
  has_duplicate_key (idx_columns i) (tbl_rows t) = false ->
  exists t',
    table_of (abi_name abi) (process_logs logs abi e) = Some t'
    /\ In i (tbl_indexes t')
    /\ has_duplicate_key (idx_columns i) (tbl_rows t') = false.
Proof.
  intros Ht Hin Hu Hd.
  apply (process_logs_invariant
           (fun e => exists t', table_of (abi_name abi) e = Some t'
                                /\ In i (tbl_indexes t')
                                /\ has_duplicate_key (idx_columns i) (tbl_rows t') = false));
    [| | |eauto].
  - clear t Ht Hin Hd. intros l e0 (t & Ht & Hin & Hd).
    destruct (saveLogToDatabase_cases l (abi_name abi) e0 t Ht)
      as [->|[[ev ->]|(values & bound & _ & _ & _ & _ & Hv & ->)]];
      [exists t; auto..|].
    eexists. unfold table_of. cbn [db tables]. rewrite lookup_table_insert.
    split; [reflexivity|]. cbn [tbl_indexes tbl_rows]. split; [exact Hin|].
    now apply unique_index_snoc.
  - intros m e0 (t' & Ht' & H'). exists t'. split; [exact Ht'|exact H'].
  - intros m e0 (t' & Ht' & H'). exists t'. split; [exact Ht'|exact H'].
Qed.


(** the cell of a row under the name of the column it was built for *)
Lemma cell_new_row (now : string) (id : Z) (given : list (string * sqlval))
    (columns : list column) (c : column) :
  In c columns ->
  exists c', In c' columns /\ col_name c' = col_name c
    /\ cell (col_name c) (List.map (new_cell now id given) columns)
       = Some (snd (new_cell now id given c')).
Proof.
  induction columns as [|c0 columns IH]; [contradiction|].
  intros Hin. cbn [List.map cell new_cell fst snd].
  destruct (String.eqb_spec (col_name c0) (col_name c)) as [Heq|Hne].
  - exists c0. split; [now left|]. split; [exact Heq|reflexivity].
  - destruct Hin as [->|Hin]; [contradiction|].
    destruct (IH Hin) as (c' & Hin' & Hname & Hcell).
    exists c'. split; [now right|]. split; [exact Hname|exact Hcell].
Qed.

(** X9: a log that lacks its address, its transaction hash or its
    block number is never stored in a synthesized table: the store is left
    as it was and the log is not counted as processed. *)
Theorem incomplete_log_not_stored (abi : AbiItem) (l : Log) (e : env) (t : table) :
  table_of (abi_name abi) e = Some t ->
  tbl_columns t = sch_columns (schema_of abi) ->
  address l = None \/ transactionHash l = None \/ blockNumber l = None ->
  db (saveLogToDatabase l (abi_name abi) e) = db e
  /\ count "current_batch" processedStat (logger (saveLogToDatabase l (abi_name abi) e))
     = count "current_batch" processedStat (logger e).
Proof.
  intros Ht Hc Hmissing.
  destruct (saveLogToDatabase_cases l (abi_name abi) e t Ht)
    as [->|[[ev ->]|(values & bound & _ & Hvalues & Hbound & Hnn & _ & _)]];
    cbn [db logger]; rewrite ?count_record, ?count_trackStat; [split; [reflexivity|lia]..|].
  exfalso. cbv zeta in *.
  unfold schema_of in Hc. cbn [sch_columns] in Hc.
  set (ps := param_columns 0 (abi_inputs abi)) in *.
  rewrite Hc, insertable_schema_columns in Hvalues.
  unfold violates_notnull in Hnn. rewrite Hc, insertable_schema_columns in Hnn.
  cbn [values_for] in Hvalues.
  replace (value_for l "contract_address") with (@inr thrown _ (js_string (address l)))
    in Hvalues by reflexivity.
  replace (value_for l "transaction_hash") with (@inr thrown _ (js_string (transactionHash l)))
    in Hvalues by reflexivity.
  replace (value_for l "block_number")
    with (@inr thrown _ (match blockNumber l with Some n => VBigInt n | None => VUndefined end))
    in Hvalues by reflexivity.
  replace (value_for l "log_index") with (@inr thrown _ (VNumber (logIndex_or_0 l)))
    in Hvalues by reflexivity.
  destruct (values_for l _) as [|vs]; [discriminate|].
  injection Hvalues as <-. cbn [bind_all] in Hbound.
  destruct (bind (js_string (address l))) as [|b1] eqn:H1; [discriminate|].
  destruct (bind (js_string (transactionHash l))) as [|b2] eqn:H2; [discriminate|].
  destruct (bind (match blockNumber l with Some n => VBigInt n | None => VUndefined end))
    as [|b3] eqn:H3; [discriminate|].
  cbn [bind] in Hbound. destruct (bind_all vs) as [|bs]; [discriminate|].
  injection Hbound as <-.
  cbn [List.find app fixed_columns List.map] in Hnn.
  cbn in Hnn.
  destruct Hmissing as [Hm|[Hm|Hm]]; rewrite Hm in *; cbn in *.
  - injection H1 as <-. cbn in Hnn. discriminate.
  - injection H2 as <-. destruct b1; cbn in Hnn; discriminate.
  - injection H3 as <-. destruct b1, b2; cbn in Hnn; discriminate.
Qed.

(** *** Queries *)



Section Sorting.
Variable leb : row -> row -> bool.
Hypothesis leb_total : forall r1 r2, leb r1 r2 = false -> leb r2 r1 = true.


Lemma length_insert_sorted (r : row) (l : list row) :
  List.length (insert_sorted leb r l) = S (List.length l).
Proof.
  induction l as [|r' l IH]; cbn; [reflexivity|].
  destruct (leb r r'); cbn; [reflexivity|]. now rewrite IH.
Qed.






End Sorting.


Lemma length_order_by (c : string) (d : direction) (l : list row) :
  List.length (order_by c d l) = List.length l.
Proof.
  unfold order_by. induction l as [|r l IH]; cbn; [reflexivity|].
  now rewrite length_insert_sorted, IH.
Qed.











Section QueryMoreFacts.
Variable JSON_parse : string -> option value.





End QueryMoreFacts.

(** *** Saving, then querying *)


Section SavedRow.
Variables (abi : AbiItem) (t : table).
Hypothesis Hcolumns : tbl_columns t = sch_columns (schema_of abi).
Hypothesis Hindexes : tbl_indexes t = sch_indexes (schema_of abi).


End SavedRow.

Section SaveThenQuery.
Variable JSON_parse : string -> option value.



End SaveThenQuery.

(** *** Schema synthesis *)

Lemma database_eq (d : database) (m : gmap string table) :
  tables d = m -> d = mkDatabase m (current_timestamp d).
Proof. destruct d. cbn. now intros ->. Qed.

(** the statements of an index list change the one table they name *)
Lemma create_indexes_settle (tableName : string) (l : list index) :
  forall (d : database) (t : table),
    tables d !! tableName = Some t ->
    snd (create_indexes tableName l d)
    = mkDatabase (<[tableName := add_indexes l t]> (tables d)) (current_timestamp d).
Proof.
  induction l as [|i l IH]; intros d t Ht; cbn [create_indexes add_indexes].
  - cbn [snd]. apply database_eq. symmetry. now apply insert_id.
  - unfold create_index. rewrite Ht.
    destruct (has_index t (idx_name i)); [now apply IH|].
    destruct (List.find _ (idx_columns i)).
    { cbn [snd]. apply database_eq. symmetry. now apply insert_id. }
    destruct (idx_unique i && _).
    { cbn [snd]. apply database_eq. symmetry. now apply insert_id. }
    erewrite IH by (cbn [tables]; apply lookup_insert_eq).
    cbn [tables current_timestamp]. now rewrite insert_insert_eq.
Qed.

(** the statements of a schema change the one table they name *)
Lemma exec_schema_settle (s : schema) (d : database) :
  snd (exec_schema s d)
  = mkDatabase (<[sch_table s := settle s (tables d !! sch_table s)]> (tables d))
      (current_timestamp d).
Proof.
  unfold exec_schema, create_table, settle.
  destruct (tables d !! sch_table s) as [t|] eqn:Ht.
  - now apply create_indexes_settle.
  - erewrite create_indexes_settle by (cbn [tables]; apply lookup_insert_eq).
    cbn [tables current_timestamp]. now rewrite insert_insert_eq.
Qed.

Lemma extends_refl (t : table) : extends t t.
Proof. repeat split. exists []. now rewrite app_nil_r. Qed.

Lemma extends_trans (t1 t2 t3 : table) : extends t1 t2 -> extends t2 t3 -> extends t1 t3.
Proof.
  intros (Hc & Hr & Hn & a & Hi) (Hc' & Hr' & Hn' & a' & Hi').
  repeat split; try congruence. exists (a ++ a')%list.
  now rewrite Hi', Hi, <- app_assoc.
Qed.

Lemma add_indexes_extends (l : list index) : forall t, extends t (add_indexes l t).
Proof.
  induction l as [|i l IH]; intros t; cbn [add_indexes]; [apply extends_refl|].
  destruct (has_index t (idx_name i)); [apply IH|].
  destruct (List.find _ _); [apply extends_refl|].
  destruct (idx_unique i && _); [apply extends_refl|].
  eapply extends_trans; [|apply IH].
  repeat split. now exists [i].
Qed.

Lemma extends_has_index (t t' : table) (name : string) :
  extends t t' -> has_index t name = true -> has_index t' name = true.
Proof.
  intros (_ & _ & _ & a & Hi). unfold has_index. rewrite Hi, existsb_app.
  now intros ->.
Qed.

Lemma add_indexes_idempotent (l : list index) :
  forall t, add_indexes l (add_indexes l t) = add_indexes l t.
Proof.
  induction l as [|i l IH]; intros t; [reflexivity|].
  cbn [add_indexes].
  destruct (has_index t (idx_name i)) eqn:Hi.
  - cbn [add_indexes].
    now rewrite (extends_has_index t _ _ (add_indexes_extends l t) Hi).
  - destruct (List.find _ _) eqn:Hf.
    { cbn [add_indexes]. now rewrite Hi, Hf. }
    destruct (idx_unique i && _) eqn:Hd.
    { cbn [add_indexes]. now rewrite Hi, Hf, Hd. }
    set (t1 := mkTable _ _ _ _). cbn [add_indexes].
    rewrite (extends_has_index t1 _ _ (add_indexes_extends l t1)); [apply IH|].
    unfold has_index. subst t1. cbn [tbl_indexes]. rewrite existsb_app. cbn.
    now rewrite String.eqb_refl, orb_true_r.
Qed.

Lemma settle_idempotent (s : schema) (o : option table) :
  settle s (Some (settle s o)) = settle s o.
Proof. unfold settle. apply add_indexes_idempotent. Qed.

(** the indexes of a synthesized schema are told by the table's name *)
Lemma schema_of_indexes (abi abi' : AbiItem) :
  sch_table (schema_of abi) = sch_table (schema_of abi') ->
  sch_indexes (schema_of abi) = sch_indexes (schema_of abi').
Proof. unfold schema_of. cbn [sch_table sch_indexes]. now intros ->. Qed.

(** the statements of all the schemas, run in turn *)
Local Abbreviation exec_all ss d :=
  (List.fold_left (fun d s => snd (exec_schema s d)) ss d).

Lemma exec_schema_stable (s : schema) (d : database) :
  snd (exec_schema s d) = d
  <-> tables d !! sch_table s = Some (settle s (tables d !! sch_table s)).
Proof.
  rewrite exec_schema_settle. split.
  - intros H. apply (f_equal (fun d => tables d !! sch_table s)) in H.
    cbn [tables] in H. now rewrite lookup_insert_eq in H.
  - intros H. symmetry. apply database_eq. symmetry. now apply insert_id.
Qed.

Lemma exec_schema_twice (s : schema) (d : database) :
  snd (exec_schema s (snd (exec_schema s d))) = snd (exec_schema s d).
Proof.
  apply exec_schema_stable. rewrite exec_schema_settle. cbn [tables].
  now rewrite lookup_insert_eq, settle_idempotent.
Qed.

Lemma exec_schema_keeps_stable (abi abi' : AbiItem) (d : database) :
  snd (exec_schema (schema_of abi) d) = d ->
  snd (exec_schema (schema_of abi) (snd (exec_schema (schema_of abi') d)))
  = snd (exec_schema (schema_of abi') d).
Proof.
  intros H. apply exec_schema_stable in H. apply exec_schema_stable.
  rewrite exec_schema_settle. cbn [tables].
  destruct (String.eqb_spec (sch_table (schema_of abi')) (sch_table (schema_of abi)))
    as [Heq|Hne].
  - rewrite Heq, lookup_insert_eq.
    destruct (tables d !! sch_table (schema_of abi)) as [t0|]; [|discriminate].
    assert (Hs : settle (schema_of abi') (Some t0) = settle (schema_of abi) (Some t0)).
    { unfold settle. now rewrite (schema_of_indexes abi' abi Heq). }
    rewrite Hs. injection H as H. now rewrite <- !H.
  - now rewrite lookup_insert_ne.
Qed.

Lemma exec_all_keeps_stable (abi : AbiItem) (l : list AbiItem) :
  forall d,
    snd (exec_schema (schema_of abi) d) = d ->
    snd (exec_schema (schema_of abi) (exec_all (List.map schema_of l) d))
    = exec_all (List.map schema_of l) d.
Proof.
  induction l as [|abi' l IH]; intros d H; [exact H|].
  cbn [List.map List.fold_left]. apply IH. now apply exec_schema_keeps_stable.
Qed.

Lemma exec_all_stable (l : list AbiItem) :
  forall d,
    Forall (fun abi =>
              snd (exec_schema (schema_of abi) (exec_all (List.map schema_of l) d))
              = exec_all (List.map schema_of l) d) l.
Proof.
  induction l as [|abi l IH]; intros d; constructor.
  - cbn [List.map List.fold_left]. apply exec_all_keeps_stable, exec_schema_twice.
  - apply IH.
Qed.

Lemma exec_all_fixed (l : list AbiItem) (d : database) :
  Forall (fun abi => snd (exec_schema (schema_of abi) d) = d) l ->
  exec_all (List.map schema_of l) d = d.
Proof.
  induction 1 as [|abi l H _ IH]; [reflexivity|].
  cbn [List.map List.fold_left]. now rewrite H.
Qed.

(** X13: synthesizing the schemas of the same events again changes
    nothing: it returns the same schemas and leaves the store that the first
    synthesis left, whatever the store held before. *)
Theorem generateDatabaseSchemas_idempotent (abis : list AbiItem) (e : env) :
  generateDatabaseSchemas abis (snd (generateDatabaseSchemas abis e))
  = generateDatabaseSchemas abis e.
Proof.
  unfold generateDatabaseSchemas. cbn [snd db logger]. f_equal. f_equal.
  apply exec_all_fixed, exec_all_stable.
Qed.

(** the store after the statements of some schemas: every table that was
    there is still there, with more indexes at most *)
Lemma exec_all_extends (ss : list schema) :
  forall d name t,
    tables d !! name = Some t ->
    exists t', tables (exec_all ss d) !! name = Some t' /\ extends t t'.
Proof.
  induction ss as [|s ss IH]; intros d name t Ht; cbn [List.fold_left].
  - exists t. split; [exact Ht|apply extends_refl].
  - destruct (String.eqb_spec (sch_table s) name) as [Heq|Hne].
    + destruct (IH (snd (exec_schema s d)) name (settle s (Some t))) as (t' & Ht' & He).
      { rewrite exec_schema_settle. cbn [tables]. subst name.
        now rewrite lookup_insert_eq, Ht. }
      exists t'. split; [exact Ht'|].
      eapply extends_trans; [|exact He]. apply add_indexes_extends.
    + apply IH. rewrite exec_schema_settle. cbn [tables].
      now rewrite lookup_insert_ne.
Qed.

Lemma exec_all_timestamp (ss : list schema) :
  forall d, current_timestamp (exec_all ss d) = current_timestamp d.
Proof.
  induction ss as [|s ss IH]; intros d; cbn [List.fold_left]; [reflexivity|].
  rewrite IH, exec_schema_settle. reflexivity.
Qed.

(** a table that the statements created has no rows *)
Lemma exec_all_new (ss : list schema) :
  forall d name t',
    tables d !! name = None ->
    tables (exec_all ss d) !! name = Some t' ->
    tbl_rows t' = [] /\ tbl_next_id t' = 1
    /\ exists s, In s ss /\ sch_table s = name /\ tbl_columns t' = sch_columns s.
Proof.
  induction ss as [|s ss IH]; intros d name t' Hd Ht'; cbn [List.fold_left] in Ht'.
  - congruence.
  - destruct (String.eqb_spec (sch_table s) name) as [Heq|Hne].
    + destruct (exec_all_extends ss (snd (exec_schema s d)) name (settle s None))
        as (t'' & Ht'' & Hc & Hr & Hn & _).
      { rewrite exec_schema_settle. cbn [tables]. subst name.
        now rewrite lookup_insert_eq, Hd. }
      rewrite Ht' in Ht''. injection Ht'' as <-.
      destruct (add_indexes_extends (sch_indexes s) (mkTable (sch_columns s) [] [] 1))
        as (Hc0 & Hr0 & Hn0 & _).
      fold (settle s None) in Hc0, Hr0, Hn0.
      rewrite Hr, Hn, Hc, Hr0, Hn0, Hc0. cbn.
      repeat split. exists s. split; [now left|]. split; [exact Heq|reflexivity].
    + destruct (IH (snd (exec_schema s d)) name t') as (Hr & Hn & s' & Hin & Hs');
        [|exact Ht'|].
      { rewrite exec_schema_settle. cbn [tables]. now rewrite lookup_insert_ne. }
      split; [exact Hr|]. split; [exact Hn|]. exists s'. split; [now right|exact Hs'].
Qed.

Lemma exec_all_creates (ss : list schema) (s : schema) :
  In s ss -> forall d, exists t, tables (exec_all ss d) !! sch_table s = Some t.
Proof.
  induction ss as [|s0 ss IH]; [contradiction|].
  intros [->|Hin] d; cbn [List.fold_left]; [|now apply IH].
  destruct (exec_all_extends ss (snd (exec_schema s d)) (sch_table s)
              (settle s (tables d !! sch_table s))) as (t' & Ht' & _); [|eauto].
  rewrite exec_schema_settle. cbn [tables]. now rewrite lookup_insert_eq.
Qed.

(** X14: [generateDatabaseSchemas] loses nothing: a table that exists
    keeps its columns, its rows and its next id and gains indexes at most (so
    an event whose inputs changed keeps its old columns); the logger is not
    touched; every event of the list has a table afterwards; and a table that
    was created is empty, starts its ids at [1], and is the table of an event
    of the list. *)
Theorem generateDatabaseSchemas_keeps_data (abis : list AbiItem) (e : env) :
  let e' := snd (generateDatabaseSchemas abis e) in
  logger e' = logger e
  /\ current_timestamp (db e') = current_timestamp (db e)
  /\ (forall name t, tables (db e) !! name = Some t ->
        exists t', tables (db e') !! name = Some t' /\ extends t t')
  /\ (forall abi, In abi abis -> abi_type abi = "event" ->
        exists t', table_of (abi_name abi) e' = Some t')
  /\ (forall name t', tables (db e) !! name = None ->
        tables (db e') !! name = Some t' ->
        tbl_rows t' = [] /\ tbl_next_id t' = 1
        /\ exists abi, In abi abis /\ abi_type abi = "event"
             /\ tableNameOf (abi_name abi) = name).
Proof.
  cbv zeta. unfold generateDatabaseSchemas, table_of. cbn [snd db logger].
  split; [reflexivity|]. split; [apply exec_all_timestamp|].
  split; [intros name t; apply exec_all_extends|]. split.
  - intros abi Hin Hevent.
    apply (exec_all_creates _ (schema_of abi)).
    apply List.in_map, List.filter_In. split; [exact Hin|].
    rewrite Hevent. reflexivity.
  - intros name t' Hd Ht'.
    destruct (exec_all_new _ _ _ _ Hd Ht') as (Hr & Hn & s & Hin & Hname & _).
    split; [exact Hr|]. split; [exact Hn|].
    apply List.in_map_iff in Hin as (abi & <- & Hin).
    apply List.filter_In in Hin as [Hin Hevent].
    exists abi. split; [exact Hin|]. split; [now apply String.eqb_eq|exact Hname].
Qed.

(** *** The arguments of a log in their columns *)

(** the index of a parameter column is read back from its name *)
Lemma columnName_index (i : nat) (input : AbiParameter) :
  parseInt (fst (split "_" (substring_from 6 (columnName i input)))) = Some (Z.of_nat i).
Proof.
  unfold columnName. rewrite !append_String, !append_Empty. cbn [substring_from].
  destruct (string_of_Z_nonneg (Z.of_nat i)) as (Hdig & _); [lia|].
  rewrite split_first by (apply all_digits_occurs; [reflexivity|exact Hdig]).
  apply parseInt_string_of_Z. lia.
Qed.

Lemma columnName_inj (i j : nat) (x y : AbiParameter) :
  columnName i x = columnName j y -> i = j.
Proof.
  intros H. pose proof (columnName_index i x) as Hi. rewrite H, columnName_index in Hi.
  injection Hi as Hi. lia.
Qed.

Lemma columnName_not_fixed (i : nat) (input : AbiParameter) (name : string) :
  In name ["id"; "contract_address"; "transaction_hash"; "block_number"; "log_index";
           "timestamp"] ->
  String.eqb name (columnName i input) = false.
Proof.
  unfold columnName. rewrite append_String.
  intros [<-|[<-|[<-|[<-|[<-|[<-|[]]]]]]]; reflexivity.
Qed.

Lemma columnName_insertable (i : nat) (input : AbiParameter) :
  insertable (columnName i input) = true.
Proof.
  unfold insertable.
  rewrite (String.eqb_sym _ "id"), (String.eqb_sym _ "timestamp").
  rewrite !columnName_not_fixed by (cbn; auto). reflexivity.
Qed.

(** the value pushed for the column of the [i]-th input *)
Lemma value_for_param_column_eq (l : Log) (i : nat) (input : AbiParameter) :
  value_for l (columnName i input)
  = match args l !! i with
    | None | Some VUndefined => inr VNull
    | Some arg => formatValueForSql arg
    end.
Proof.
  unfold value_for. rewrite columnName_index.
  assert (Hp : startsWith (columnName i input) "param_" = true).
  { unfold columnName. rewrite !append_String, !append_Empty.
    cbn [startsWith Ascii.eqb Bool.eqb]. now destruct (string_of_Z _ +:+ _). }
  rewrite Hp, !(String.eqb_sym (columnName i input)),
    !columnName_not_fixed by (cbn; auto 10).
  unfold arg_at. destruct (Z.ltb_spec (Z.of_nat i) 0) as [|_]; [lia|].
  rewrite Nat2Z.id. destruct (args l !! i) as [[]|]; reflexivity.
Qed.

Lemma param_columns_insertable (inputs : list AbiParameter) :
  forall k, List.filter insertable (List.map col_name (param_columns k inputs))
            = List.map col_name (param_columns k inputs).
Proof.
  induction inputs as [|input inputs IH]; intros k; [reflexivity|].
  cbn [param_columns List.map List.filter col_name].
  now rewrite columnName_insertable, IH.
Qed.

(** among the parameter columns, the one of the [i]-th input comes first
    under its name *)
Lemma cell_param_given (inputs : list AbiParameter) :
  forall (k i : nat) (input : AbiParameter) (bs : list sqlval) (b : sqlval),
    inputs !! i = Some input ->
    bs !! i = Some b ->
    cell (columnName (k + i) input)
      (combine (List.map col_name (param_columns k inputs)) bs) = Some b.
Proof.
  induction inputs as [|input0 inputs IH]; intros k i input bs b Hi Hb; [discriminate|].
  destruct bs as [|b0 bs]; [discriminate|].
  cbn [param_columns List.map col_name combine cell].
  destruct i as [|i]; cbn in Hi, Hb.
  - injection Hi as ->. injection Hb as ->. now rewrite Nat.add_0_r, String.eqb_refl.
  - destruct (String.eqb_spec (columnName k input0) (columnName (k + S i) input)) as [Heq|_].
    + apply columnName_inj in Heq. lia.
    + replace (k + S i)%nat with (S k + i)%nat by lia. now apply IH.
Qed.

Lemma cell_param_row (f : column -> string * sqlval) (inputs : list AbiParameter) :
  (forall c, fst (f c) = col_name c) ->
  forall (k i : nat) (input : AbiParameter),
    inputs !! i = Some input ->
    cell (columnName (k + i) input) (List.map f (param_columns k inputs))
    = Some (snd (f (mkColumn (columnName (k + i) input)
                      (getSqlTypeFromEthType (param_type input)) false NoDefault))).
Proof.
  intros Hf. induction inputs as [|input0 inputs IH]; intros k i input Hi; [discriminate|].
  cbn [param_columns List.map cell].
  destruct (f (mkColumn (columnName k input0) _ _ _)) as [name v] eqn:Hc.
  pose proof (Hf (mkColumn (columnName k input0)
                    (getSqlTypeFromEthType (param_type input0)) false NoDefault)) as Hname.
  rewrite Hc in Hname. cbn in Hname. subst name.
  destruct i as [|i]; cbn in Hi.
  - injection Hi as ->. rewrite Nat.add_0_r, String.eqb_refl. now rewrite Hc.
  - destruct (String.eqb_spec (columnName k input0) (columnName (k + S i) input)) as [Heq|_].
    + apply columnName_inj in Heq. lia.
    + replace (k + S i)%nat with (S k + i)%nat by lia. now apply IH.
Qed.

Lemma values_for_lookup (l : Log) (columns : list string) :
  forall (vs : list value) (i : nat) (c : string),
    values_for l columns = inr vs ->
    columns !! i = Some c ->
    exists v, vs !! i = Some v /\ value_for l c = inr v.
Proof.
  induction columns as [|c0 columns IH]; intros vs i c Hvs Hc; [discriminate|].
  cbn [values_for] in Hvs.
  destruct (value_for l c0) as [|v0] eqn:Hv0; [discriminate|].
  destruct (values_for l columns) as [|vs0] eqn:Hvs0; [discriminate|].
  injection Hvs as <-. destruct i as [|i]; cbn in Hc.
  - injection Hc as <-. exists v0. now split.
  - apply (IH vs0 i c eq_refl Hc).
Qed.

Lemma bind_all_lookup (vs : list value) :
  forall (bs : list sqlval) (i : nat) (v : value),
    bind_all vs = inr bs ->
    vs !! i = Some v ->
    exists b, bs !! i = Some b /\ bind v = inr b.
Proof.
  induction vs as [|v0 vs IH]; intros bs i v Hbs Hv; [discriminate|].
  cbn [bind_all] in Hbs.
  destruct (bind v0) as [|b0] eqn:Hb0; [discriminate|].
  destruct (bind_all vs) as [|bs0] eqn:Hbs0; [discriminate|].
  injection Hbs as <-. destruct i as [|i]; cbn in Hv.
  - injection Hv as <-. exists b0. now split.
  - apply (IH bs0 i v eq_refl Hv).
Qed.

Lemma param_columns_lookup (inputs : list AbiParameter) :
  forall (k i : nat) (input : AbiParameter),
    inputs !! i = Some input ->
    List.map col_name (param_columns k inputs) !! i = Some (columnName (k + i) input).
Proof.
  induction inputs as [|input0 inputs IH]; intros k i input Hi; [discriminate|].
  cbn [param_columns List.map col_name]. destruct i as [|i]; cbn in *.
  - injection Hi as ->. now rewrite Nat.add_0_r.
  - replace (k + S i)%nat with (S k + i)%nat by lia. now apply IH.
Qed.

(** the engine reads the decimal text of a natural number as that number *)
Lemma integer_literal_string_of_Z (n : Z) :
  0 <= n -> integer_literal (string_of_Z n) = Some n.
Proof.
  intros Hn. destruct (string_of_Z_nonneg n Hn) as (Hdig & Hstart & Hread).
  unfold integer_literal.
  specialize (Hread EmptyString). rewrite append_Empty_r in Hread.
  destruct (string_of_Z n) as [|c s] eqn:Hs; [discriminate|].
  assert (Hc : exists k, digit_of c = Some k).
  { cbn in Hstart. destruct (digit_of c); [eauto|discriminate]. }
  destruct Hc as [k Hk].
  assert (c <> "-"%char /\ c <> "+"%char) as [Hm Hp].
  { split; intros ->; discriminate. }
  destruct c as [[] [] [] [] [] [] [] []]; try contradiction;
    rewrite ?Hstart, ?Hread; try reflexivity; cbn in Hk; try discriminate.
Qed.

Section StoredRow.
Variables (abi : AbiItem) (t : table).
Hypothesis Hcolumns : tbl_columns t = sch_columns (schema_of abi).
Hypothesis Hindexes : tbl_indexes t = sch_indexes (schema_of abi).

(** the save of a well-formed log that is not stored yet, with the values
    it binds and the row the engine builds from them *)
Lemma fresh_save_row (l : Log) (e : env) :
  table_of (abi_name abi) e = Some t ->
  well_formed l = true ->
  stored_rows t l = [] ->
  exists values bound,
    let names := List.filter insertable (List.map col_name (tbl_columns t)) in
    values_for l names = inr values
    /\ bind_all values = inr bound
    /\ db (saveLogToDatabase l (abi_name abi) e)
       = mkDatabase
           (<[tableNameOf (abi_name abi) :=
                mkTable (tbl_columns t) (tbl_indexes t)
                  (tbl_rows t
                   ++ [List.map (new_cell (current_timestamp (db e)) (tbl_next_id t)
                                   (combine names bound)) (tbl_columns t)])
                  (tbl_next_id t + 1)]> (tables (db e)))
           (current_timestamp (db e)).
Proof.
  intros Ht Hwf Hfresh.
  destruct (first_insert abi t Hcolumns Hindexes l (db e) Ht Hwf Hfresh)
    as (values & r & Hvalues & Hinsert & _).
  destruct (values_for_ok l (List.filter insertable (List.map col_name (tbl_columns t))) Hwf)
    as (vs & bs & Hvs & Hbs).
  rewrite Hvalues in Hvs. injection Hvs as <-.
  exists values, bs. cbv zeta. split; [exact Hvalues|]. split; [exact Hbs|].
  unfold saveLogToDatabase, saveLogToDatabase_try. unfold table_of in Ht.
  rewrite Ht, (select_duplicates abi t Hcolumns), Hfresh, Hvalues, Hinsert. cbn [db].
  unfold insert_into in Hinsert. rewrite Ht, insertable_columns_exist, Hbs in Hinsert.
  destruct (violates_notnull t _); [discriminate|].
  destruct (violates_unique t _); [discriminate|].
  now injection Hinsert as <-.
Qed.

(** X15: what the row of a first save holds in the column of the
    [i]-th input, for a well-formed log in a synthesized table: a bigint in a
    [TEXT] column is kept as its decimal text; a natural bigint in an
    [INTEGER] column is kept as that integer when it fits 64 bits and turned
    into a floating-point cell when it does not; a string in a [TEXT] column
    is kept; a boolean in a [BOOLEAN] column becomes [1] or [0]; and a
    missing argument is stored as [NULL]. *)
Theorem stored_argument (l : Log) (e : env) (i : nat) (input : AbiParameter) :
  table_of (abi_name abi) e = Some t ->
  well_formed l = true ->
  stored_rows t l = [] ->
  abi_inputs abi !! i = Some input ->
  exists r,
    option_map tbl_rows (table_of (abi_name abi) (saveLogToDatabase l (abi_name abi) e))
    = Some (tbl_rows t ++ [r])%list
    /\ let stored := cell (columnName i input) r in
       let sqlType := getSqlTypeFromEthType (param_type input) in
       (forall n, args l !! i = Some (VBigInt n) -> sqlType = "TEXT" ->
          stored = Some (SText (string_of_Z n)))
       /\ (forall n, args l !! i = Some (VBigInt n) -> sqlType = "INTEGER" -> 0 <= n ->
             stored = Some (if fits_int64 n then SInteger n else SReal (string_of_Z n)))
       /\ (forall s, args l !! i = Some (VString s) -> sqlType = "TEXT" ->
             stored = Some (SText s))
       /\ (forall b, args l !! i = Some (VBool b) -> sqlType = "BOOLEAN" ->
             stored = Some (SInteger (if b then 1 else 0)))
       /\ (args l !! i = None -> stored = Some SNull).
Proof.
  intros Ht Hwf Hfresh Hinput.
  destruct (fresh_save_row l e Ht Hwf Hfresh) as (values & bound & Hvalues & Hbound & Hdb).
  cbv zeta in *. eexists. unfold table_of. rewrite Hdb. cbn [tables].
  rewrite lookup_insert_eq. cbn [option_map tbl_rows]. split; [reflexivity|].
  pose proof Hcolumns as Hc. unfold schema_of in Hc. cbn [sch_columns] in Hc.
  set (ps := param_columns 0 (abi_inputs abi)) in *.
  rewrite Hc, insertable_schema_columns in Hvalues |- *.
  unfold ps in Hvalues |- *. rewrite param_columns_insertable in Hvalues |- *. fold ps in Hvalues |- *.
  cbn [values_for] in Hvalues.
  destruct (value_for l "contract_address") as [|v1]; [discriminate|].
  destruct (value_for l "transaction_hash") as [|v2]; [discriminate|].
  destruct (value_for l "block_number") as [|v3]; [discriminate|].
  destruct (value_for l "log_index") as [|v4]; [discriminate|].
  destruct (values_for l (List.map col_name ps)) as [|vs] eqn:Hvs; [discriminate|].
  injection Hvalues as <-. cbn [bind_all] in Hbound.
  destruct (bind v1) as [|b1]; [discriminate|]. destruct (bind v2) as [|b2]; [discriminate|].
  destruct (bind v3) as [|b3]; [discriminate|]. destruct (bind v4) as [|b4]; [discriminate|].
  destruct (bind_all vs) as [|bs] eqn:Hbs; [discriminate|].
  injection Hbound as <-.
  pose proof (param_columns_lookup (abi_inputs abi) 0 i input Hinput) as Hname.
  cbn [Nat.add] in Hname. fold ps in Hname.
  destruct (values_for_lookup l _ vs i _ Hvs Hname) as (v & Hv & Hvalue).
  destruct (bind_all_lookup vs bs i v Hbs Hv) as (b & Hb & Hbind).
  set (given := combine _ _).
  assert (Hgiven : cell (columnName i input) given = Some b).
  { subst given. cbn [combine cell].
    rewrite !columnName_not_fixed by (cbn; auto).
    exact (cell_param_given (abi_inputs abi) 0 i input bs b Hinput Hb). }
  assert (Hstored : cell (columnName i input)
                      (List.map (new_cell (current_timestamp (db e)) (tbl_next_id t) given)
                         (fixed_columns ++ ps))
                    = Some (apply_affinity
                              (affinity_of (getSqlTypeFromEthType (param_type input))) b)).
  { rewrite List.map_app. unfold fixed_columns at 1.
    cbn [List.map new_cell col_name app cell].
    rewrite !columnName_not_fixed by (cbn; auto).
    unfold ps.
    pose proof (cell_param_row (new_cell (current_timestamp (db e)) (tbl_next_id t) given)
                  (abi_inputs abi) (fun c => eq_refl) 0 i input Hinput) as Hrow.
    cbn [Nat.add] in Hrow. rewrite Hrow.
    cbn [new_cell snd col_name col_type]. now rewrite Hgiven. }
  rewrite Hstored. rewrite value_for_param_column_eq in Hvalue.
  repeat split.
  - intros n Harg Hty. rewrite Harg in Hvalue. injection Hvalue as <-.
    injection Hbind as <-. now rewrite Hty.
  - intros n Harg Hty Hn. rewrite Harg in Hvalue. injection Hvalue as <-.
    injection Hbind as <-. rewrite Hty. cbn [affinity_of includes startsWith Ascii.eqb Bool.eqb orb].
    cbn. now rewrite integer_literal_string_of_Z.
  - intros s Harg Hty. rewrite Harg in Hvalue. injection Hvalue as <-.
    injection Hbind as <-. now rewrite Hty.
  - intros b0 Harg Hty. rewrite Harg in Hvalue. injection Hvalue as <-.
    injection Hbind as <-. now rewrite Hty.
  - intros Harg. rewrite Harg in Hvalue. injection Hvalue as <-.
    injection Hbind as <-. now destruct (affinity_of _).
Qed.

End StoredRow.

(** *** The properties above, on the [Transfer] table *)

Lemma stored_keys_stay_unique_witness :
  exists t',
    table_of "Transfer"
      (process_logs [transfer_log; transfer_log] transfer_event
         (synthesized [transfer_event] "2024-01-01 00:00:00")) = Some t'
    /\ In (mkIndex "idx_event_transfer_unique" ["transaction_hash"; "log_index"] true)
         (tbl_indexes t')
    /\ has_duplicate_key ["transaction_hash"; "log_index"] (tbl_rows t') = false.
Proof.
  apply (stored_keys_stay_unique [transfer_log; transfer_log] transfer_event
           (synthesized [transfer_event] "2024-01-01 00:00:00")
           (mkTable (sch_columns (schema_of transfer_event))
              (sch_indexes (schema_of transfer_event)) [] 1)
           (mkIndex "idx_event_transfer_unique" ["transaction_hash"; "log_index"] true)).
  - vm_compute. reflexivity.
  - cbn. auto.
  - reflexivity.
  - reflexivity.
Defined.

Lemma incomplete_log_not_stored_witness :
  let e := synthesized [transfer_event] "2024-01-01 00:00:00" in
  let l := mkLog None (Some "0xabc") (Some 100) (Some 0) [] in
  db (saveLogToDatabase l "Transfer" e) = db e
  /\ count "current_batch" processedStat (logger (saveLogToDatabase l "Transfer" e))
     = count "current_batch" processedStat (logger e).
Proof.
  apply (incomplete_log_not_stored transfer_event
           (mkLog None (Some "0xabc") (Some 100) (Some 0) [])
           (synthesized [transfer_event] "2024-01-01 00:00:00")
           (mkTable (sch_columns (schema_of transfer_event))
              (sch_indexes (schema_of transfer_event)) [] 1)).
  - vm_compute. reflexivity.
  - reflexivity.
  - left. reflexivity.
Defined.




Lemma stored_argument_witness :
  let e := synthesized [transfer_event] "2024-01-01 00:00:00" in
  let input := mkParam "uint256" false in
  exists r,
    option_map tbl_rows (table_of "Transfer" (saveLogToDatabase transfer_log "Transfer" e))
    = Some ([] ++ [r])%list
    /\ let stored := cell (columnName 2 input) r in
       let sqlType := getSqlTypeFromEthType (param_type input) in
       (forall n, args transfer_log !! 2%nat = Some (VBigInt n) -> sqlType = "TEXT" ->
          stored = Some (SText (string_of_Z n)))
       /\ (forall n, args transfer_log !! 2%nat = Some (VBigInt n) -> sqlType = "INTEGER" ->
             0 <= n ->
             stored = Some (if fits_int64 n then SInteger n else SReal (string_of_Z n)))
       /\ (forall s, args transfer_log !! 2%nat = Some (VString s) -> sqlType = "TEXT" ->
             stored = Some (SText s))
       /\ (forall b, args transfer_log !! 2%nat = Some (VBool b) -> sqlType = "BOOLEAN" ->
             stored = Some (SInteger (if b then 1 else 0)))
       /\ (args transfer_log !! 2%nat = None -> stored = Some SNull).
Proof.
  apply (stored_argument transfer_event
           (mkTable (sch_columns (schema_of transfer_event))
              (sch_indexes (schema_of transfer_event)) [] 1)
           eq_refl eq_refl transfer_log
           (synthesized [transfer_event] "2024-01-01 00:00:00") 2
           (mkParam "uint256" false));
    first [reflexivity | vm_compute; reflexivity].
Defined.

End DbClientMore.

(** ** More on the backfill driver *)

Module LogsMore.
Import Js Json Logger Sqlite DbClient Logs DbClientFacts LogsFacts Vocabulary StringFacts
  DbClientMore.

(** *** Units whose fetches fail *)

Lemma skipped_app (j1 j2 : list event) :
  skipped (j1 ++ j2) = (skipped j1 ++ skipped j2)%list.
Proof. induction j1 as [|[] j1 IH]; cbn; congruence. Qed.

Section DriverMore.
Context {C : Type}.
Variable getLogs : string -> AbiItem -> Z -> Z -> C -> (thrown + list Log) * C.
Variables (contractAddress : string) (abi : AbiItem) (batchNumber maxRetries : Z).

Local Abbreviation run := (retry_loop getLogs).
Local Abbreviation fetch := (getContractLogs getLogs contractAddress abi).
Local Abbreviation fetched f t := (Fetched contractAddress (abi_name abi) f t).

(** a run in which no fetch succeeds writes nothing *)
Lemma failed_fetches_keep_store (fuel : nat) :
  (forall f t c, exists error c', fetch f t c = (inl error, c')) ->
  forall fromBlock toBlock retryCount (w : world C) outcome w',
    run fuel contractAddress abi batchNumber maxRetries fromBlock toBlock retryCount w
    = Some (outcome, w') ->
    db (env_of w') = db (env_of w)
    /\ stats (logger (env_of w')) = stats (logger (env_of w)).
Proof.
  intros Hfail.
  induction fuel as [|fuel IH]; intros f t rc w outcome w' Hrun; [discriminate|].
  rewrite retry_loop_S in Hrun.
  destruct (rc <=? maxRetries); [|now injection Hrun as _ <-].
  cbv zeta in Hrun.
  destruct (Hfail f t (chain (note (fetched f t) w))) as (error & c' & Hf).
  rewrite Hf in Hrun. unfold catch_block in Hrun.
  destruct (_ && _); [now apply IH in Hrun|].
  destruct (is_too_many_logs _).
  - destruct (f =? t); [now injection Hrun as _ <-|].
    destruct (run fuel _ _ _ _ f _ 0 _) as [[[escaped|[]] w1]|] eqn:Hfirst;
      [now injection Hrun as _ <-; apply IH in Hfirst | |discriminate].
    apply IH in Hfirst. apply IH in Hrun. cbn in *. split; intuition congruence.
  - destruct (_ >? _); [now injection Hrun as _ <-|now apply IH in Hrun].
Qed.

(** X16: a unit of [processContractEventRange] in which no fetch
    succeeds returns normally and writes nothing: the store and the counters
    are as before, whatever the errors were and however the range was
    split. *)
Theorem failed_fetches_write_nothing (fuel : nat) (fromBlock toBlock : Z) (w : world C) :
  (forall f t c, exists error c', fetch f t c = (inl error, c')) ->
  fromBlock <= toBlock ->
  (enough fromBlock toBlock maxRetries 0 <= fuel)%nat ->
  exists w',
    processContractEventRange getLogs fuel contractAddress abi fromBlock toBlock
      batchNumber maxRetries w = Some (inr tt, w')
    /\ db (env_of w') = db (env_of w)
    /\ stats (logger (env_of w')) = stats (logger (env_of w)).
Proof.
  intros Hfail Hrange Hfuel. unfold processContractEventRange.
  destruct (retry_loop_returns getLogs contractAddress abi batchNumber maxRetries
              fuel fromBlock toBlock 0 w Hrange Hfuel) as [w' Hrun].
  exists w'. split; [exact Hrun|].
  exact (failed_fetches_keep_store fuel Hfail _ _ _ _ _ _ Hrun).
Qed.

(** one more attempt after a failure that is not a too-many-logs failure *)
Lemma retry_after_failure (fuel : nat) (fromBlock toBlock retryCount : Z) (w : world C)
    (error : thrown) (c' : C) :
  retryCount + 1 <= maxRetries ->
  0 <= retryCount ->
  fetch fromBlock toBlock (chain w) = (inl error, c') ->
  is_too_many_logs (message_of error) = false ->
  exists warning,
    run (S fuel) contractAddress abi batchNumber maxRetries fromBlock toBlock retryCount w
    = run fuel contractAddress abi batchNumber maxRetries fromBlock toBlock (retryCount + 1)
        (note (Slept (if is_rate_limit (message_of error)
                      then 2 ^ (retryCount + 1) * 1000
                      else 1000 * (retryCount + 1)))
           (note warning (mkWorld c' (env_of (note (fetched fromBlock toBlock) w)))))
    /\ sleeps [warning] = [] /\ fetches [warning] = [] /\ failures [warning] = [].
Proof.
  intros Hrc H0 Hf Hmany. rewrite retry_loop_S.
  destruct (Z.leb_spec retryCount maxRetries); [|lia]. cbv zeta.
  change (chain (note (fetched fromBlock toBlock) w)) with (chain w). rewrite Hf.
  unfold catch_block. rewrite Hmany.
  destruct (Z.leb_spec (retryCount + 1) maxRetries); [|lia].
  destruct (Z.gtb_spec (retryCount + 1) maxRetries); [lia|].
  destruct (is_rate_limit (message_of error)); cbn [andb];
    eexists; (split; [reflexivity|]); repeat split.
Qed.

(** the last attempt fails: the unit gives up *)
Lemma give_up_after_failure (fuel : nat) (fromBlock toBlock : Z) (w : world C)
    (error : thrown) (c' : C) :
  fetch fromBlock toBlock (chain w) = (inl error, c') ->
  is_too_many_logs (message_of error) = false ->
  run (S fuel) contractAddress abi batchNumber maxRetries fromBlock toBlock maxRetries w
  = Some (inr tt, note (GaveUp maxRetries (message_of error))
                    (mkWorld c' (env_of (note (fetched fromBlock toBlock) w)))).
Proof.
  intros Hf Hmany. rewrite retry_loop_S.
  destruct (Z.leb_spec maxRetries maxRetries); [|lia]. cbv zeta.
  change (chain (note (fetched fromBlock toBlock) w)) with (chain w). rewrite Hf.
  unfold catch_block. rewrite Hmany.
  destruct (Z.leb_spec (maxRetries + 1) maxRetries); [lia|].
  destruct (Z.gtb_spec (maxRetries + 1) maxRetries); [|lia].
  now rewrite andb_false_r.
Qed.

Section Backoff.
Variables (fromBlock toBlock : Z) (rateLimited : bool).

(** every fetch of the range fails, never for too many logs, and always
    with a rate-limit message or never *)
Hypothesis Hfails : forall c, exists error c',
  fetch fromBlock toBlock c = (inl error, c')
  /\ is_too_many_logs (message_of error) = false
  /\ is_rate_limit (message_of error) = rateLimited.

(** the delay before the retry with the given count *)
Local Abbreviation delay k :=
  (if rateLimited then 2 ^ k * 1000 else 1000 * k).

Lemma backoff_loop (n : nat) :
  forall (fuel : nat) (retryCount : Z) (w : world C),
    0 <= retryCount ->
    retryCount + Z.of_nat n = maxRetries ->
    (n + 1 <= fuel)%nat ->
    exists w',
      run fuel contractAddress abi batchNumber maxRetries fromBlock toBlock retryCount w
      = Some (inr tt, w')
      /\ sleeps (journal_of w')
         = (sleeps (journal_of w)
            ++ List.map (fun k => delay (retryCount + Z.of_nat k)) (seq 1 n))%list
      /\ fetches (journal_of w')
         = (fetches (journal_of w) ++ repeat (fromBlock, toBlock) (S n))%list
      /\ failures (journal_of w') = (failures (journal_of w) ++ [maxRetries])%list
      /\ db (env_of w') = db (env_of w)
      /\ stats (logger (env_of w')) = stats (logger (env_of w)).
Proof.
  induction n as [|n IH]; intros fuel rc w H0 Hrc Hfuel;
    (destruct fuel as [|fuel]; [lia|]);
    destruct (Hfails (chain w)) as (error & c' & Hf & Hmany & Hrate).
  - replace rc with maxRetries by lia.
    rewrite (give_up_after_failure fuel _ _ w error c' Hf Hmany).
    eexists. split; [reflexivity|]. unfold journal_of, note. cbn.
    rewrite !sleeps_app, !fetches_app, !failures_app. cbn.
    rewrite ?app_nil_r, <- ?app_assoc. repeat split.
  - destruct (retry_after_failure fuel _ _ rc w error c' ltac:(lia) H0 Hf Hmany)
      as (warning & -> & Hs & Hfe & Hfa).
    rewrite Hrate.
    destruct (IH fuel (rc + 1)
                (note (Slept (delay (rc + 1)))
                   (note warning (mkWorld c' (env_of (note (fetched fromBlock toBlock) w))))))
      as (w' & Hrun & Hsl & Hft & Hfl & Hdb & Hst); [lia|lia|lia|].
    exists w'. split; [exact Hrun|].
    rewrite Hsl, Hft, Hfl, Hdb, Hst. unfold journal_of, note. cbn [env_of logger journal record db stats].
    rewrite !sleeps_app, !fetches_app, !failures_app, Hs, Hfe, Hfa. cbn [sleeps fetches failures].
    rewrite !app_nil_r, <- !app_assoc. cbn [app].
    split; [|repeat split].
    f_equal. cbn [seq List.map]. change (Z.of_nat 1) with 1. f_equal.
    rewrite <- (List.seq_shift n 1), List.map_map. apply List.map_ext. intros k.
    now replace (rc + 1 + Z.of_nat k) with (rc + Z.of_nat (S k)) by lia.
Qed.

(** X17: when every fetch of a range fails, never for too many logs,
    the unit makes [maxRetries + 1] attempts on the whole range and gives up
    once. Before the attempt after the [k]-th failure it sleeps
    [2^k * 1000] ms when the failures read as rate limits, and [1000 * k] ms
    otherwise; the store and the counters are not touched. *)
Theorem failing_unit_backs_off (fuel : nat) (w : world C) :
  0 <= maxRetries ->
  (Z.to_nat maxRetries + 1 <= fuel)%nat ->
  exists w',
    processContractEventRange getLogs fuel contractAddress abi fromBlock toBlock
      batchNumber maxRetries w = Some (inr tt, w')
    /\ sleeps (journal_of w')
       = (sleeps (journal_of w)
          ++ List.map (fun k => if rateLimited then 2 ^ Z.of_nat k * 1000
                                else 1000 * Z.of_nat k)
               (seq 1 (Z.to_nat maxRetries)))%list
    /\ fetches (journal_of w')
       = (fetches (journal_of w)
          ++ repeat (fromBlock, toBlock) (S (Z.to_nat maxRetries)))%list
    /\ failures (journal_of w') = (failures (journal_of w) ++ [maxRetries])%list
    /\ db (env_of w') = db (env_of w)
    /\ stats (logger (env_of w')) = stats (logger (env_of w)).
Proof.
  intros Hmax Hfuel. unfold processContractEventRange.
  destruct (backoff_loop (Z.to_nat maxRetries) fuel 0 w) as (w' & Hrun & H); [lia..|].
  exists w'. split; [exact Hrun|exact H].
Qed.

End Backoff.

Section TooManyLogs.

(** every fetch, of every range, fails for too many logs, and with a
    message that is not taken for a rate limit *)
Hypothesis Hmany : forall f t c, f <= t -> exists error c',
  fetch f t c = (inl error, c')
  /\ is_too_many_logs (message_of error) = true
  /\ is_rate_limit (message_of error) = false.

Lemma split_down_to_blocks (fuel : nat) :
  forall (a b : Z) (w : world C),
    a <= b ->
    0 <= maxRetries ->
    (enough a b maxRetries 0 <= fuel)%nat ->
    exists w',
      run fuel contractAddress abi batchNumber maxRetries a b 0 w = Some (inr tt, w')
      /\ skipped (journal_of w') = (skipped (journal_of w) ++ seqZ a (b - a + 1))%list
      /\ sleeps (journal_of w') = sleeps (journal_of w)
      /\ Z.of_nat (List.length (fetches (journal_of w')))
         = Z.of_nat (List.length (fetches (journal_of w))) + (2 * (b - a + 1) - 1)
      /\ db (env_of w') = db (env_of w)
      /\ stats (logger (env_of w')) = stats (logger (env_of w)).
Proof.
  induction fuel as [|fuel IH]; intros a b w Hab Hmax Hfuel.
  { unfold enough in Hfuel. lia. }
  rewrite retry_loop_S.
  destruct (Z.leb_spec 0 maxRetries); [|lia]. cbv zeta.
  destruct (Hmany a b (chain (note (fetched a b) w)) Hab) as (error & c' & Hf & Hm & Hr).
  rewrite Hf. unfold catch_block. rewrite Hm, Hr. cbn [andb].
  destruct (Z.eqb_spec a b) as [<-|Hne].
  - eexists. split; [reflexivity|]. unfold journal_of, note. cbn.
    rewrite !skipped_app, !sleeps_app, !fetches_app, !length_app. cbn.
    replace (a - a + 1) with 1 by lia.
    rewrite !app_nil_r. repeat split; lia.
  - destruct (split_range_halves a b ltac:(lia)) as (Hmid & H1 & H2 & H3 & H4).
    cbv zeta in *. rewrite Hmid. set (mid := a + (b - a) / 2) in *.
    assert (Hhalf : forall f' t', f' <= t' -> t' - f' < b - a ->
              (enough f' t' maxRetries 0 <= fuel)%nat).
    { intros f' t' Hle Hlt. unfold enough in *.
      assert (Z.to_nat (t' - f') + 1 <= Z.to_nat (b - a))%nat by lia.
      nia. }
    destruct (IH a mid
                (note (SplittingRange a b) (mkWorld c' (env_of (note (fetched a b) w)))))
      as (w1 & -> & Hsk1 & Hsl1 & Hfe1 & Hdb1 & Hst1); [lia | lia | apply Hhalf; lia |].
    destruct (IH (mid + 1) b w1)
      as (w2 & -> & Hsk2 & Hsl2 & Hfe2 & Hdb2 & Hst2); [lia | lia | apply Hhalf; lia |].
    exists w2. split; [reflexivity|].
    rewrite Hsk2, Hsl2, Hfe2, Hdb2, Hst2, Hsk1, Hsl1, Hfe1, Hdb1, Hst1.
    unfold journal_of, note. cbn [env_of logger journal record db stats].
    rewrite !skipped_app, !sleeps_app, !fetches_app, !length_app. cbn.
    rewrite !app_nil_r, <- !app_assoc. repeat split; [|lia].
    f_equal. replace (b - a + 1) with ((mid - a + 1) + (b - (mid + 1) + 1)) by lia.
    rewrite (seqZ_app a (mid - a + 1) (b - (mid + 1) + 1)) by lia. do 2 f_equal. lia.
Qed.

(** X18: when every fetch, of every range, fails with a message
    that reaches the [catch] block passing its too-many-logs test and not
    its rate-limit test, a unit on [[a, b]] splits its way down to single
    blocks: it skips every block of the range exactly once, in ascending
    order, after [2 (b - a + 1) - 1] fetches and without sleeping, and
    leaves the store as it was. *)
Theorem too_many_logs_everywhere (fuel : nat) (a b : Z) (w : world C) :
  a <= b ->
  0 <= maxRetries ->
  (enough a b maxRetries 0 <= fuel)%nat ->
  exists w',
    processContractEventRange getLogs fuel contractAddress abi a b
      batchNumber maxRetries w = Some (inr tt, w')
    /\ skipped (journal_of w') = (skipped (journal_of w) ++ seqZ a (b - a + 1))%list
    /\ sleeps (journal_of w') = sleeps (journal_of w)
    /\ Z.of_nat (List.length (fetches (journal_of w')))
       = Z.of_nat (List.length (fetches (journal_of w))) + (2 * (b - a + 1) - 1)
    /\ db (env_of w') = db (env_of w)
    /\ stats (logger (env_of w')) = stats (logger (env_of w)).
Proof. intros. now apply split_down_to_blocks. Qed.

End TooManyLogs.

End DriverMore.

(** *** What the driver makes of the messages of [getContractLogs] *)


Lemma startsWith_app (s p rest : string) :
  startsWith s p = true -> startsWith (s +:+ rest) p = true.
Proof.
  revert p. induction s as [|c s IH]; intros [|d p]; cbn; try discriminate;
    try reflexivity.
  - now destruct (rest).
  - rewrite append_String. cbn. destruct (Ascii.eqb d c); [apply IH|discriminate].
Qed.

Lemma includes_app_l (s p rest : string) :
  includes s p = true -> includes (s +:+ rest) p = true.
Proof.
  induction s as [|c s IH]; cbn [includes].
  - rewrite orb_false_r. intros H. destruct p; [now destruct rest|discriminate].
  - rewrite append_String. cbn [includes]. intros [H|H]%orb_true_iff.
    + apply (startsWith_app _ _ rest) in H. rewrite append_String in H. now rewrite H.
    + rewrite (IH H). apply orb_true_r.
Qed.

Lemma includes_app_r (s p rest : string) :
  includes s p = true -> includes (rest +:+ s) p = true.
Proof.
  intros H. induction rest as [|c rest IH]; [exact H|].
  rewrite append_String. cbn [includes]. rewrite IH. apply orb_true_r.
Qed.

Section Messages.
Context {C : Type}.
Variable getLogs : string -> AbiItem -> Z -> Z -> C -> (thrown + list Log) * C.
Variables (contractAddress : string) (abi : AbiItem).

(** X19: an error of the chain client whose message holds
    [Log response size exceeded] would pass the too-many-logs test of
    [processContractEventRange], but [getContractLogs] rewrites it to
    [Too many logs for range a-b. Try smaller block range.], and that
    message fails the test for every range: the unit does not split on it. *)
Theorem size_exceeded_is_not_recognised (fromBlock toBlock : Z) (c c' : C)
    (message : string) :
  fromBlock <= toBlock ->
  getLogs contractAddress abi fromBlock toBlock c = (inl (ErrorObj message), c') ->
  includes message "Log response size exceeded" = true ->
  is_too_many_logs message = true
  /\ exists rewritten,
       getContractLogs getLogs contractAddress abi fromBlock toBlock c
       = (inl (ErrorObj rewritten), c')
       /\ rewritten = "Too many logs for range " +:+ range_text fromBlock toBlock
                      +:+ ". Try smaller block range."
       /\ is_too_many_logs rewritten = false.
Proof.
  intros Hrange Hget Hsize. split.
  { unfold is_too_many_logs. now rewrite Hsize. }
  eexists. split; [|split; [reflexivity|]].
  - unfold getContractLogs. destruct (Z.gtb_spec fromBlock toBlock); [lia|].
    rewrite Hget. cbn [message_of]. now rewrite Hsize.
  - unfold is_too_many_logs, range_text.
    rewrite !includes_occurs; [reflexivity| |];
      rewrite !occurs_app, !string_of_Z_chars by (reflexivity || discriminate);
      reflexivity.
Qed.

(** X20: for a contract whose address holds the digits [429], every
    error of the chain client that [getContractLogs] wraps (one that is
    neither a size nor a rate-limit error) reaches
    [processContractEventRange] with a message that passes its rate-limit
    test, since the wrapped message quotes the address. *)
Theorem address_with_429_looks_rate_limited (fromBlock toBlock : Z) (c c' : C)
    (error : thrown) :
  fromBlock <= toBlock ->
  getLogs contractAddress abi fromBlock toBlock c = (inl error, c') ->
  includes contractAddress "429" = true ->
  includes (message_of error) "Log response size exceeded" = false ->
  includes (message_of error) "rate limit" = false ->
  exists message,
    getContractLogs getLogs contractAddress abi fromBlock toBlock c
    = (inl (ErrorObj message), c')
    /\ is_rate_limit message = true.
Proof.
  intros Hrange Hget Haddr Hsize Hrate.
  exists ("Failed to fetch logs for " +:+ abi_name abi +:+ " on contract "
          +:+ contractAddress +:+ ": " +:+ message_of error).
  split.
  - unfold getContractLogs. destruct (Z.gtb_spec fromBlock toBlock); [lia|].
    rewrite Hget. destruct error as [message|]; cbn [message_of] in *.
    + rewrite Hsize, Hrate. reflexivity.
    + reflexivity.
  - unfold is_rate_limit. apply orb_true_iff. right.
    do 3 apply includes_app_r. now apply includes_app_l.
Qed.

End Messages.

(** *** Units whose failures [getContractLogs] rewrites *)

Lemma splits_app (j1 j2 : list event) :
  splits (j1 ++ j2) = (splits j1 ++ splits j2)%list.
Proof. induction j1 as [|[] j1 IH]; cbn; congruence. Qed.

(** the text of a range holds digits and signs only *)
Lemma range_text_chars (c : ascii) (fromBlock toBlock : Z) :
  digit_of c = None -> c <> "-"%char -> occurs c (range_text fromBlock toBlock) = false.
Proof.
  intros Hc Hm. unfold range_text.
  rewrite !occurs_app, !string_of_Z_chars by assumption.
  cbn. destruct (Ascii.eqb_spec c "-"); [contradiction|reflexivity].
Qed.

(** the two messages [getContractLogs] writes itself, under the tests of
    the driver *)
Lemma too_many_logs_text (rt : string) :
  occurs "L" rt = false -> occurs "t" rt = false ->
  is_too_many_logs ("Too many logs for range " +:+ rt +:+ ". Try smaller block range.") = false.
Proof.
  intros HL Ht. unfold is_too_many_logs.
  rewrite !includes_occurs; [reflexivity| |]; rewrite !occurs_app, ?HL, ?Ht; reflexivity.
Qed.

Lemma rate_limit_text (rt : string) :
  occurs "L" rt = false -> occurs "t" rt = false -> occurs "r" rt = false ->
  includes rt "429" = false ->
  let m := "Rate limit exceeded for range " +:+ rt +:+ ". Retrying with delay..." in
  is_too_many_logs m = false /\ is_rate_limit m = false.
Proof.
  intros HL Ht Hr H429 m. subst m. split.
  - unfold is_too_many_logs.
    rewrite includes_occurs by (rewrite !occurs_app, HL; reflexivity).
    rewrite !append_String, append_Empty. cbn [includes startsWith Ascii.eqb Bool.eqb orb andb].
    rewrite includes_skip by exact Ht. reflexivity.
  - unfold is_rate_limit.
    rewrite (includes_skip "4" "29" "Rate limit exceeded for range ") by reflexivity.
    rewrite (includes_app_other "." "4" " Retrying with delay..." "29" rt) by reflexivity.
    rewrite H429, orb_false_r.
    rewrite !append_String, append_Empty. cbn [includes startsWith Ascii.eqb Bool.eqb orb andb].
    rewrite includes_skip by exact Hr. reflexivity.
Qed.

Section Rewritten.
Context {C : Type}.
Variable getLogs : string -> AbiItem -> Z -> Z -> C -> (thrown + list Log) * C.
Variables (contractAddress : string) (abi : AbiItem) (batchNumber : Z).

Local Abbreviation run := (retry_loop getLogs).
Local Abbreviation fetch := (getContractLogs getLogs contractAddress abi).
Local Abbreviation fetched f t := (Fetched contractAddress (abi_name abi) f t).

(** a unit whose failures never pass the too-many-logs test neither splits
    its range nor skips a block *)
Lemma unsplit_loop (maxRetries fromBlock toBlock : Z) :
  (forall c, exists error c',
      fetch fromBlock toBlock c = (inl error, c')
      /\ is_too_many_logs (message_of error) = false) ->
  forall (fuel : nat) (retryCount : Z) (w : world C) outcome w',
    run fuel contractAddress abi batchNumber maxRetries fromBlock toBlock retryCount w
    = Some (outcome, w') ->
    splits (journal_of w') = splits (journal_of w)
    /\ skipped (journal_of w') = skipped (journal_of w).
Proof.
  intros Hfails.
  induction fuel as [|fuel IH]; intros rc w outcome w' Hrun; [discriminate|].
  rewrite retry_loop_S in Hrun.
  destruct (rc <=? maxRetries); [|now injection Hrun as _ <-].
  cbv zeta in Hrun.
  destruct (Hfails (chain (note (fetched fromBlock toBlock) w))) as (error & c' & Hf & Hm).
  rewrite Hf in Hrun. unfold catch_block in Hrun. rewrite Hm in Hrun.
  destruct (_ && _).
  - apply IH in Hrun as [-> ->]. unfold journal_of, note.
    cbn [env_of logger journal record].
    rewrite !splits_app, !skipped_app. cbn. now rewrite !app_nil_r.
  - destruct (_ >? _).
    + injection Hrun as _ <-. unfold journal_of, note.
      cbn [env_of logger journal record].
      rewrite !splits_app, !skipped_app. cbn. now rewrite !app_nil_r.
    + apply IH in Hrun as [-> ->]. unfold journal_of, note.
      cbn [env_of logger journal record].
      rewrite !splits_app, !skipped_app. cbn. now rewrite !app_nil_r.
Qed.

(** what [getContractLogs] hands on when the client says
    [Log response size exceeded] *)
Lemma size_exceeded_rewritten (fromBlock toBlock : Z) (c : C) :
  fromBlock <= toBlock ->
  client_says_size_exceeded getLogs contractAddress abi fromBlock toBlock ->
  exists message c',
    getLogs contractAddress abi fromBlock toBlock c = (inl (ErrorObj message), c')
    /\ is_too_many_logs message = true
    /\ fetch fromBlock toBlock c
       = (inl (ErrorObj ("Too many logs for range " +:+ range_text fromBlock toBlock
                         +:+ ". Try smaller block range.")), c').
Proof.
  intros Hrange Hclient. destruct (Hclient c) as (message & c' & Hget & Hsize).
  exists message, c'. split; [exact Hget|]. split.
  - unfold is_too_many_logs. now rewrite Hsize.
  - unfold getContractLogs. destruct (Z.gtb_spec fromBlock toBlock); [lia|].
    rewrite Hget. now rewrite Hsize.
Qed.

Lemma rate_limit_rewritten (fromBlock toBlock : Z) (c : C) :
  fromBlock <= toBlock ->
  client_says_rate_limit getLogs contractAddress abi fromBlock toBlock ->
  exists message c',
    getLogs contractAddress abi fromBlock toBlock c = (inl (ErrorObj message), c')
    /\ is_rate_limit message = true
    /\ fetch fromBlock toBlock c
       = (inl (ErrorObj ("Rate limit exceeded for range " +:+ range_text fromBlock toBlock
                         +:+ ". Retrying with delay...")), c').
Proof.
  intros Hrange Hclient. destruct (Hclient c) as (message & c' & Hget & Hsize & Hrate).
  exists message, c'. split; [exact Hget|]. split.
  - unfold is_rate_limit. now rewrite Hrate.
  - unfold getContractLogs. destruct (Z.gtb_spec fromBlock toBlock); [lia|].
    rewrite Hget. now rewrite Hsize, Hrate.
Qed.

(** C3: the split is not reached by the failure it is written for. When
    the chain client fails on a range [[a, b]] with an error that says
    [Log response size exceeded] (a message that passes the too-many-logs
    test of [processContractEventRange]), [getContractLogs] hands on the
    message [Too many logs for range a-b. Try smaller block range.], which
    fails that test. The unit then fetches the whole range
    [maxRetries + 1] times and gives up: it splits nothing, skips no block
    (a single block included) and writes nothing, so the range is not
    covered by two halves but dropped. *)
Theorem size_exceeded_range_is_not_split (fuel : nat) (maxRetries a b : Z) (w : world C) :
  a <= b ->
  0 <= maxRetries ->
  client_says_size_exceeded getLogs contractAddress abi a b ->
  (Z.to_nat maxRetries + 1 <= fuel)%nat ->
  let rewritten :=
    "Too many logs for range " +:+ range_text a b +:+ ". Try smaller block range." in
  (forall c, exists message c',
      getLogs contractAddress abi a b c = (inl (ErrorObj message), c')
      /\ is_too_many_logs message = true
      /\ fetch a b c = (inl (ErrorObj rewritten), c'))
  /\ is_too_many_logs rewritten = false
  /\ exists w',
       processContractEventRange getLogs fuel contractAddress abi a b
         batchNumber maxRetries w = Some (inr tt, w')
       /\ fetches (journal_of w')
          = (fetches (journal_of w) ++ repeat (a, b) (S (Z.to_nat maxRetries)))%list
       /\ splits (journal_of w') = splits (journal_of w)
       /\ skipped (journal_of w') = skipped (journal_of w)
       /\ failures (journal_of w') = (failures (journal_of w) ++ [maxRetries])%list
       /\ db (env_of w') = db (env_of w).
Proof.
  intros Hrange Hmax Hclient Hfuel rewritten.
  assert (Htest : is_too_many_logs rewritten = false).
  { apply too_many_logs_text; apply range_text_chars; (reflexivity || discriminate). }
  assert (Hfails : forall c, exists error c',
            fetch a b c = (inl error, c')
            /\ is_too_many_logs (message_of error) = false
            /\ is_rate_limit (message_of error) = is_rate_limit rewritten).
  { intros c. destruct (size_exceeded_rewritten a b c Hrange Hclient)
      as (message & c' & _ & _ & Hf).
    exists (ErrorObj rewritten), c'. split; [exact Hf|]. split; [exact Htest|reflexivity]. }
  split; [intros c; exact (size_exceeded_rewritten a b c Hrange Hclient)|].
  split; [exact Htest|].
  unfold processContractEventRange.
  destruct (backoff_loop getLogs contractAddress abi batchNumber maxRetries a b
              (is_rate_limit rewritten) Hfails (Z.to_nat maxRetries) fuel 0 w)
    as (w' & Hrun & _ & Hfetches & Hfailures & Hdb & _); [lia..|].
  exists w'. split; [exact Hrun|]. split; [exact Hfetches|].
  assert (Hnever : forall c, exists error c',
            fetch a b c = (inl error, c')
            /\ is_too_many_logs (message_of error) = false).
  { intros c. destruct (Hfails c) as (error & c' & Hf & Hm & _). eauto. }
  destruct (unsplit_loop maxRetries a b Hnever fuel 0 w _ _ Hrun) as [Hsplits Hskipped].
  repeat split; assumption.
Qed.

(** C5: a rate-limit error is not backed off exponentially. When the
    chain client fails on a range with an error that says [rate limit] (a
    message that passes the rate-limit test of [processContractEventRange]),
    [getContractLogs] hands on the message
    [Rate limit exceeded for range a-b. Retrying with delay...], which fails
    that test unless the block numbers hold the digits [429]. With
    [maxRetries = 3] the unit then sleeps 1, 2 and 3 seconds between its four
    fetches, not 2, 4 and 8; it gives up after the fourth, returns normally
    with the store untouched, and the batch goes on with the next event. *)
Theorem rate_limit_message_backs_off_linearly (fuel : nat) (fromBlock toBlock : Z)
    (w : world C) :
  fromBlock <= toBlock ->
  client_says_rate_limit getLogs contractAddress abi fromBlock toBlock ->
  includes (range_text fromBlock toBlock) "429" = false ->
  (4 <= fuel)%nat ->
  let rewritten :=
    "Rate limit exceeded for range " +:+ range_text fromBlock toBlock
    +:+ ". Retrying with delay..." in
  (forall c, exists message c',
      getLogs contractAddress abi fromBlock toBlock c = (inl (ErrorObj message), c')
      /\ is_rate_limit message = true
      /\ fetch fromBlock toBlock c = (inl (ErrorObj rewritten), c'))
  /\ is_rate_limit rewritten = false
  /\ exists w',
       processContractEventRange getLogs fuel contractAddress abi fromBlock toBlock
         batchNumber 3 w = Some (inr tt, w')
       /\ sleeps (journal_of w') = (sleeps (journal_of w) ++ [1000; 2000; 3000])%list
       /\ fetches (journal_of w')
          = (fetches (journal_of w) ++ repeat (fromBlock, toBlock) 4)%list
       /\ failures (journal_of w') = (failures (journal_of w) ++ [3])%list
       /\ db (env_of w') = db (env_of w)
       /\ (forall nextEvents,
             for_each_event getLogs fuel contractAddress (abi :: nextEvents)
               fromBlock toBlock batchNumber w
             = for_each_event getLogs fuel contractAddress nextEvents
                 fromBlock toBlock batchNumber w').
Proof.
  intros Hrange Hclient H429 Hfuel rewritten.
  destruct (rate_limit_text (range_text fromBlock toBlock)) as [Hmany Hrate];
    [apply range_text_chars; (reflexivity || discriminate)..|exact H429|].
  fold rewritten in Hmany, Hrate.
  assert (Hfails : forall c, exists error c',
            fetch fromBlock toBlock c = (inl error, c')
            /\ is_too_many_logs (message_of error) = false
            /\ is_rate_limit (message_of error) = false).
  { intros c. destruct (rate_limit_rewritten fromBlock toBlock c Hrange Hclient)
      as (message & c' & _ & _ & Hf).
    exists (ErrorObj rewritten), c'. split; [exact Hf|]. split; [exact Hmany|exact Hrate]. }
  split; [intros c; exact (rate_limit_rewritten fromBlock toBlock c Hrange Hclient)|].
  split; [exact Hrate|].
  destruct (backoff_loop getLogs contractAddress abi batchNumber 3 fromBlock toBlock
              false Hfails 3 fuel 0 w)
    as (w' & Hrun & Hsleeps & Hfetches & Hfailures & Hdb & _); [lia..|].
  exists w'. unfold processContractEventRange. split; [exact Hrun|].
  split; [exact Hsleeps|]. split; [exact Hfetches|]. split; [exact Hfailures|].
  split; [exact Hdb|].
  intros nextEvents. cbn [for_each_event]. unfold processContractEventRange.
  now rewrite Hrun.
Qed.

End Rewritten.

Lemma size_exceeded_range_is_not_split_witness :
  (forall c, exists message c',
      always_failing "Log response size exceeded" dai transfer_event 1 100 c
      = (inl (ErrorObj message), c')
      /\ is_too_many_logs message = true
      /\ getContractLogs (always_failing "Log response size exceeded") dai transfer_event
           1 100 c
         = (inl (ErrorObj "Too many logs for range 1-100. Try smaller block range."), c'))
  /\ is_too_many_logs "Too many logs for range 1-100. Try smaller block range." = false
  /\ exists w',
       processContractEventRange (always_failing "Log response size exceeded") 4 dai
         transfer_event 1 100 1 3 (start tt) = Some (inr tt, w')
       /\ fetches (journal_of w')
          = (fetches (journal_of (start tt)) ++ repeat (1, 100) 4)%list
       /\ splits (journal_of w') = splits (journal_of (start tt))
       /\ skipped (journal_of w') = skipped (journal_of (start tt))
       /\ failures (journal_of w') = (failures (journal_of (start tt)) ++ [3])%list
       /\ db (env_of w') = db (env_of (start tt)).
Proof.
  apply (size_exceeded_range_is_not_split (always_failing "Log response size exceeded")
           dai transfer_event 1 4 3 1 100 (start tt)).
  - lia.
  - lia.
  - intros c. eexists. eexists. split; reflexivity.
  - vm_compute. lia.
Defined.

Lemma rate_limit_message_backs_off_linearly_witness :
  (forall c, exists message c',
      always_failing "request exceeds the rate limit" dai transfer_event 1 100 c
      = (inl (ErrorObj message), c')
      /\ is_rate_limit message = true
      /\ getContractLogs (always_failing "request exceeds the rate limit") dai
           transfer_event 1 100 c
         = (inl (ErrorObj "Rate limit exceeded for range 1-100. Retrying with delay..."), c'))
  /\ is_rate_limit "Rate limit exceeded for range 1-100. Retrying with delay..." = false
  /\ exists w',
       processContractEventRange (always_failing "request exceeds the rate limit") 4 dai
         transfer_event 1 100 1 3 (start tt) = Some (inr tt, w')
       /\ sleeps (journal_of w') = (sleeps (journal_of (start tt)) ++ [1000; 2000; 3000])%list
       /\ fetches (journal_of w')
          = (fetches (journal_of (start tt)) ++ repeat (1, 100) 4)%list
       /\ failures (journal_of w') = (failures (journal_of (start tt)) ++ [3])%list
       /\ db (env_of w') = db (env_of (start tt))
       /\ (forall nextEvents,
             for_each_event (always_failing "request exceeds the rate limit") 4 dai
               (transfer_event :: nextEvents) 1 100 1 (start tt)
             = for_each_event (always_failing "request exceeds the rate limit") 4 dai
                 nextEvents 1 100 1 w').
Proof.
  apply (rate_limit_message_backs_off_linearly
           (always_failing "request exceeds the rate limit") dai transfer_event 1 4 1 100
           (start tt)).
  - lia.
  - intros c. eexists. eexists. split; [reflexivity|]. split; reflexivity.
  - reflexivity.
  - lia.
Defined.

(** *** The logs of one fetch *)

Lemma rejections_app (j1 j2 : list event) :
  rejections (j1 ++ j2) = (rejections j1 + rejections j2)%nat.
Proof. induction j1 as [|[] j1 IH]; cbn; congruence. Qed.

Lemma summaries_app (j1 j2 : list event) :
  summaries (j1 ++ j2) = (summaries j1 ++ summaries j2)%list.
Proof. induction j1 as [|[] j1 IH]; cbn; congruence. Qed.

(** X21: [processEventLog] rejects a log without a transaction hash
    or with no block number or the block number [0n]: it throws, reports
    once, and leaves the store and the counters alone. When the log has a
    block number, what it throws is the [TypeError] of [JSON.stringify] on the
    bigint, raised while reporting, and not the validation error; the
    validation error is thrown when the log has no bigint in it. *)
Theorem invalid_log_is_rejected (l : Log) (abi : AbiItem) (e : env) :
  acceptable l = false ->
  let r := fst (processEventLog l abi e) in
  let e' := snd (processEventLog l abi e) in
  db e' = db e
  /\ stats (logger e') = stats (logger e)
  /\ journal (logger e')
     = (journal (logger e)
        ++ [InvalidLogReported "Invalid log structure: missing required fields"])%list
  /\ (exists error, r = inl error)
  /\ (forall n, blockNumber l = Some n ->
        r = inl (ErrorObj "JSON.stringify cannot serialize BigInt."))
  /\ (blockNumber l = None -> forallb serializable (args l) = true ->
        r = inl (ErrorObj "Invalid log structure: missing required fields")).
Proof.
  unfold acceptable. intros H. apply negb_false_iff in H. cbv zeta.
  unfold processEventLog. rewrite H.
  split; [now destruct (JSON_stringify _)|].
  split; [now destruct (JSON_stringify _)|].
  split; [now destruct (JSON_stringify _)|].
  split; [destruct (JSON_stringify _); eauto|].
  split.
  - intros n Hn. unfold log_object. rewrite Hn.
    destruct (address l), (transactionHash l); reflexivity.
  - intros Hn Hargs.
    destruct (JSON_stringify_serializable (log_object l)) as [s ->]; [|reflexivity].
    unfold log_object. rewrite Hn. cbn [serializable forallb snd].
    rewrite Hargs. now destruct (address l), (transactionHash l), (logIndex l).
Qed.

Lemma journal_trackStat (key : string) (type : StatType) (l : Logger.logger) :
  journal (trackStat key type l) = journal l.
Proof. reflexivity. Qed.

(** the sum of the three counters of the current batch *)
Local Abbreviation counted e :=
  (count "current_batch" duplicate (logger e)
   + count "current_batch" processedStat (logger e)
   + count "current_batch" errorStat (logger e)).

Lemma process_logs_counts (abi : AbiItem) (logs : list Log) :
  forall (e : env) (t : table),
    table_of (abi_name abi) e = Some t ->
    counted (process_logs logs abi e)
    = counted e + Z.of_nat (List.length (List.filter acceptable logs))
    /\ rejections (journal (logger (process_logs logs abi e)))
       = (rejections (journal (logger e))
          + List.length (List.filter (fun l => negb (acceptable l)) logs))%nat
    /\ exists t',
         table_of (abi_name abi) (process_logs logs abi e) = Some t'
         /\ tbl_columns t' = tbl_columns t
         /\ Z.of_nat (List.length (tbl_rows t'))
            = Z.of_nat (List.length (tbl_rows t))
              + (count "current_batch" processedStat (logger (process_logs logs abi e))
                 - count "current_batch" processedStat (logger e)).
Proof.
  induction logs as [|l logs IH]; intros e t Ht.
  { cbn. split; [lia|]. split; [lia|]. exists t. repeat split; auto. lia. }
  cbn [process_logs List.filter].
  assert (Hm : missing_string (transactionHash l) || missing_bigint (blockNumber l)
               = negb (acceptable l))
    by (unfold acceptable; now rewrite negb_involutive).
  unfold processEventLog. rewrite Hm. destruct (acceptable l); cbn [negb].
  2:{ destruct (JSON_stringify (log_object l)) as [err|text];
      match goal with
      | |- context [process_logs logs abi ?e2] =>
          destruct (IH e2 t Ht) as (Hc & Hr & t' & Ht' & Hcols & Hrows)
      end;
      rewrite Hc, Hr; cbn [logger journal record] in *;
      rewrite !count_record in *; rewrite !rejections_app; cbn [rejections List.length];
      (split; [lia|]); (split; [lia|]); exists t'; auto. }
  - destruct (saveLogToDatabase_cases l (abi_name abi) e t Ht)
      as [Hs|[[m Hs]|(values & bound & _ & _ & _ & _ & _ & Hs)]]; rewrite Hs.
    + destruct (IH (mkEnv (db e)
                      (record (DuplicateSkipped (option_map (slice0 10) (transactionHash l)))
                         (trackStat "current_batch" duplicate (logger e)))) t Ht)
        as (Hc & Hr & t' & Ht' & Hcols & Hrows).
      rewrite Hc, Hr. cbn [logger journal record List.length] in *.
      rewrite !count_record, !count_trackStat in *. rewrite !rejections_app, ?journal_trackStat.
      cbn [rejections]. split; [lia|]. split; [lia|]. exists t'.
      split; [exact Ht'|]. split; [exact Hcols|lia].
    + destruct (IH (mkEnv (db e)
                      (record (SaveFailed m)
                         (trackStat "current_batch" errorStat (logger e)))) t Ht)
        as (Hc & Hr & t' & Ht' & Hcols & Hrows).
      rewrite Hc, Hr. cbn [logger journal record List.length] in *.
      rewrite !count_record, !count_trackStat in *. rewrite !rejections_app, ?journal_trackStat.
      cbn [rejections]. split; [lia|]. split; [lia|]. exists t'.
      split; [exact Ht'|]. split; [exact Hcols|lia].
    + cbv zeta in *. set (t1 := mkTable _ _ _ _) in *. set (e1 := mkEnv _ _) in *.
      destruct (IH e1 t1) as (Hc & Hr & t' & Ht' & Hcols & Hrows).
      { subst e1. unfold table_of. cbn [db tables]. apply lookup_insert_eq. }
      rewrite Hc, Hr. subst e1 t1. cbn [logger journal record List.length tbl_rows tbl_columns] in *.
      rewrite !count_record, !count_trackStat in *. rewrite !rejections_app, ?journal_trackStat.
      rewrite length_app in Hrows.
      cbn [rejections List.length] in *. split; [lia|]. split; [lia|]. exists t'.
      split; [exact Ht'|]. split; [exact Hcols|lia].
Qed.

(** X22: over the logs of one fetch, every acceptable log raises
    exactly one of the three counters of the current batch, every other log
    is reported as failed once, and the table of the event gains exactly as
    many rows as logs were counted as processed. *)
Theorem process_logs_accounting (abi : AbiItem) (logs : list Log) (e : env) (t : table) :
  table_of (abi_name abi) e = Some t ->
  let e' := process_logs logs abi e in
  counted e' = counted e + Z.of_nat (List.length (List.filter acceptable logs))
  /\ rejections (journal (logger e'))
     = (rejections (journal (logger e))
        + List.length (List.filter (fun l => negb (acceptable l)) logs))%nat
  /\ exists t',
       table_of (abi_name abi) e' = Some t'
       /\ tbl_columns t' = tbl_columns t
       /\ Z.of_nat (List.length (tbl_rows t'))
          = Z.of_nat (List.length (tbl_rows t))
            + (count "current_batch" processedStat (logger e')
               - count "current_batch" processedStat (logger e)).
Proof. intros Ht. cbv zeta. now apply process_logs_counts. Qed.

(** *** Batch summaries *)

Lemma only_current_batch_trackStat (type : StatType) (l : Logger.logger) :
  only_current_batch l -> only_current_batch (trackStat "current_batch" type l).
Proof.
  intros H key Hkey. unfold trackStat. cbn [stats].
  rewrite lookup_insert_ne by congruence. now apply H.
Qed.

Lemma only_current_batch_record (ev : event) (l : Logger.logger) :
  only_current_batch l -> only_current_batch (record ev l).
Proof. intros H key Hkey. now apply H. Qed.

Lemma batchId_not_current (batchNumber : Z) (abi : AbiItem) (contractAddress : string) :
  batchId batchNumber abi contractAddress <> "current_batch".
Proof. unfold batchId. rewrite append_String. discriminate. Qed.

(** with no counters under its key, the summary says nothing *)
Lemma logBatchSummary_silent (batchNumber : Z) (abi : AbiItem) (contractAddress : string)
    (l : Logger.logger) :
  only_current_batch l ->
  logBatchSummary (batchId batchNumber abi contractAddress) l = l.
Proof.
  intros H. unfold logBatchSummary. now rewrite (H _ (batchId_not_current _ _ _)).
Qed.

(** what the runs below keep: the counters are those of the current batch,
    and the journal holds the summaries [S] *)
Local Abbreviation quiet S e :=
  (only_current_batch (logger e) /\ summaries (journal (logger e)) = S).

Lemma saveLogToDatabase_quiet (S : list string) (l : Log) (eventName : string) (e : env) :
  quiet S e -> quiet S (saveLogToDatabase l eventName e).
Proof.
  intros [Hkeys Hsum].
  destruct (table_of eventName e) as [t|] eqn:Ht.
  - destruct (saveLogToDatabase_cases l eventName e t Ht)
      as [->|[[m ->]|(values & bound & _ & _ & _ & _ & _ & ->)]];
      cbn [logger]; (split;
        [apply only_current_batch_record, only_current_batch_trackStat, Hkeys|]);
      cbn [record journal]; rewrite summaries_app, journal_trackStat, Hsum;
      cbn; apply app_nil_r.
  - unfold table_of in Ht. unfold saveLogToDatabase, saveLogToDatabase_try.
    rewrite Ht. now split.
Qed.

Lemma process_logs_quiet (S : list string) (abi : AbiItem) (logs : list Log) (e : env) :
  quiet S e -> quiet S (process_logs logs abi e).
Proof.
  apply (process_logs_invariant (fun e => quiet S e)).
  - intros l e0. apply saveLogToDatabase_quiet.
  - intros m e0 [Hkeys Hsum]. cbn [logger]. split;
      [now apply only_current_batch_record|].
    cbn [record journal]. rewrite summaries_app, Hsum. cbn. apply app_nil_r.
  - intros m e0 [Hkeys Hsum]. cbn [logger]. split;
      [now apply only_current_batch_record|].
    cbn [record journal]. rewrite summaries_app, Hsum. cbn. apply app_nil_r.
Qed.

Section Summaries.
Context {C : Type}.
Variable getLogs : string -> AbiItem -> Z -> Z -> C -> (thrown + list Log) * C.

Lemma note_quiet (S : list string) (ev : event) (w : world C) :
  summaries [ev] = [] -> quiet S (env_of w) -> quiet S (env_of (note ev w)).
Proof.
  intros Hev [Hkeys Hsum]. unfold note. cbn [env_of logger]. split;
    [now apply only_current_batch_record|].
  cbn [record journal]. rewrite summaries_app, Hsum, Hev. apply app_nil_r.
Qed.

Lemma retry_loop_quiet (S : list string) (contractAddress : string) (abi : AbiItem)
    (batchNumber maxRetries : Z) (fuel : nat) :
  forall fromBlock toBlock retryCount (w : world C) outcome w',
    quiet S (env_of w) ->
    retry_loop getLogs fuel contractAddress abi batchNumber maxRetries
      fromBlock toBlock retryCount w = Some (outcome, w') ->
    quiet S (env_of w').
Proof.
  induction fuel as [|fuel IH]; intros f t rc w outcome w' Hq Hrun; [discriminate|].
  rewrite retry_loop_S in Hrun.
  destruct (rc <=? maxRetries); [|now injection Hrun as _ <-].
  cbv zeta in Hrun.
  assert (Hq0 : quiet S (env_of (note (Fetched contractAddress (abi_name abi) f t) w)))
    by (apply note_quiet; [reflexivity|exact Hq]).
  destruct (getContractLogs _ _ _ _ _ _) as [[error|logs] c'].
  - unfold catch_block in Hrun.
    destruct (_ && _).
    { apply IH in Hrun; [exact Hrun|]. repeat (apply note_quiet; [reflexivity|]); first [exact Hq0|exact Hq]. }
    destruct (is_too_many_logs _).
    + destruct (f =? t).
      { injection Hrun as _ <-. repeat (apply note_quiet; [reflexivity|]); first [exact Hq0|exact Hq]. }
      destruct (retry_loop _ fuel _ _ _ _ f _ 0 _) as [[[escaped|[]] w1]|] eqn:Hfirst;
        [| |discriminate].
      * injection Hrun as _ <-. apply IH in Hfirst; [exact Hfirst|].
        repeat (apply note_quiet; [reflexivity|]); first [exact Hq0|exact Hq].
      * apply IH in Hfirst; [|repeat (apply note_quiet; [reflexivity|]); first [exact Hq0|exact Hq]].
        now apply IH in Hrun.
    + destruct (_ >? _).
      { injection Hrun as _ <-. repeat (apply note_quiet; [reflexivity|]); first [exact Hq0|exact Hq]. }
      apply IH in Hrun; [exact Hrun|]. repeat (apply note_quiet; [reflexivity|]); first [exact Hq0|exact Hq].
  - injection Hrun as _ <-. unfold store_logs. cbn [env_of chain].
    pose proof (process_logs_quiet S abi logs _ Hq0) as [Hkeys Hsum].
    cbn [logger db]. rewrite logBatchSummary_silent by exact Hkeys. now split.
Qed.

Lemma for_each_event_quiet (S : list string) (fuel : nat) (contractAddress : string)
    (fromBlock toBlock batchNumber : Z) (abis : list AbiItem) :
  forall (w : world C) outcome w',
    quiet S (env_of w) ->
    for_each_event getLogs fuel contractAddress abis fromBlock toBlock batchNumber w
    = Some (outcome, w') ->
    quiet S (env_of w').
Proof.
  induction abis as [|abi abis IH]; intros w outcome w' Hq Hrun; cbn in Hrun.
  - now injection Hrun as _ <-.
  - unfold processContractEventRange in Hrun.
    destruct (retry_loop _ _ _ _ _ _ _ _ _ _) as [[[escaped|[]] w1]|] eqn:Hunit;
      [| |discriminate]; apply retry_loop_quiet with (S := S) in Hunit; try exact Hq.
    + now injection Hrun as _ <-.
    + now apply IH in Hrun.
Qed.

Lemma for_each_contract_quiet (S : list string) (fuel : nat) (abis : list AbiItem)
    (fromBlock toBlock batchNumber : Z) (contractAddresses : list string) :
  forall (w : world C) outcome w',
    quiet S (env_of w) ->
    for_each_contract getLogs fuel contractAddresses abis fromBlock toBlock batchNumber w
    = Some (outcome, w') ->
    quiet S (env_of w').
Proof.
  induction contractAddresses as [|a rest IH]; intros w outcome w' Hq Hrun; cbn in Hrun.
  - now injection Hrun as _ <-.
  - destruct (for_each_event _ _ _ _ _ _ _ _) as [[[escaped|[]] w1]|] eqn:Hunit;
      [| |discriminate]; apply for_each_event_quiet with (S := S) in Hunit; try exact Hq.
    + now injection Hrun as _ <-.
    + now apply IH in Hrun.
Qed.

(** X23: the batch callback of [processHistoricalEvents] never logs a
    batch summary: [saveLogToDatabase] counts under the key [current_batch]
    only, [logBatchSummary] looks under the batch's own id, finds nothing and
    returns; after the batch no counter exists under any other key. *)
Theorem batch_summary_is_never_logged (fuel : nat) (contractAddresses : list string)
    (abis : list AbiItem) (fromBlock toBlock batchNumber : Z) (w : world C)
    (outcome : thrown + unit) (w' : world C) :
  batch_callback getLogs fuel contractAddresses abis fromBlock toBlock batchNumber w
  = Some (outcome, w') ->
  summaries (journal_of w') = summaries (journal_of w)
  /\ forall key, key <> "current_batch" -> stats (logger (env_of w')) !! key = None.
Proof.
  unfold batch_callback. intros Hrun.
  apply for_each_contract_quiet with (S := summaries (journal_of w)) in Hrun.
  - destruct Hrun as [Hkeys Hsum]. split; [exact Hsum|exact Hkeys].
  - cbn [env_of logger]. split; [|reflexivity].
    intros key _. unfold Logger.reset. cbn [stats]. apply lookup_empty.
Qed.

End Summaries.

(** *** Processing the same logs again *)

Section Rerun.
Variable abi : AbiItem.

(** the table of the event is there, as synthesized *)
Local Abbreviation synthesized_in e :=
  (exists t, table_of (abi_name abi) e = Some t
             /\ tbl_columns t = sch_columns (schema_of abi)
             /\ tbl_indexes t = sch_indexes (schema_of abi)).

(** a row is stored under the key of the log *)
Local Abbreviation has_row l e :=
  (exists t, table_of (abi_name abi) e = Some t /\ stored_rows t l <> []).

Lemma saveLogToDatabase_synthesized (l : Log) (e : env) :
  synthesized_in e -> synthesized_in (saveLogToDatabase l (abi_name abi) e).
Proof.
  intros (t & Ht & Hc & Hi).
  destruct (saveLogToDatabase_cases l (abi_name abi) e t Ht)
    as [->|[[m ->]|(values & bound & _ & _ & _ & _ & _ & ->)]]; [exists t; auto..|].
  eexists. unfold table_of. cbn [db tables]. rewrite lookup_insert_eq.
  split; [reflexivity|]. auto.
Qed.

Lemma saveLogToDatabase_keeps_row (l l' : Log) (e : env) :
  has_row l e -> has_row l (saveLogToDatabase l' (abi_name abi) e).
Proof.
  intros (t & Ht & Hrow).
  destruct (saveLogToDatabase_cases l' (abi_name abi) e t Ht)
    as [->|[[m ->]|(values & bound & _ & _ & _ & _ & _ & ->)]]; [exists t; auto..|].
  eexists. unfold table_of. cbn [db tables]. rewrite lookup_insert_eq.
  split; [reflexivity|]. unfold stored_rows in *. cbn [tbl_rows].
  rewrite List.filter_app. intros Happ. apply app_eq_nil in Happ as [Hnil _].
  apply Hrow. exact Hnil.
Qed.

(** after its save, a well-formed log has a row under its key *)
Lemma saveLogToDatabase_stores (l : Log) (e : env) :
  synthesized_in e -> well_formed l = true ->
  has_row l (saveLogToDatabase l (abi_name abi) e).
Proof.
  intros (t & Ht & Hc & Hi) Hwf.
  destruct (stored_rows t l) as [|r0 rows] eqn:Hrows.
  - destruct (first_insert abi t Hc Hi l (db e) Ht Hwf Hrows)
      as (values & r & Hvalues & Hinsert & Hmatch).
    unfold saveLogToDatabase, saveLogToDatabase_try. unfold table_of in Ht.
    rewrite Ht, (select_duplicates abi t Hc), Hrows, Hvalues, Hinsert.
    eexists. unfold table_of. cbn [db tables]. rewrite lookup_insert_eq.
    split; [reflexivity|]. unfold stored_rows. cbn [tbl_rows].
    rewrite List.filter_app.
    change (matches (mkTable (tbl_columns t) (tbl_indexes t) (tbl_rows t ++ [r])
                       (tbl_next_id t + 1)))
      with (matches t).
    cbn [List.filter]. rewrite Hmatch. now destruct (List.filter _ (tbl_rows t)).
  - rewrite (second_save abi t Hc l e r0 rows Ht Hrows).
    exists t. cbn [db]. split; [exact Ht|]. now rewrite Hrows.
Qed.

(** the save of a log that has a row under its key writes nothing *)
Lemma saveLogToDatabase_again (l : Log) (e : env) :
  synthesized_in e -> has_row l e ->
  saveLogToDatabase l (abi_name abi) e
  = mkEnv (db e)
      (record (DuplicateSkipped (option_map (slice0 10) (transactionHash l)))
         (trackStat "current_batch" duplicate (logger e))).
Proof.
  intros (t & Ht & Hc & Hi) (t' & Ht' & Hrow).
  rewrite Ht in Ht'. injection Ht' as <-.
  destruct (stored_rows t l) as [|r0 rows] eqn:Hrows; [contradiction|].
  exact (second_save abi t Hc l e r0 rows Ht Hrows).
Qed.

Lemma process_logs_synthesized (logs : list Log) (e : env) :
  synthesized_in e -> synthesized_in (process_logs logs abi e).
Proof.
  apply (process_logs_invariant (fun e => synthesized_in e)); auto.
  intros l e0. apply saveLogToDatabase_synthesized.
Qed.

Lemma process_logs_keeps_row (l : Log) (logs : list Log) (e : env) :
  has_row l e -> has_row l (process_logs logs abi e).
Proof.
  apply (process_logs_invariant (fun e => has_row l e)); auto.
  intros l' e0. apply saveLogToDatabase_keeps_row.
Qed.

(** after the loop, every log that was taken on has a row under its key *)
Lemma process_logs_stores (logs : list Log) :
  forall e,
    synthesized_in e ->
    Forall (fun l => acceptable l = true -> well_formed l = true) logs ->
    Forall (fun l => acceptable l = true -> has_row l (process_logs logs abi e)) logs.
Proof.
  induction logs as [|l logs IH]; intros e He Hwf; constructor.
  - intros Hacc. cbn [process_logs]. unfold processEventLog.
    apply Forall_cons_1 in Hwf as [Hl _]. specialize (Hl Hacc).
    unfold acceptable in Hacc. apply negb_true_iff in Hacc. rewrite Hacc.
    apply process_logs_keeps_row, saveLogToDatabase_stores; [exact He|exact Hl].
  - apply Forall_cons_1 in Hwf as [_ Hwf].
    cbn [process_logs]. unfold processEventLog.
    destruct (missing_string _ || missing_bigint _).
    + destruct (JSON_stringify (log_object l)); apply IH; auto.
    + apply IH; [|exact Hwf]. now apply saveLogToDatabase_synthesized.
Qed.

(** the loop over logs that all have their rows writes nothing, and counts
    each one it takes on as a duplicate *)
Lemma process_logs_again (logs : list Log) :
  forall e,
    synthesized_in e ->
    Forall (fun l => acceptable l = true -> has_row l e) logs ->
    db (process_logs logs abi e) = db e
    /\ count "current_batch" duplicate (logger (process_logs logs abi e))
       = count "current_batch" duplicate (logger e)
         + Z.of_nat (List.length (List.filter acceptable logs))
    /\ count "current_batch" processedStat (logger (process_logs logs abi e))
       = count "current_batch" processedStat (logger e)
    /\ count "current_batch" errorStat (logger (process_logs logs abi e))
       = count "current_batch" errorStat (logger e).
Proof.
  induction logs as [|l logs IH]; intros e He Hrows.
  { cbn. repeat split; lia. }
  apply Forall_cons_1 in Hrows as [Hrow Hrows].
  cbn [process_logs List.filter]. unfold processEventLog.
  assert (Hm : missing_string (transactionHash l) || missing_bigint (blockNumber l)
               = negb (acceptable l))
    by (unfold acceptable; now rewrite negb_involutive).
  rewrite Hm. destruct (acceptable l) eqn:Hacc; cbn [negb].
  - rewrite (saveLogToDatabase_again l e He (Hrow eq_refl)).
    match goal with
    | |- context [process_logs logs abi ?e1] =>
        destruct (IH e1) as (Hd & Hdup & Hproc & Herr); [exact He|exact Hrows|]
    end.
    rewrite Hd, Hdup, Hproc, Herr. cbn [db logger List.length].
    rewrite !count_record, !count_trackStat. repeat split; lia.
  - destruct (JSON_stringify (log_object l));
      match goal with
      | |- context [process_logs logs abi ?e1] =>
          destruct (IH e1) as (Hd & Hdup & Hproc & Herr); [exact He|exact Hrows|]
      end;
      rewrite Hd, Hdup, Hproc, Herr; cbn [db logger];
      rewrite !count_record; repeat split; lia.
Qed.

(** X24: processing the logs of a fetch a second time stores nothing:
    in a synthesized table, and for logs that are well formed whenever they
    pass the validation, the second pass leaves the store as the first left
    it, counts every log that passes the validation as a duplicate, and
    counts none as processed or failed. *)
Theorem process_logs_twice (logs : list Log) (e : env) (t : table) :
  table_of (abi_name abi) e = Some t ->
  tbl_columns t = sch_columns (schema_of abi) ->
  tbl_indexes t = sch_indexes (schema_of abi) ->
  Forall (fun l => acceptable l = true -> well_formed l = true) logs ->
  let e1 := process_logs logs abi e in
  let e2 := process_logs logs abi e1 in
  db e2 = db e1
  /\ count "current_batch" duplicate (logger e2)
     = count "current_batch" duplicate (logger e1)
       + Z.of_nat (List.length (List.filter acceptable logs))
  /\ count "current_batch" processedStat (logger e2)
     = count "current_batch" processedStat (logger e1)
  /\ count "current_batch" errorStat (logger e2)
     = count "current_batch" errorStat (logger e1).
Proof.
  intros Ht Hc Hi Hwf. cbv zeta.
  assert (He : synthesized_in e) by (exists t; auto).
  apply process_logs_again.
  - now apply process_logs_synthesized.
  - now apply process_logs_stores.
Qed.

End Rerun.

(** *** The properties above, on concrete chain clients *)

Lemma failed_fetches_write_nothing_witness :
  exists w',
    processContractEventRange (always_failing "query returned too many logs") 20 dai
      transfer_event 1 4 1 3 (start tt) = Some (inr tt, w')
    /\ db (env_of w') = db (env_of (start tt))
    /\ stats (logger (env_of w')) = stats (logger (env_of (start tt))).
Proof.
  apply (failed_fetches_write_nothing (always_failing "query returned too many logs")
           dai transfer_event 1 3 20 1 4 (start tt)).
  - intros f t c. unfold getContractLogs, always_failing.
    destruct (f >? t); cbn;
      repeat match goal with
             | |- context [if ?b then _ else _] => destruct b
             end; eauto.
  - lia.
  - vm_compute. lia.
Defined.

Lemma failing_unit_backs_off_witness :
  exists w',
    processContractEventRange (always_failing "connection reset") 4 dai
      transfer_event 1 100 1 3 (start tt) = Some (inr tt, w')
    /\ sleeps (journal_of w')
       = (sleeps (journal_of (start tt))
          ++ List.map (fun k => if false then 2 ^ Z.of_nat k * 1000
                                else 1000 * Z.of_nat k)
               (seq 1 (Z.to_nat 3)))%list
    /\ fetches (journal_of w')
       = (fetches (journal_of (start tt)) ++ repeat (1, 100) (S (Z.to_nat 3)))%list
    /\ failures (journal_of w') = (failures (journal_of (start tt)) ++ [3])%list
    /\ db (env_of w') = db (env_of (start tt))
    /\ stats (logger (env_of w')) = stats (logger (env_of (start tt))).
Proof.
  apply (failing_unit_backs_off (always_failing "connection reset") dai transfer_event
           1 3 1 100 false).
  - intros c. eexists. eexists. split; [reflexivity|]. split; vm_compute; reflexivity.
  - lia.
  - vm_compute. lia.
Defined.

Lemma too_many_logs_everywhere_witness :
  exists w',
    processContractEventRange (always_failing "query returned too many logs") 20 dai
      transfer_event 1 4 1 3 (start tt) = Some (inr tt, w')
    /\ skipped (journal_of w') = (skipped (journal_of (start tt)) ++ seqZ 1 (4 - 1 + 1))%list
    /\ sleeps (journal_of w') = sleeps (journal_of (start tt))
    /\ Z.of_nat (List.length (fetches (journal_of w')))
       = Z.of_nat (List.length (fetches (journal_of (start tt)))) + (2 * (4 - 1 + 1) - 1)
    /\ db (env_of w') = db (env_of (start tt))
    /\ stats (logger (env_of w')) = stats (logger (env_of (start tt))).
Proof.
  apply (too_many_logs_everywhere (always_failing "query returned too many logs")
           dai transfer_event 1 3).
  - intros f t c Hft. unfold getContractLogs.
    destruct (Z.gtb_spec f t); [lia|].
    eexists. eexists. split; [reflexivity|]. split; vm_compute; reflexivity.
  - lia.
  - lia.
  - vm_compute. lia.
Defined.

Lemma size_exceeded_is_not_recognised_witness :
  is_too_many_logs "Log response size exceeded" = true
  /\ exists rewritten,
       getContractLogs (always_failing "Log response size exceeded") dai transfer_event
         1 100 tt = (inl (ErrorObj rewritten), tt)
       /\ rewritten = "Too many logs for range " +:+ range_text 1 100
                      +:+ ". Try smaller block range."
       /\ is_too_many_logs rewritten = false.
Proof.
  apply (size_exceeded_is_not_recognised (always_failing "Log response size exceeded")
           dai transfer_event 1 100 tt tt "Log response size exceeded").
  - lia.
  - reflexivity.
  - reflexivity.
Defined.

Lemma address_with_429_looks_rate_limited_witness :
  exists message,
    getContractLogs (always_failing "connection reset")
      "0x4290000000000000000000000000000000000000" transfer_event 1 100 tt
    = (inl (ErrorObj message), tt)
    /\ is_rate_limit message = true.
Proof.
  apply (address_with_429_looks_rate_limited (always_failing "connection reset")
           "0x4290000000000000000000000000000000000000" transfer_event 1 100 tt tt
           (ErrorObj "connection reset")).
  - lia.
  - reflexivity.
  - reflexivity.
  - reflexivity.
  - reflexivity.
Defined.

Lemma invalid_log_is_rejected_witness :
  let l := mkLog (Some dai) (Some "0xabc") (Some 0) (Some 0) [] in
  let e := synthesized [transfer_event] "2024-01-01 00:00:00" in
  let r := fst (processEventLog l transfer_event e) in
  let e' := snd (processEventLog l transfer_event e) in
  db e' = db e
  /\ stats (logger e') = stats (logger e)
  /\ journal (logger e')
     = (journal (logger e)
        ++ [InvalidLogReported "Invalid log structure: missing required fields"])%list
  /\ (exists error, r = inl error)
  /\ (forall n, blockNumber l = Some n ->
        r = inl (ErrorObj "JSON.stringify cannot serialize BigInt."))
  /\ (blockNumber l = None -> forallb serializable (args l) = true ->
        r = inl (ErrorObj "Invalid log structure: missing required fields")).
Proof.
  apply (invalid_log_is_rejected (mkLog (Some dai) (Some "0xabc") (Some 0) (Some 0) [])
           transfer_event (synthesized [transfer_event] "2024-01-01 00:00:00")).
  reflexivity.
Defined.

Lemma process_logs_accounting_witness :
  let logs := [transfer_log; mkLog (Some dai) None (Some 100) (Some 1) []; transfer_log] in
  let e := synthesized [transfer_event] "2024-01-01 00:00:00" in
  let t := mkTable (sch_columns (schema_of transfer_event))
             (sch_indexes (schema_of transfer_event)) [] 1 in
  let e' := process_logs logs transfer_event e in
  count "current_batch" duplicate (logger e')
  + count "current_batch" processedStat (logger e')
  + count "current_batch" errorStat (logger e')
  = count "current_batch" duplicate (logger e)
    + count "current_batch" processedStat (logger e)
    + count "current_batch" errorStat (logger e)
    + Z.of_nat (List.length (List.filter acceptable logs))
  /\ rejections (journal (logger e'))
     = (rejections (journal (logger e))
        + List.length (List.filter (fun l => negb (acceptable l)) logs))%nat
  /\ exists t',
       table_of "Transfer" e' = Some t'
       /\ tbl_columns t' = tbl_columns t
       /\ Z.of_nat (List.length (tbl_rows t'))
          = Z.of_nat (List.length (tbl_rows t))
            + (count "current_batch" processedStat (logger e')
               - count "current_batch" processedStat (logger e)).
Proof.
  apply (process_logs_accounting transfer_event
           [transfer_log; mkLog (Some dai) None (Some 100) (Some 1) []; transfer_log]
           (synthesized [transfer_event] "2024-01-01 00:00:00")
           (mkTable (sch_columns (schema_of transfer_event))
              (sch_indexes (schema_of transfer_event)) [] 1)).
  vm_compute. reflexivity.
Defined.

Lemma batch_summary_is_never_logged_witness :
  exists outcome w',
    batch_callback scripted 20 [dai] [transfer_event] 1 4 1 (start mixed_script)
    = Some (outcome, w')
    /\ summaries (journal_of w') = summaries (journal_of (start mixed_script))
    /\ forall key, key <> "current_batch" -> stats (logger (env_of w')) !! key = None.
Proof.
  eexists. eexists. split; [vm_compute; reflexivity|].
  eapply (batch_summary_is_never_logged scripted 20 [dai] [transfer_event] 1 4 1
            (start mixed_script)).
  vm_compute. reflexivity.
Defined.

Lemma process_logs_twice_witness :
  let logs := [transfer_log; mkLog (Some dai) None (Some 100) (Some 1) []; transfer_log] in
  let e := synthesized [transfer_event] "2024-01-01 00:00:00" in
  let e1 := process_logs logs transfer_event e in
  let e2 := process_logs logs transfer_event e1 in
  db e2 = db e1
  /\ count "current_batch" duplicate (logger e2)
     = count "current_batch" duplicate (logger e1)
       + Z.of_nat (List.length (List.filter acceptable logs))
  /\ count "current_batch" processedStat (logger e2)
     = count "current_batch" processedStat (logger e1)
  /\ count "current_batch" errorStat (logger e2)
     = count "current_batch" errorStat (logger e1).
Proof.
  apply (process_logs_twice transfer_event
           [transfer_log; mkLog (Some dai) None (Some 100) (Some 1) []; transfer_log]
           (synthesized [transfer_event] "2024-01-01 00:00:00")
           (mkTable (sch_columns (schema_of transfer_event))
              (sch_indexes (schema_of transfer_event)) [] 1)).
  - vm_compute. reflexivity.
  - reflexivity.
  - reflexivity.
  - repeat constructor; discriminate.
Defined.

End LogsMore.

(** ** The historical backfill as a whole *)

Module HistoricalFacts.
Import Seeder SeederFacts.
Import Js Json Logger Sqlite DbClient Logs Historical LogsFacts Vocabulary.

(** the world after the loop is the world the callbacks made, one after
    the other *)
Lemma while_loop_threads {W} (cb : Z -> Z -> W -> (Js.thrown + unit) * W)
    (lastBlock batchSize : Z) (fuel : nat) :
  forall (st st' : loop_state) (w w' : W) (rs : list (Z * Z)),
    while_loop cb fuel lastBlock batchSize st w = Some (st', w', rs) ->
    w' = List.fold_left (fun w r => snd (cb (fst r) (snd r) w)) rs w.
Proof.
  induction fuel as [|fuel IH]; intros st st' w w' rs; cbn [while_loop];
    destruct (nextBlock st <? lastBlock); try discriminate;
    try (now intros [= <- <- <-]).
  destruct (cb _ _ w) as [r w1] eqn:Hcb.
  destruct (while_loop cb fuel _ _ _ w1) as [[[st2 w2] rs2]|] eqn:Hrest; [|discriminate].
  intros [= <- <- <-]. cbn [List.fold_left fst snd]. rewrite Hcb. cbn [snd].
  now apply IH in Hrest.
Qed.

(** what every callback keeps on the ranges of a chain, the run over the
    chain keeps *)
Lemma fold_ranges_invariant {W} (cb : Z -> Z -> W -> (Js.thrown + unit) * W)
    (P : W -> Prop) (b size : Z) :
  (forall f t w, f <= t -> t - f <= size -> P w -> P (snd (cb f t w))) ->
  forall (rs : list (Z * Z)) (a : Z) (w : W),
    Seeder.chain a b rs ->
    Forall (fun r => snd r - fst r <= size) rs ->
    P w ->
    P (List.fold_left (fun w r => snd (cb (fst r) (snd r) w)) rs w).
Proof.
  intros Hcb rs. induction rs as [|[f t] rs IH]; intros a w Hchain Hsize Hw; [exact Hw|].
  cbn [List.fold_left fst snd]. destruct Hchain as (_ & Hft & _ & Hchain).
  apply Forall_cons_1 in Hsize as [Hs Hsize]. cbn in Hs.
  apply (IH (t + 1)); [exact Hchain|exact Hsize|]. now apply Hcb.
Qed.

Section BackfillFacts.
Context {C : Type}.
Variable getBlockNumber : C -> (thrown + Z) * C.
Variable getLogs : string -> AbiItem -> Z -> Z -> C -> (thrown + list Log) * C.

Lemma for_each_event_returns (fuel : nat) (contractAddress : string)
    (fromBlock toBlock batchNumber : Z) (abis : list AbiItem) :
  fromBlock <= toBlock ->
  (enough fromBlock toBlock 3 0 <= fuel)%nat ->
  forall w : Logs.world C, exists w',
    for_each_event getLogs fuel contractAddress abis fromBlock toBlock batchNumber w
    = Some (inr tt, w').
Proof.
  intros Hrange Hfuel. induction abis as [|abi abis IH]; intros w; cbn; [eauto|].
  unfold processContractEventRange.
  destruct (retry_loop_returns getLogs contractAddress abi batchNumber 3 fuel
              fromBlock toBlock 0 w Hrange Hfuel) as [w1 ->].
  apply IH.
Qed.

Lemma for_each_contract_returns (fuel : nat) (abis : list AbiItem)
    (fromBlock toBlock batchNumber : Z) (contractAddresses : list string) :
  fromBlock <= toBlock ->
  (enough fromBlock toBlock 3 0 <= fuel)%nat ->
  forall w : Logs.world C, exists w',
    for_each_contract getLogs fuel contractAddresses abis fromBlock toBlock batchNumber w
    = Some (inr tt, w').
Proof.
  intros Hrange Hfuel. induction contractAddresses as [|a rest IH]; intros w; cbn; [eauto|].
  destruct (for_each_event_returns fuel a fromBlock toBlock batchNumber abis Hrange Hfuel w)
    as [w1 ->].
  apply IH.
Qed.

(** a batch of at most 1001 blocks keeps the backfill going *)
Lemma on_batch_returns (fuel : nat) (contractAddresses : list string) (abis : list AbiItem)
    (fromBlock toBlock : Z) (s : backfill) :
  (Z.to_nat 5005 <= fuel)%nat ->
  fromBlock <= toBlock -> toBlock - fromBlock <= 1000 ->
  (exists n w, s = Some (n, w)) ->
  exists n w, snd (on_batch getLogs fuel contractAddresses abis fromBlock toBlock s)
              = Some (n, w).
Proof.
  intros Hfuel Hrange Hsize (n & w & ->). unfold on_batch, batch_callback.
  destruct (for_each_contract_returns fuel abis fromBlock toBlock (n + 1) contractAddresses
              Hrange) with (w := mkWorld (chain w)
                                   (mkEnv (db (env_of w)) (Logger.reset (logger (env_of w)))))
    as [w' ->]; [unfold enough; lia|].
  cbn. eauto.
Qed.

(** X25: [processHistoricalEvents] throws exactly on its checks: no
    contract address, no event, a failing [getBlockNumber], or a start block
    beyond the current block; each of these throws before anything is
    fetched or stored. Past the checks it returns normally, whatever the
    chain client answers, once it has the fuel for its batches of 1001
    blocks. *)
Theorem processHistoricalEvents_outcome (fuel : nat) (contractAddresses : list string)
    (abis : list AbiItem) (startBlock : Z) (w : Logs.world C) :
  let run := processHistoricalEvents getBlockNumber getLogs fuel contractAddresses abis
               startBlock w in
  (contractAddresses = [] ->
   run = Some (inl (ErrorObj "No contract addresses provided"), w))
  /\ (contractAddresses <> [] -> abis = [] ->
      run = Some (inl (ErrorObj "No event ABIs provided"), w))
  /\ (contractAddresses <> [] -> abis <> [] ->
      forall error c', getBlockNumber (chain w) = (inl error, c') ->
        run = Some (inl (ErrorObj ("Failed to get current block number: "
                                   +:+ message_of error)),
                    mkWorld c' (env_of w)))
  /\ (contractAddresses <> [] -> abis <> [] ->
      forall currentBlock c', getBlockNumber (chain w) = (inr currentBlock, c') ->
        (currentBlock < startBlock ->
         run = Some (inl (ErrorObj ("Start block (" +:+ string_of_Z startBlock
                                    +:+ ") cannot be greater than current block ("
                                    +:+ string_of_Z currentBlock +:+ ")")),
                     mkWorld c' (env_of w)))
        /\ (startBlock <= currentBlock ->
            (Z.to_nat 5005 <= fuel)%nat ->
            (Z.to_nat (currentBlock - startBlock) <= fuel)%nat ->
            exists w', run = Some (inr tt, w'))).
Proof.
  cbv zeta. unfold processHistoricalEvents.
  split; [now intros ->|]. split; [intros Hc ->; now destruct contractAddresses|].
  split.
  - intros Hc Ha error c' Hget. destruct contractAddresses; [contradiction|].
    destruct abis; [contradiction|]. cbn. now rewrite Hget.
  - intros Hc Ha currentBlock c' Hget. destruct contractAddresses as [|a0 rest]; [contradiction|].
    destruct abis as [|abi0 abis0]; [contradiction|].
    cbn [List.length Nat.eqb]. rewrite Hget. split.
    + intros Hlt. destruct (Z.gtb_spec startBlock currentBlock); [reflexivity|lia].
    + intros Hle H5005 Hfuel.
      destruct (Z.gtb_spec startBlock currentBlock); [lia|].
      destruct (Z.eq_dec startBlock currentBlock) as [->|Hne].
      { rewrite loopThroughBlocks_single_block. cbn. eauto. }
      unfold loopThroughBlocks, batchSizeOf.
      destruct (while_loop_chain (on_batch getLogs fuel (a0 :: rest) (abi0 :: abis0))
                  currentBlock 1000 ltac:(lia) fuel
                  (mkLoop startBlock startBlock 0 0)
                  (Some (0, mkWorld c' (env_of w))))
        as (st' & s' & rs & Hrun & Hchain & Hsize); cbn; try lia.
      rewrite Hrun. cbn [Seeder.world].
      pose proof (while_loop_threads _ _ _ _ _ _ _ _ _ Hrun) as Hs'.
      assert (Hsome : exists n w', s' = Some (n, w')).
      { rewrite Hs'.
        apply (fold_ranges_invariant _ (fun s => exists n w', s = Some (n, w'))
                 currentBlock 1000) with (a := startBlock); [|exact Hchain|exact Hsize|eauto].
        intros f t s Hft Hlen Hs. now apply on_batch_returns. }
      destruct Hsome as (n' & w' & ->). eauto.
Qed.

(** X26: when the start block is the current block,
    [processHistoricalEvents] returns at once, with any fuel: no batch runs
    and nothing is fetched, so the logs of that block are left to the
    watchers. *)
Theorem head_block_is_not_scanned (fuel : nat) (contractAddresses : list string)
    (abis : list AbiItem) (startBlock : Z) (w : Logs.world C) (c' : C) :
  contractAddresses <> [] -> abis <> [] ->
  getBlockNumber (chain w) = (inr startBlock, c') ->
  processHistoricalEvents getBlockNumber getLogs fuel contractAddresses abis startBlock w
  = Some (inr tt, mkWorld c' (env_of w)).
Proof.
  intros Hc Ha Hget. unfold processHistoricalEvents.
  destruct contractAddresses; [contradiction|]. destruct abis; [contradiction|].
  cbn [List.length Nat.eqb]. rewrite Hget.
  destruct (Z.gtb_spec startBlock startBlock); [lia|].
  now rewrite loopThroughBlocks_single_block.
Qed.

Section QuietChain.

(** the chain has no log of any event, whatever is asked *)
Hypothesis Hquiet : forall a abi f t c, exists c1, getLogs a abi f t c = (inr [], c1).

(** what a batch on a quiet chain keeps: nothing is counted *)
Local Abbreviation still w := (stats (logger (env_of w)) = ∅).

Lemma quiet_unit (fuel : nat) (contractAddress : string) (abi : AbiItem)
    (batchNumber fromBlock toBlock : Z) (w : Logs.world C) :
  fromBlock <= toBlock -> still w ->
  exists w',
    processContractEventRange getLogs (S fuel) contractAddress abi fromBlock toBlock
      batchNumber 3 w = Some (inr tt, w')
    /\ journal_of w'
       = (journal_of w ++ [Fetched contractAddress (abi_name abi) fromBlock toBlock])%list
    /\ db (env_of w') = db (env_of w)
    /\ still w'.
Proof.
  intros Hrange Hstill. unfold processContractEventRange. rewrite retry_loop_S.
  cbn [Z.leb Z.compare]. cbv zeta. unfold getContractLogs.
  destruct (Z.gtb_spec fromBlock toBlock); [lia|].
  destruct (Hquiet contractAddress abi fromBlock toBlock
              (chain (note (Fetched contractAddress (abi_name abi) fromBlock toBlock) w)))
    as [c1 ->].
  eexists. split; [reflexivity|]. unfold store_logs, logBatchSummary.
  cbn [process_logs env_of chain note logger db record stats journal_of].
  rewrite Hstill, lookup_empty. cbn. rewrite Hstill. auto.
Qed.

Lemma quiet_events (fuel : nat) (contractAddress : string)
    (batchNumber fromBlock toBlock : Z) (abis : list AbiItem) :
  fromBlock <= toBlock ->
  forall w : Logs.world C, still w ->
    exists w',
      for_each_event getLogs (S fuel) contractAddress abis fromBlock toBlock batchNumber w
      = Some (inr tt, w')
      /\ journal_of w'
         = (journal_of w
            ++ List.map (fun abi => Fetched contractAddress (abi_name abi) fromBlock toBlock)
                 abis)%list
      /\ db (env_of w') = db (env_of w)
      /\ still w'.
Proof.
  intros Hrange. induction abis as [|abi abis IH]; intros w Hstill.
  - exists w. cbn [for_each_event List.map]. rewrite app_nil_r. auto.
  - cbn [for_each_event List.map].
    destruct (quiet_unit fuel contractAddress abi batchNumber fromBlock toBlock w
                Hrange Hstill) as (w1 & -> & Hj1 & Hd1 & Hs1).
    destruct (IH w1 Hs1) as (w' & -> & Hj & Hd & Hs).
    exists w'. split; [reflexivity|]. rewrite Hj, Hj1, Hd, Hd1, <- app_assoc. auto.
Qed.

Lemma quiet_contracts (fuel : nat) (abis : list AbiItem)
    (batchNumber fromBlock toBlock : Z) (contractAddresses : list string) :
  fromBlock <= toBlock ->
  forall w : Logs.world C, still w ->
    exists w',
      for_each_contract getLogs (S fuel) contractAddresses abis fromBlock toBlock
        batchNumber w = Some (inr tt, w')
      /\ journal_of w'
         = (journal_of w ++ batch_fetches contractAddresses abis (fromBlock, toBlock))%list
      /\ db (env_of w') = db (env_of w)
      /\ still w'.
Proof.
  intros Hrange. induction contractAddresses as [|a rest IH]; intros w Hstill.
  - exists w. cbn. rewrite app_nil_r. auto.
  - cbn [for_each_contract batch_fetches List.flat_map fst snd].
    destruct (quiet_events fuel a batchNumber fromBlock toBlock abis Hrange w Hstill)
      as (w1 & -> & Hj1 & Hd1 & Hs1).
    destruct (IH w1 Hs1) as (w' & -> & Hj & Hd & Hs).
    exists w'. split; [reflexivity|].
    rewrite Hj, Hj1, Hd, Hd1, <- app_assoc. auto.
Qed.

Lemma quiet_batches (fuel : nat) (contractAddresses : list string) (abis : list AbiItem)
    (b : Z) (rs : list (Z * Z)) :
  forall (a n : Z) (w : Logs.world C),
    Seeder.chain a b rs ->
    exists n' w',
      List.fold_left
        (fun s r => snd (on_batch getLogs (S fuel) contractAddresses abis (fst r) (snd r) s))
        rs (Some (n, w)) = Some (n', w')
      /\ journal_of w'
         = (journal_of w ++ List.flat_map (batch_fetches contractAddresses abis) rs)%list
      /\ db (env_of w') = db (env_of w).
Proof.
  induction rs as [|[f t] rs IH]; intros a n w Hchain.
  - exists n, w. cbn. rewrite app_nil_r. auto.
  - destruct Hchain as (_ & Hft & _ & Hchain).
    cbn [List.fold_left List.flat_map fst snd]. unfold on_batch at 2, batch_callback.
    destruct (quiet_contracts fuel abis (n + 1) f t contractAddresses Hft
                (mkWorld (chain w) (mkEnv (db (env_of w)) (Logger.reset (logger (env_of w))))))
      as (w1 & -> & Hj1 & Hd1 & _); [reflexivity|].
    cbn [snd]. destruct (IH (t + 1) (n + 1) w1 Hchain) as (n' & w' & -> & Hj & Hd).
    exists n', w'. split; [reflexivity|]. rewrite Hj, Hj1, Hd, Hd1, <- app_assoc. auto.
Qed.

(** X27: on a chain that answers every fetch with no logs,
    [processHistoricalEvents] from [startBlock < currentBlock] fetches, for
    each batch in turn, every event of every contract exactly once, contract
    by contract, on the batch's range; the batches tile
    [[startBlock, currentBlock]] in ranges of at most 1001 blocks; nothing
    else is journaled and nothing is stored. *)
Theorem quiet_chain_backfill (fuel : nat) (contractAddresses : list string)
    (abis : list AbiItem) (startBlock currentBlock : Z) (w : Logs.world C) (c' : C) :
  contractAddresses <> [] -> abis <> [] ->
  getBlockNumber (chain w) = (inr currentBlock, c') ->
  startBlock < currentBlock ->
  (Z.to_nat (currentBlock - startBlock) <= fuel)%nat ->
  exists w' rs,
    processHistoricalEvents getBlockNumber getLogs fuel contractAddresses abis startBlock w
    = Some (inr tt, w')
    /\ Seeder.chain startBlock currentBlock rs
    /\ Forall (fun r => snd r - fst r <= 1000) rs
    /\ journal_of w'
       = (journal_of w ++ List.flat_map (batch_fetches contractAddresses abis) rs)%list
    /\ db (env_of w') = db (env_of w).
Proof.
  intros Hc Ha Hget Hlt Hfuel. unfold processHistoricalEvents.
  destruct contractAddresses as [|a0 rest]; [contradiction|].
  destruct abis as [|abi0 abis0]; [contradiction|].
  cbn [List.length Nat.eqb]. rewrite Hget.
  destruct (Z.gtb_spec startBlock currentBlock); [lia|].
  destruct fuel as [|fuel]; [lia|].
  unfold loopThroughBlocks, batchSizeOf.
  destruct (while_loop_chain (on_batch getLogs (S fuel) (a0 :: rest) (abi0 :: abis0))
              currentBlock 1000 ltac:(lia) (S fuel)
              (mkLoop startBlock startBlock 0 0)
              (Some (0, mkWorld c' (env_of w))))
    as (st' & s' & rs & Hrun & Hchain & Hsize);
    cbn [Seeder.nextBlock Seeder.currentBlock]; try lia.
  rewrite Hrun. cbn [Seeder.world].
  pose proof (while_loop_threads _ _ _ _ _ _ _ _ _ Hrun) as ->.
  destruct (quiet_batches fuel (a0 :: rest) (abi0 :: abis0) currentBlock rs startBlock 0
              (mkWorld c' (env_of w)) Hchain) as (n' & w' & -> & Hj & Hd).
  exists w', rs. auto.
Qed.

End QuietChain.

End BackfillFacts.

(** *** The properties above, on a chain whose head is block 3000 *)

Lemma head_block_is_not_scanned_witness :
  processHistoricalEvents (fun c : unit => (inr 3000, c))
    (always_failing "connection reset") 0 [dai] [transfer_event] 3000 (start tt)
  = Some (inr tt, mkWorld tt (env_of (start tt))).
Proof.
  apply (head_block_is_not_scanned (fun c : unit => (inr 3000, c))
           (always_failing "connection reset") 0 [dai] [transfer_event] 3000
           (start tt) tt).
  - discriminate.
  - discriminate.
  - reflexivity.
Defined.

Lemma quiet_chain_backfill_witness :
  exists w' rs,
    processHistoricalEvents (fun c : unit => (inr 3000, c))
      (fun _ _ _ _ (c : unit) => (inr [], c)) 2999 [dai] [transfer_event] 1 (start tt)
    = Some (inr tt, w')
    /\ Seeder.chain 1 3000 rs
    /\ Forall (fun r => snd r - fst r <= 1000) rs
    /\ journal_of w'
       = (journal_of (start tt) ++ List.flat_map (batch_fetches [dai] [transfer_event]) rs)%list
    /\ db (env_of w') = db (env_of (start tt)).
Proof.
  apply (quiet_chain_backfill (fun c : unit => (inr 3000, c))
           (fun _ _ _ _ (c : unit) => (inr [], c))
           (fun a abi f t c => ex_intro _ c eq_refl)
           2999 [dai] [transfer_event] 1 3000 (start tt) tt).
  - discriminate.
  - discriminate.
  - reflexivity.
  - lia.
  - vm_compute. lia.
Defined.

End HistoricalFacts.
